(** * S-BrainXcan: harmonisation, accumulation and marginal test

    A shallow embedding of [brainxcan/sbxcan/run_sbrainxcan.py].

    Numbers.  The program computes with numpy [float64] values.  Two
    models of them are used.

    [B64.float] is binary64 itself, with the operations of the processor
    (rounding to nearest, overflow to an infinity, underflow to zero).  The
    functions whose statements depend on the value of a sum, a product, a
    quotient or a square root are embedded over it: [impute_b_from_z],
    [genomic_control] and the accumulation of the chromosome loop.

    [F64.float] is the value of a table cell as the tables and the masks
    look at it: a real number, one of the two infinities, or NaN.  Its
    special values follow IEEE 754 as numpy applies it: NaN propagates
    through every operation, every ordered comparison with NaN is false,
    [x / 0] is an infinity or NaN and never an exception, the square root
    of a negative number is NaN.  Its finite arithmetic does not round: the
    statements over it rest on the comparisons, on the special values, on
    products and sums that binary64 computes without rounding (by +1, -1
    or 0, of zeros) and on the square root of a number other than zero
    being, like its square, other than zero; they rest on none of the
    identities that rounding breaks (the associativity of the sum,
    [(x * y) / y = x], [sqrt(x)^2 = x]).

    Tables.  A pandas [DataFrame] is a list of rows; the two key columns
    [snpid] and [chr] are strings, an allele cell is a string or the missing
    marker [np.nan].

    Errors.  A raised Python exception is a value of [exn], threaded
    through the error monad [res]. *)

From Stdlib Require Import Reals Lra List String Ascii Bool ZArith Lia.
From Stdlib Require Import Permutation DecimalString DecimalNat.
From Stdlib Require Floats.
Import ListNotations.

Set Warnings "-inexact-float".

Local Open Scope string_scope.

(** ** Exceptions *)

Inductive exn : Type :=
| KeyError (k : string)
| ValueError (msg : string)
| AttributeError (attr : string).

Inductive res (A : Type) : Type :=
| Ok (a : A)
| Raise (e : exn).

Arguments Ok {A} a.
Arguments Raise {A} e.

Definition bind {A B : Type} (m : res A) (k : A -> res B) : res B :=
  match m with
  | Ok a => k a
  | Raise e => Raise e
  end.

Notation "'do' x <- m ; k" := (bind m (fun x => k))
  (at level 10, x name, m at level 100, k at level 200).

Fixpoint mapM {A B : Type} (f : A -> res B) (l : list A) : res (list B) :=
  match l with
  | [] => Ok []
  | a :: l' => do b <- f a; do bs <- mapM f l'; Ok (b :: bs)
  end.

(** ** The cells of the tables *)

Module F64.

Local Open Scope R_scope.

Inductive float : Type :=
| NaN
| PInf
| NInf
| Fin (r : R).

Definition isnan (x : float) : bool :=
  match x with NaN => true | _ => false end.

Definition notna (x : float) : bool := negb (isnan x).

Definition inf (negative : bool) : float := if negative then NInf else PInf.

(** An infinity of sign [negative] times the finite [a]. *)
Definition inf_times (negative : bool) (a : R) : float :=
  if Req_dec_T a 0 then NaN
  else if Rlt_dec a 0 then inf (negb negative) else inf negative.

Definition mul (x y : float) : float :=
  match x, y with
  | NaN, _ | _, NaN => NaN
  | Fin a, Fin b => Fin (a * b)
  | Fin a, PInf | PInf, Fin a => inf_times false a
  | Fin a, NInf | NInf, Fin a => inf_times true a
  | PInf, PInf | NInf, NInf => PInf
  | PInf, NInf | NInf, PInf => NInf
  end.

Definition div (x y : float) : float :=
  match x, y with
  | NaN, _ | _, NaN => NaN
  | Fin a, Fin b =>
      if Req_dec_T b 0
      then (if Req_dec_T a 0 then NaN else inf (if Rlt_dec a 0 then true else false))
      else Fin (a / b)
  | Fin _, (PInf | NInf) => Fin 0
  | (PInf | NInf), (PInf | NInf) => NaN
  | PInf, Fin b => inf (if Rlt_dec b 0 then true else false)
  | NInf, Fin b => inf (if Rlt_dec b 0 then false else true)
  end.

Definition add (x y : float) : float :=
  match x, y with
  | NaN, _ | _, NaN => NaN
  | Fin a, Fin b => Fin (a + b)
  | PInf, NInf | NInf, PInf => NaN
  | PInf, _ | _, PInf => PInf
  | NInf, _ | _, NInf => NInf
  end.

Definition neg (x : float) : float :=
  match x with
  | NaN => NaN
  | PInf => NInf
  | NInf => PInf
  | Fin a => Fin (- a)
  end.

Definition sub (x y : float) : float :=
  match x, y with
  | Fin a, Fin b => Fin (a - b)
  | _, _ => add x (neg y)
  end.

(** [np.sqrt]: NaN (with a warning, no exception) below zero. *)
Definition sqrt (x : float) : float :=
  match x with
  | NaN | NInf => NaN
  | PInf => PInf
  | Fin a => if Rlt_dec a 0 then NaN else Fin (R_sqrt.sqrt a)
  end.

(** Comparisons: each is false as soon as one side is NaN, but [!=]. *)
Definition lt (x y : float) : bool :=
  match x, y with
  | NaN, _ | _, NaN => false
  | Fin a, Fin b => if Rlt_dec a b then true else false
  | NInf, NInf | PInf, _ | _, NInf => false
  | NInf, _ | _, PInf => true
  end.

Definition eq (x y : float) : bool :=
  match x, y with
  | Fin a, Fin b => if Req_dec_T a b then true else false
  | PInf, PInf | NInf, NInf => true
  | _, _ => false
  end.

Definition le (x y : float) : bool := lt x y || eq x y.
Definition gt (x y : float) : bool := lt y x.
Definition ge (x y : float) : bool := le y x.
Definition ne (x y : float) : bool := negb (eq x y).

Definition of_Z (z : Z) : float := Fin (IZR z).

End F64.

Abbreviation float := F64.float.
Abbreviation NaN := F64.NaN.
Abbreviation Fin := F64.Fin.

(** ** float64, as the machine computes *)

Module B64.

Import PrimFloat.

Definition float : Set := PrimFloat.float.

Definition zero : float := 0%float.
Definition one : float := 1%float.
Definition two : float := 2%float.
Definition nan : float := PrimFloat.nan.
Definition inf : float := PrimFloat.infinity.

Definition add (x y : float) : float := (x + y)%float.
Definition sub (x y : float) : float := (x - y)%float.
Definition mul (x y : float) : float := (x * y)%float.
Definition div (x y : float) : float := (x / y)%float.
Definition sqrt (x : float) : float := PrimFloat.sqrt x.

(** Comparisons: each is false as soon as one side is NaN. *)
Definition lt (x y : float) : bool := (x <? y)%float.
Definition le (x y : float) : bool := (x <=? y)%float.
Definition eq (x y : float) : bool := (x =? y)%float.
Definition ge (x y : float) : bool := le y x.

Definition isnan (x : float) : bool := PrimFloat.is_nan x.

(** [np.power(x, 2)] *)
Definition pow2 (x : float) : float := mul x x.


End B64.

(** ** Alleles and the flip test *)

(** A cell of an allele column: a Python string, or [np.nan]. *)
Inductive allele : Type :=
| ANaN
| AStr (s : string).

Definition BASE_PAIR : list (string * string) :=
  [ ("A", "T"); ("T", "A"); ("G", "C"); ("C", "G") ].

(** [d[k]] on a dict with string keys. *)
Fixpoint dict_get (d : list (string * string)) (k : string) : res string :=
  match d with
  | [] => Raise (KeyError k)
  | (k', v) :: d' => if String.eqb k' k then Ok v else dict_get d' k
  end.

(** [d[k]] where [k] is any cell: NaN is hashable and is no key of the
    dicts of this program. *)
Definition dict_get_cell (d : list (string * string)) (k : allele) : res string :=
  match k with
  | ANaN => Raise (KeyError "nan")
  | AStr s => dict_get d s
  end.

(** [x == s] for a cell [x] and a string [s]. *)
Definition cell_eq_str (x : allele) (s : string) : bool :=
  match x with
  | ANaN => false
  | AStr t => String.eqb t s
  end.

(** [x == y] on two cells; [np.nan == np.nan] is false. *)
Definition cell_eq (x y : allele) : bool :=
  match x, y with
  | AStr s, AStr t => String.eqb s t
  | _, _ => false
  end.

Definition is_nan_cell (x : allele) : bool :=
  match x with ANaN => true | AStr _ => false end.

Definition _check_flip (a0 a1 b0 b1 : allele) : res float :=
  if is_nan_cell a0 || is_nan_cell a1 || is_nan_cell b0 || is_nan_cell b1
  then Ok NaN
  else
    (* remove ambiguous first: [or] evaluates its right side only when the
       left one is false *)
    do ca1 <- dict_get_cell BASE_PAIR a1;
    do ambiguous <-
       (if cell_eq_str a0 ca1 then Ok true
        else do cb1 <- dict_get_cell BASE_PAIR b1; Ok (cell_eq_str b0 cb1));
    if ambiguous then Ok NaN
    else if cell_eq a0 b0 && cell_eq a1 b1 then Ok (Fin 1)
    else if cell_eq a0 b1 && cell_eq a1 b0 then Ok (Fin (-1))
    else
      do cb0 <- dict_get_cell BASE_PAIR b0;
      do compl <-
         (if cell_eq_str a0 cb0
          then do cb1 <- dict_get_cell BASE_PAIR b1; Ok (cell_eq_str a1 cb1)
          else Ok false);
      if compl then Ok (Fin 1)
      else
        do cb1 <- dict_get_cell BASE_PAIR b1;
        do compl_flip <-
           (if cell_eq_str a0 cb1
            then do cb0' <- dict_get_cell BASE_PAIR b0; Ok (cell_eq_str a1 cb0')
            else Ok false);
        if compl_flip then Ok (Fin (-1)) else Ok NaN.

(** [check_flip]: the loop over the zipped columns; [zip] stops at the
    shortest. *)
Fixpoint check_flip (a1 a2 b1 b2 : list allele) : res (list float) :=
  match a1, a2, b1, b2 with
  | x1 :: a1', x2 :: a2', y1 :: b1', y2 :: b2' =>
      do f <- _check_flip x1 x2 y1 y2;
      do fs <- check_flip a1' a2' b1' b2';
      Ok (f :: fs)
  | _, _, _, _ => Ok []
  end.

(** *** The harmoniser as the specification words it *)

Inductive base : Type := A | C | G | T.

Definition base_eqb (x y : base) : bool :=
  match x, y with
  | A, A | C, C | G, G | T, T => true
  | _, _ => false
  end.

Definition complement (x : base) : base :=
  match x with A => T | T => A | G => C | C => G end.

Definition base_str (x : base) : string :=
  match x with A => "A" | C => "C" | G => "G" | T => "T" end.

(** A base or a missing value, as a cell. *)
Definition cell_of (x : option base) : allele :=
  match x with
  | None => ANaN
  | Some b => AStr (base_str b)
  end.

Definition harmonize_spec (a0 a1 b0 b1 : option base) : float :=
  match a0, a1, b0, b1 with
  | Some x0, Some x1, Some y0, Some y1 =>
      if base_eqb x0 (complement x1) || base_eqb y0 (complement y1) then NaN
      else if base_eqb x0 y0 && base_eqb x1 y1 then Fin 1
      else if base_eqb x0 y1 && base_eqb x1 y0 then Fin (-1)
      else if base_eqb x0 (complement y0) && base_eqb x1 (complement y1) then Fin 1
      else if base_eqb x0 (complement y1) && base_eqb x1 (complement y0) then Fin (-1)
      else NaN
  | _, _, _, _ => NaN
  end.

(** ** Tables *)

(** A row of a SNP table: the two key columns, the two allele columns and
    the remaining (numeric) columns by name, in column order. *)
Record row : Type := mkRow {
  snpid : string;
  chr : string;
  effect_allele : allele;
  non_effect_allele : allele;
  vals : list (string * float)
}.

(** A [DataFrame] with the four SNP columns; [columns] names the others. *)
Record frame : Type := mkFrame {
  columns : list string;
  rows : list row
}.

Definition key (r : row) : string * string := (snpid r, chr r).

Definition same_key (r s : row) : bool :=
  String.eqb (snpid r) (snpid s) && String.eqb (chr r) (chr s).

Definition with_vals (r : row) (vs : list (string * float)) : row :=
  mkRow (snpid r) (chr r) (effect_allele r) (non_effect_allele r) vs.

Definition mem (c : string) (l : list string) : bool := existsb (String.eqb c) l.

(** [pd.merge(left, right, on=['snpid', 'chr'])] (how='inner'): the order
    of the left keys is kept, each left row is paired with every right row
    of its key. *)
Definition merge_inner (left right : list row) : list (row * row) :=
  flat_map (fun l => map (pair l) (filter (same_key l) right)) left.

(** [pd.merge(..., how='left')]: a left row without a partner is kept, with
    NaN in every column of the right table. *)
Definition merge_left (left right : list row) : list (row * option row) :=
  flat_map (fun l => match filter (same_key l) right with
                     | [] => [(l, None)]
                     | ms => map (fun m => (l, Some m)) ms
                     end) left.

(** Boolean indexing [x[keep]]. *)
Fixpoint mask {X : Type} (x : list X) (keep : list bool) : list X :=
  match x, keep with
  | a :: x', k :: keep' => if k then a :: mask x' keep' else mask x' keep'
  | _, _ => []
  end.

(** The columns named in [sel] times the factor [f]. *)
Definition scale_cols (sel : list string) (f : float)
    (vs : list (string * float)) : list (string * float) :=
  map (fun cv => if mem (fst cv) sel then (fst cv, F64.mul (snd cv) f) else cv) vs.

Definition opt_effect_allele (r : option row) : allele :=
  match r with Some r => effect_allele r | None => ANaN end.

Definition opt_non_effect_allele (r : option row) : allele :=
  match r with Some r => non_effect_allele r | None => ANaN end.

Definition opt_vals (cols : list string) (r : option row) : list (string * float) :=
  match r with
  | Some r => vals r
  | None => map (fun c => (c, NaN)) cols
  end.

Definition rearrage_df_by_target (df target : frame) (df_value_cols : list string)
  : res frame :=
  let df_res := merge_left (rows target) (rows df) in
  do flip_factor <-
     check_flip (map (fun p => effect_allele (fst p)) df_res)
                (map (fun p => non_effect_allele (fst p)) df_res)
                (map (fun p => opt_effect_allele (snd p)) df_res)
                (map (fun p => opt_non_effect_allele (snd p)) df_res);
  match find (fun c => negb (mem c (columns df))) df_value_cols with
  | Some c => Raise (KeyError c)
  | None =>
      Ok (mkFrame (columns df)
            (map (fun pf =>
                    with_vals (fst (fst pf))
                      (scale_cols df_value_cols (snd pf)
                         (opt_vals (columns df) (snd (fst pf)))))
                 (combine df_res flip_factor)))
  end.

(** [s.col = s.col * factor] with a numpy vector: the lengths must agree. *)
Definition mul_column (col : string) (df : frame) (factor : list float) : res frame :=
  if negb (mem col (columns df)) then Raise (AttributeError col)
  else if negb (Nat.eqb (List.length (rows df)) (List.length factor))
  then Raise (ValueError "operands could not be broadcast together")
  else Ok (mkFrame (columns df)
             (map (fun rf => with_vals (fst rf) (scale_cols [col] (snd rf) (vals (fst rf))))
                  (combine (rows df) factor))).

Definition harmonize_gwas_and_weight (gwas weight : frame) : res (frame * frame) :=
  let df_common := merge_inner (rows gwas) (rows weight) in
  do flip_factor <-
     check_flip (map (fun p => effect_allele (fst p)) df_common)
                (map (fun p => non_effect_allele (fst p)) df_common)
                (map (fun p => effect_allele (snd p)) df_common)
                (map (fun p => non_effect_allele (snd p)) df_common);
  (* need to remove the invalid variant before moving on *)
  let to_keep_ind := map F64.notna flip_factor in
  let df_common := mask df_common to_keep_ind in
  let flip_factor := mask flip_factor to_keep_ind in
  let df_common :=
    map (fun p => mkRow (snpid (fst p)) (chr (fst p))
                        (effect_allele (snd p)) (non_effect_allele (snd p)) [])
        df_common in
  let df_gwas :=
    mkFrame (columns gwas)
      (map (fun p => with_vals (fst p) (vals (snd p)))
           (merge_inner df_common (rows gwas))) in
  do df_gwas <- mul_column "effect_size" df_gwas flip_factor;
  let df_weight :=
    mkFrame (columns weight)
      (map (fun p => with_vals (fst p) (vals (snd p)))
           (merge_inner df_common (rows weight))) in
  Ok (df_gwas, df_weight).

(** The cross-source harmonisation as section 4.3 of the specification
    words it: inner join, sign, drop the undetermined, sign applied to the
    GWAS [effect_size] and to every IDP weight column, alleles of the weight
    table. *)
Definition harmonize_as_specified (gwas weight : frame) : res (frame * frame) :=
  let joined := merge_inner (rows gwas) (rows weight) in
  do signed <-
     mapM (fun p =>
             do f <- _check_flip (effect_allele (fst p)) (non_effect_allele (fst p))
                                 (effect_allele (snd p)) (non_effect_allele (snd p));
             Ok (p, f)) joined;
  let kept := filter (fun pf => F64.notna (snd pf)) signed in
  Ok (mkFrame (columns gwas)
        (map (fun pf =>
                mkRow (snpid (fst (fst pf))) (chr (fst (fst pf)))
                      (effect_allele (snd (fst pf))) (non_effect_allele (snd (fst pf)))
                      (scale_cols ["effect_size"] (snd pf) (vals (fst (fst pf)))))
             kept),
      mkFrame (columns weight)
        (map (fun pf =>
                mkRow (snpid (fst (fst pf))) (chr (fst (fst pf)))
                      (effect_allele (snd (fst pf))) (non_effect_allele (snd (fst pf)))
                      (scale_cols (columns weight) (snd pf) (vals (snd (fst pf)))))
             kept)).

(** ** Vectors and matrices *)

Definition vec : Type := list float.

(** A matrix is the list of its rows. *)
Definition matrix : Type := list (list float).

Definition zero : float := Fin 0%R.
Definition one : float := Fin 1%R.

(** Elementwise operation on two aligned vectors. *)
Definition map2 {X Y Z : Type} (f : X -> Y -> Z) (x : list X) (y : list Y) : list Z :=
  map (fun p => f (fst p) (snd p)) (combine x y).

Definition count_true (l : list bool) : nat := List.length (filter (fun b => b) l).

Definition sum (v : vec) : float := fold_left F64.add v zero.

(** [np.power(x, 2)] *)
Definition pow2 (x : float) : float := F64.mul x x.

(** ** Imputation and genomic control, in binary64 *)

Section Constants.

Import PrimFloat.


End Constants.

(** [1 / np.sqrt(2 * n * af * (1 - af))] for one SNP. *)
Definition se_of (ni ai : B64.float) : B64.float :=
  B64.div B64.one
    (B64.sqrt (B64.mul (B64.mul (B64.mul B64.two ni) ai) (B64.sub B64.one ai))).

(** The three arguments are columns of one table. *)
Definition impute_b_from_z (zscore af n : list B64.float)
  : res (list B64.float * list B64.float) :=
  if Nat.ltb 0 (count_true (map (fun x => B64.lt x B64.zero) n))
  then Raise (ValueError "There are sample size < 0")
  else if negb (Nat.eqb (count_true (map (fun a => B64.ge a B64.one) af)) 0)
          || negb (Nat.eqb (count_true (map (fun a => B64.le a B64.zero) af)) 0)
  then Raise (ValueError "There are af outside (0, 1).")
  else
    let se := map2 se_of n af in
    let bhat := map2 B64.mul zscore se in
    Ok (bhat, se).

(** The inputs on which the specification has [impute_b_from_z] fail: a
    sample size below zero, or an allele frequency that is at most 0 or at
    least 1. *)
Definition bad_input (af n : list B64.float) : Prop :=
  (exists x, In x n /\ B64.lt x B64.zero = true)
  \/ (exists a, In a af /\ (B64.ge a B64.one = true \/ B64.le a B64.zero = true)).





(** ** Loading the IDP weights *)

(** A row of the performance table, after the renaming of its columns. *)
Record perf_row : Type := mkPerf {
  IDP : string;
  CV_R2 : float;
  CV_Pearson : float;
  CV_Spearman : float
}.


(** The cell of column [c] in a row. *)
Definition cell (c : string) (r : row) : float :=
  match find (fun cv => String.eqb (fst cv) c) (vals r) with
  | Some cv => snd cv
  | None => NaN
  end.

(** [df[cols]] on the numeric columns; a name that is no column is a
    [KeyError]. *)
Definition select_columns (df : frame) (cols : list string) : res frame :=
  match find (fun c => negb (mem c (columns df))) cols with
  | Some c => Raise (KeyError c)
  | None =>
      Ok (mkFrame cols
            (map (fun r => with_vals r (map (fun c => (c, cell c r)) cols)) (rows df)))
  end.

(** [load_idp] after the two files are read and renamed: [df] is the
    weight table, [df_perf] the performance table. *)
Definition load_idp (df : frame) (df_perf : list perf_row) (spearman_cutoff : float)
  : res (frame * list perf_row) :=
  let df_perf := filter (fun p => F64.ge (CV_Spearman p) spearman_cutoff) df_perf in
  let cols_to_keep := map IDP df_perf in
  do df <- select_columns df cols_to_keep;
  let df :=
    mkFrame (columns df)
      (filter (fun r => F64.ne (sum (map snd (vals r))) zero) (rows df)) in
  Ok (df, df_perf).

(** What section 4.2 of the specification says of the second filter:
    the IDPs whose weight column sums to exactly zero are dropped. *)
Definition column_sum (c : string) (df : frame) : float :=
  sum (map (cell c) (rows df)).

Definition drop_zero_sum_idps (df : frame) : frame :=
  let keep := filter (fun c => F64.ne (column_sum c df) zero) (columns df) in
  mkFrame keep
    (map (fun r => with_vals r (filter (fun cv => mem (fst cv) keep) (vals r))) (rows df)).

Definition load_idp_as_specified (df : frame) (df_perf : list perf_row)
    (spearman_cutoff : float) : res (frame * list perf_row) :=
  let df_perf := filter (fun p => F64.ge (CV_Spearman p) spearman_cutoff) df_perf in
  do df <- select_columns df (map IDP df_perf);
  Ok (drop_zero_sum_idps df, df_perf).

(** ** The chromosome loop *)

(** [str(i)] *)
Definition str (i : nat) : string := NilZero.string_of_uint (Nat.to_uint i).

(** Column [j] of a matrix. *)
Definition col (j : nat) (m : matrix) : vec := map (fun r => nth j r NaN) m.

(** [m.T] for a matrix of [ncols] columns. *)
Definition transpose (ncols : nat) (m : matrix) : matrix :=
  map (fun j => col j m) (seq 0 ncols).

Definition dot (u v : vec) : float := sum (map2 F64.mul u v).

(** [a @ b] where [b] has [ncols] columns. *)
Definition matmul (ncols : nat) (a b : matrix) : matrix :=
  map (fun r => map (fun j => dot r (col j b)) (seq 0 ncols)) a.

(** [a @ v] for a vector [v]. *)
Definition matvec (a : matrix) (v : vec) : vec := map (fun r => dot r v) a.

Definition diagonal (m : matrix) : vec :=
  map (fun i => nth i (nth i m []) NaN) (seq 0 (List.length m)).

(** [x[np.isnan(x)] = fill] *)
Definition fillna (fill : float) (x : float) : float :=
  if F64.isnan x then fill else x.

(** Modelled from the spec: [CovMatrix.eval_matmul_on_left] of
    [brainxcan/sbxcan/util/CovConstructor.py], which is not part of the
    sources at hand.  Section 6: for a weight matrix of shape SNP x K it
    returns the product [Cov @ weight] and the diagonal of [Cov]; [param]
    does not affect the numbers. *)
Definition eval_matmul_on_left (cov : matrix) (ncols : nat) (weight : matrix)
  : matrix * vec :=
  (matmul ncols cov weight, diagonal cov).

(** The four accumulators. *)
Record accum : Type := mkAccum {
  D : matrix;
  numer_b : vec;
  numer_z : vec;
  nsnp_used : list Z
}.

Definition accum_zeros (nidp : nat) : accum :=
  mkAccum (repeat (repeat zero nidp) nidp) (repeat zero nidp) (repeat zero nidp)
          (repeat 0%Z nidp).

(** The updates [nsnp_used += ...], [D += D_chr], [numer_b += numer_b_chr]
    and [numer_z += numer_z_chr] of one iteration. *)
Definition accumulate (acc chr_part : accum) : accum :=
  mkAccum (map2 (map2 F64.add) (D acc) (D chr_part))
          (map2 F64.add (numer_b acc) (numer_b chr_part))
          (map2 F64.add (numer_z acc) (numer_z chr_part))
          (map2 Z.add (nsnp_used acc) (nsnp_used chr_part)).

(** Step 1 of an iteration, from the rearranged tables on: [weight] is
    [df_weight_sub.iloc[:, 4:]], [b_gwas] and [se_gwas] the two GWAS
    columns, [cov] the covariance of the chromosome.  The operands are
    those of matching shapes: one row of [weight], one entry of [b_gwas]
    and [se_gwas] and one row and column of [cov] per SNP; numpy raises on
    others, which [chr_contribution] checks before it comes here. *)
Definition chr_numbers (nidp : nat) (cov weight : matrix) (b_gwas se_gwas : vec)
  : accum :=
  let weight := map (map (fillna zero)) weight in
  let nsnp := map (fun w => Z.of_nat (count_true (map (fun x => F64.ne x zero) w)))
                  (transpose nidp weight) in
  let b_gwas := map (fillna zero) b_gwas in
  let se_gwas := map (fillna one) se_gwas in
  let z_gwas := map2 F64.div b_gwas se_gwas in
  let '(cov_x_weight, diag_cov) := eval_matmul_on_left cov nidp weight in
  let weight_T := transpose nidp weight in
  let D_chr := matmul nidp weight_T cov_x_weight in
  let var_R_chr := diag_cov in
  let numer_b_chr := matvec weight_T (map2 F64.mul var_R_chr b_gwas) in
  let numer_z_chr := matvec weight_T (map2 F64.mul (map F64.sqrt var_R_chr) z_gwas) in
  mkAccum D_chr numer_b_chr numer_z_chr nsnp.

(** [df.c] as a vector. *)
Definition column (c : string) (df : frame) : res vec :=
  if mem c (columns df) then Ok (map (cell c) (rows df))
  else Raise (AttributeError c).

(** [df[df.chr == str(i)]] *)
Definition subset_chr (i : nat) (df : frame) : frame :=
  mkFrame (columns df) (filter (fun r => String.eqb (chr r) (str i)) (rows df)).

(** What the run reads from disk for chromosome [i]: the SNP list of the
    covariance file and the covariance itself. *)
Record geno_cov : Type := mkGenoCov {
  cov_meta : nat -> frame;
  cov_matrix : nat -> matrix
}.

(** [m] has [nrows] rows of [ncols] entries. *)
Definition has_shape (nrows ncols : nat) (m : matrix) : bool :=
  Nat.eqb (List.length m) nrows
  && forallb (fun r => Nat.eqb (List.length r) ncols) m.

(** The body of the loop up to the accumulation: [None] is [continue].
    The products of step 1 need a covariance with one row and column per
    SNP of its list, the rows of [weight]; on another one they raise. *)
Definition chr_contribution (gc : geno_cov) (df_gwas df_weight : frame) (i : nat)
  : res (option accum) :=
  let df_gwas_sub := subset_chr i df_gwas in
  let df_weight_sub := subset_chr i df_weight in
  match rows df_gwas_sub with
  | [] => Ok None
  | _ =>
      let df_cov_meta := cov_meta gc i in
      do df_gwas_sub <- rearrage_df_by_target df_gwas_sub df_cov_meta ["effect_size"];
      do df_weight_sub <-
         rearrage_df_by_target df_weight_sub df_cov_meta (columns df_weight);
      let weight := map (fun r => map snd (vals r)) (rows df_weight_sub) in
      do b_gwas <- column "effect_size" df_gwas_sub;
      do se_gwas <- column "effect_size_se" df_gwas_sub;
      let nidp := List.length (columns df_weight) in
      let nsnp := List.length weight in
      if has_shape nsnp nidp weight && has_shape nsnp nsnp (cov_matrix gc i)
      then Ok (Some (chr_numbers nidp (cov_matrix gc i) weight b_gwas se_gwas))
      else Raise (ValueError "shapes not aligned")
  end.

(** One iteration for a body that yields the chromosome's part. *)
Definition chr_step (body : nat -> res (option accum)) (acc : res accum) (i : nat)
  : res accum :=
  do a <- acc;
  do part <- body i;
  match part with
  | None => Ok a
  | Some p => Ok (accumulate a p)
  end.

(** The loop over the chromosomes of [order], from zeroed accumulators. *)
Definition chromosome_loop (nidp : nat) (body : nat -> res (option accum))
    (order : list nat) : res accum :=
  fold_left (chr_step body) order (Ok (accum_zeros nidp)).

(** The parts that the iterations of [order] add, in that order. *)
Fixpoint parts_of (contribs : nat -> option accum) (order : list nat) : list accum :=
  match order with
  | [] => []
  | i :: order' =>
      match contribs i with
      | Some p => p :: parts_of contribs order'
      | None => parts_of contribs order'
      end
  end.

(** [for i in range(1, 23)] *)
Definition chromosomes : list nat := seq 1 22.

(** *** The accumulation in binary64 *)

(** The four accumulators with the numbers of the machine, and the loop
    over the parts that the chromosomes contribute. *)
Module Binary64.

Record accum : Type := mkAccum {
  D : list (list B64.float);
  numer_b : list B64.float;
  numer_z : list B64.float;
  nsnp_used : list Z
}.

Definition accum_zeros (nidp : nat) : accum :=
  mkAccum (repeat (repeat B64.zero nidp) nidp) (repeat B64.zero nidp)
          (repeat B64.zero nidp) (repeat 0%Z nidp).

(** [nsnp_used += ...], [D += D_chr], [numer_b += numer_b_chr] and
    [numer_z += numer_z_chr], on operands of one shape. *)
Definition accumulate (acc chr_part : accum) : accum :=
  mkAccum (map2 (map2 B64.add) (D acc) (D chr_part))
          (map2 B64.add (numer_b acc) (numer_b chr_part))
          (map2 B64.add (numer_z acc) (numer_z chr_part))
          (map2 Z.add (nsnp_used acc) (nsnp_used chr_part)).

Definition chr_step (body : nat -> res (option accum)) (acc : res accum) (i : nat)
  : res accum :=
  do a <- acc;
  do part <- body i;
  match part with
  | None => Ok a
  | Some p => Ok (accumulate a p)
  end.

Definition chromosome_loop (nidp : nat) (body : nat -> res (option accum))
    (order : list nat) : res accum :=
  fold_left (chr_step body) order (Ok (accum_zeros nidp)).

(** The parts that the iterations of [order] add, in that order. *)
Fixpoint parts_of (contribs : nat -> option accum) (order : list nat) : list accum :=
  match order with
  | [] => []
  | i :: order' =>
      match contribs i with
      | Some p => p :: parts_of contribs order'
      | None => parts_of contribs order'
      end
  end.

(** The reduction of partial accumulators, one per block of chromosomes. *)
Definition reduce_blocks (nidp : nat) (parts : list accum) : accum :=
  fold_left accumulate parts (accum_zeros nidp).

(** Accumulators for [n] IDPs. *)
Definition shaped (n : nat) (a : accum) : Prop :=
  List.length (D a) = n
  /\ Forall (fun r => List.length r = n) (D a)
  /\ List.length (numer_b a) = n
  /\ List.length (numer_z a) = n
  /\ List.length (nsnp_used a) = n.

(** Entry [(j, k)] of a matrix. *)
Definition entry (j k : nat) (m : list (list B64.float)) : B64.float :=
  nth k (nth j m []) B64.nan.

(** The sum of a list, from the left, as [+=] builds it from zero. *)
Definition sum_left (l : list B64.float) : B64.float := fold_left B64.add l B64.zero.

Definition count_sum (l : list Z) : Z := fold_left Z.add l 0%Z.

End Binary64.

(** ** Marginal test *)

(** The state between the loop and the marginal test. *)
Record pheno_state : Type := mkPheno {
  acc : accum;
  idp_names : list string;
  nsnp_total : list Z
}.

(** The checker for traits with [D == 0]. *)
Definition drop_bad_pheno (s : pheno_state) : pheno_state :=
  let diag := diagonal (D (acc s)) in
  let n_bad_pheno := count_true (map (fun d => F64.eq d zero) diag) in
  if Nat.ltb 0 n_bad_pheno then
    let good_pheno := map (fun d => F64.ne d zero) diag in
    mkPheno
      (mkAccum (mask (map (fun r => mask r good_pheno) (D (acc s))) good_pheno)
               (mask (numer_b (acc s)) good_pheno)
               (mask (numer_z (acc s)) good_pheno)
               (mask (nsnp_used (acc s)) good_pheno))
      (mask (idp_names s) good_pheno)
      (mask (nsnp_total s) good_pheno)
  else s.

(** Step 2: the divisors and the two ratios. *)
Definition S_D_of (s : pheno_state) : vec := map F64.sqrt (diagonal (D (acc s))).

Definition beta_divisors (s : pheno_state) : vec := map pow2 (S_D_of s).

Definition marginal_test (s : pheno_state) : vec * vec :=
  let S_D := S_D_of s in
  let beta_brainxcan := map2 F64.div (numer_b (acc s)) (map pow2 S_D) in
  let z_brainxcan := map2 F64.div (numer_z (acc s)) S_D in
  (beta_brainxcan, z_brainxcan).

(** ** Empirical null *)

(** The value of a command-line attribute. *)
Inductive argval : Type :=
| VNone
| VBool (b : bool)
| VInt (z : Z)
| VFloat (x : float)
| VStr (s : string)
| VStrs (l : list string).

(** An [argparse.Namespace]: attribute names and values. *)
Definition namespace : Type := list (string * argval).

Fixpoint getattr (ns : namespace) (name : string) : res argval :=
  match ns with
  | [] => Raise (AttributeError name)
  | (k, v) :: ns' => if String.eqb k name then Ok v else getattr ns' name
  end.

(** Attribute access on a value that is no namespace. *)
Definition getattr_val (v : argval) (name : string) : res argval :=
  Raise (AttributeError name).

(** The namespace [parser.parse_args()] returns: one attribute per
    [add_argument], under its option name. *)
Definition parse_args (genotype_covariance : argval) (gwas idp_weight : argval)
    (spearman_cutoff : float) (empirical_null : bool)
    (empirical_null_nrepeat empirical_null_seed : Z) (output_prefix : argval)
  : namespace :=
  [ ("genotype_covariance", genotype_covariance);
    ("gwas", gwas);
    ("idp_weight", idp_weight);
    ("spearman_cutoff", VFloat spearman_cutoff);
    ("empirical_null", VBool empirical_null);
    ("empirical_null_nrepeat", VInt empirical_null_nrepeat);
    ("empirical_null_seed", VInt empirical_null_seed);
    ("output_prefix", output_prefix) ].

(** Lines 353-355: the number of null columns. *)
Definition nrepeat_null_of (args : namespace) : res argval :=
  do flag <- getattr args "empirical_null";
  match flag with
  | VBool true =>
      do inner <- getattr args "args";
      getattr_val inner "empirical_null_nrepeat"
  | _ => Ok (VInt 0)
  end.

Definition mean (v : vec) : float :=
  F64.div (sum v) (F64.of_Z (Z.of_nat (List.length v))).

(** [np.var] *)
Definition var (v : vec) : float :=
  let m := mean v in
  mean (map (fun x => pow2 (F64.sub x m)) v).

(** Lines 460-463: the split of the z-scores and the rescaling. *)
Definition empirical_null_split (z_brainxcan : vec) (nrepeat_null : nat)
  : vec * vec * vec :=
  let z_null := skipn nrepeat_null z_brainxcan in
  let z_brainxcan := firstn nrepeat_null z_brainxcan in
  let varz_null := var z_null in
  let z_adj_emp := map (fun z => F64.div z (F64.sqrt varz_null)) z_brainxcan in
  (z_null, z_brainxcan, z_adj_emp).

(** The split as section 4.5 of the specification words it: the trailing
    [R] z-scores are the null sample, the leading ones the real IDPs. *)
Definition empirical_null_split_as_specified (z : vec) (R : nat) : vec * vec * vec :=
  let nreal := List.length z - R in
  let z_null := skipn nreal z in
  let z_real := firstn nreal z in
  let z_adj_emp := map (fun x => F64.div x (F64.sqrt (var z_null))) z_real in
  (z_null, z_real, z_adj_emp).

(** ** Vocabulary of the statements *)

(** The positions that a boolean mask keeps. *)
Definition true_indices (keep : list bool) : list nat :=
  filter (fun i => nth i keep false) (seq 0 (List.length keep)).

(** What one iteration hands to step 1: the covariance of the chromosome
    and the rearranged weights and GWAS columns. *)
Record chr_input : Type := mkChrInput {
  in_cov : matrix;
  in_weight : matrix;
  in_b_gwas : vec;
  in_se_gwas : vec
}.

Definition numbers_of (nidp : nat) (c : chr_input) : accum :=
  chr_numbers nidp (in_cov c) (in_weight c) (in_b_gwas c) (in_se_gwas c).

Definition is_finite (x : float) : Prop := exists r, x = Fin r.

(** IDP [j] has no weight on the chromosome: its column holds zeros, or NaN
    where the SNP is missing, the matrix has [nidp] columns and the
    covariance has finite entries. *)
Definition no_weight_on (nidp j : nat) (c : chr_input) : Prop :=
  Forall (fun r => List.length r = nidp /\ fillna zero (nth j r NaN) = zero) (in_weight c)
  /\ Forall (Forall is_finite) (in_cov c).

(** An [n] x [n] matrix. *)
Definition square (n : nat) (m : matrix) : Prop :=
  List.length m = n /\ Forall (fun r => List.length r = n) m.

(** Entry [(j, j)] of the accumulated matrix. *)
Definition diag_entry (j : nat) (a : accum) : float := nth j (nth j (D a) []) NaN.

Definition nonzero (x : float) : Prop := F64.eq x zero = false.

(** The state that [drop_bad_pheno] builds when it filters. *)
Definition masked_by (good : list bool) (s : pheno_state) : pheno_state :=
  mkPheno
    (mkAccum (mask (map (fun r => mask r good) (D (acc s))) good)
             (mask (numer_b (acc s)) good)
             (mask (numer_z (acc s)) good)
             (mask (nsnp_used (acc s)) good))
    (mask (idp_names s) good)
    (mask (nsnp_total s) good).

(** ** Example inputs *)

Module Examples.

Local Open Scope R_scope.

(** One SNP on chromosome 1; the first of two IDPs has weight zero. *)
Definition one_snp (i : nat) : option chr_input :=
  match i with
  | 1%nat => Some (mkChrInput [[Fin 1]] [[Fin 0; Fin 1]] [Fin 1] [Fin 1])
  | _ => None
  end.

End Examples.

Module OrderExample.

Import PrimFloat.

(** A part with the number [x] in every float accumulator of one IDP, and
    one SNP. *)
Definition part (x : B64.float) : Binary64.accum :=
  Binary64.mkAccum [[x]] [x] [x] [1%Z].

(** Chromosomes 1, 2 and 3 contribute 0.1, 0.2 and 0.3. *)
Definition contribs (i : nat) : option Binary64.accum :=
  match i with
  | 1%nat => Some (part 0.1%float)
  | 2%nat => Some (part 0.2%float)
  | 3%nat => Some (part 0.3%float)
  | _ => None
  end.

(** The chromosomes with the first three in reverse. *)
Definition order : list nat := ([3; 2; 1] ++ seq 4 19)%list.

Definition forward : B64.float := 0.6000000000000001%float.
Definition backward : B64.float := 0.6%float.

End OrderExample.

Module ImputeExample.

Import PrimFloat.

(** The example of the specification: z = 2.0, af = 0.3, n = 10000. *)
Definition zscore : list B64.float := [2%float].
Definition af : list B64.float := [0.3%float].
Definition n : list B64.float := [10000%float].

(** The same SNP with the z-score 3.0, and with the sample size 0. *)
Definition zscore3 : list B64.float := [3%float].
Definition n0 : list B64.float := [0%float].

Definition three : B64.float := 3%float.

End ImputeExample.

Module GcExample.

Import PrimFloat.

(** The double whose square is the double 0.456. *)
Definition z0 : B64.float := 0.6752777206453653%float.

Definition tiny : B64.float := 1e-200%float.

(** Squares 0.456, 4 and 0 (the third underflows): the median is 0.456. *)
Definition zscore : list B64.float := [z0; 2%float; tiny].


End GcExample.

Module NullExample.

Local Open Scope R_scope.

(** Three real IDPs followed by two null columns. *)
Definition z_all : vec := [Fin 1; Fin 2; Fin 3; Fin 4; Fin 5].

End NullExample.

Module IdpExample.

Local Open Scope R_scope.

(** Two SNPs and two IDPs: the first IDP has weight zero everywhere, the
    second SNP has weight zero for every IDP. *)
Definition df : frame :=
  mkFrame ["idp1"; "idp2"]
    [ mkRow "rs1" "1" (AStr "A") (AStr "G") [("idp1", Fin 0); ("idp2", Fin 1)];
      mkRow "rs2" "1" (AStr "A") (AStr "G") [("idp1", Fin 0); ("idp2", Fin 0)] ].

Definition df_perf : list perf_row :=
  [ mkPerf "idp1" (Fin (1 / 2)) (Fin (1 / 2)) (Fin (1 / 2));
    mkPerf "idp2" (Fin (1 / 2)) (Fin (1 / 2)) (Fin (1 / 2)) ].

End IdpExample.

(** ** Vocabulary of the statements on tables *)

(** An allele of the data model: a base A, C, G or T, or missing. *)
Definition wf_allele (a : allele) : Prop := exists b : option base, a = cell_of b.

Definition wf_row (r : row) : Prop :=
  wf_allele (effect_allele r) /\ wf_allele (non_effect_allele r).

Definition wf_frame (df : frame) : Prop := Forall wf_row (rows df).

(** The keys [(snpid, chr)] are unique. *)
Definition unique_keys (df : frame) : Prop := NoDup (map key (rows df)).

(** The sign of query row [a] against reference row [b]. *)
Definition sign_of (a b : row) : float :=
  match _check_flip (effect_allele a) (non_effect_allele a)
                    (effect_allele b) (non_effect_allele b) with
  | Ok f => f
  | Raise _ => NaN
  end.

(** The sign that the rearrangement computes for a target row and its
    partner, if any. *)
Definition sign_opt (t : row) (d : option row) : float :=
  match d with Some d => sign_of t d | None => NaN end.

(** The SNPs that survive: joined on the key, sign determined. *)
Definition kept_pairs (gwas weight : frame) : list (row * row) :=
  filter (fun p => F64.notna (sign_of (fst p) (snd p)))
         (merge_inner (rows gwas) (rows weight)).

(** The SNP of a row and its orientation. *)
Definition snp_of (r : row) : string * string * allele * allele :=
  (snpid r, chr r, effect_allele r, non_effect_allele r).

(** The rows that the harmonisation returns for a GWAS row [g] and the
    weight row [w] of the same SNP. *)
Definition gwas_out (g w : row) : row :=
  mkRow (snpid g) (chr g) (effect_allele w) (non_effect_allele w)
        (scale_cols ["effect_size"] (sign_of g w) (vals g)).

Definition weight_out (g w : row) : row :=
  mkRow (snpid g) (chr g) (effect_allele w) (non_effect_allele w) (vals w).

(** The row that the rearrangement returns for the target row [t], given
    the row [d] of the input with the key of [t], if any. *)
Definition rearranged (cols_df value_cols : list string) (t : row) (d : option row)
  : row :=
  match d with
  | Some d => with_vals t (scale_cols value_cols (sign_of t d) (vals d))
  | None => with_vals t (map (fun c => (c, NaN)) cols_df)
  end.

Module HarmonizeExample.

Local Open Scope R_scope.

(** One SNP, reported with swapped alleles by the two tables. *)
Definition gwas : frame :=
  mkFrame ["effect_size"; "effect_size_se"]
    [ mkRow "rs1" "1" (AStr "A") (AStr "G")
            [("effect_size", Fin 2); ("effect_size_se", Fin 1)] ].

Definition weight : frame :=
  mkFrame ["idp1"]
    [ mkRow "rs1" "1" (AStr "G") (AStr "A") [("idp1", Fin 3)] ].

(** A target of two SNPs; the input table knows the first one only. *)
Definition target : frame :=
  mkFrame []
    [ mkRow "rs1" "1" (AStr "G") (AStr "A") [];
      mkRow "rs2" "1" (AStr "C") (AStr "T") [] ].

End HarmonizeExample.

Module IndelExample.

Local Open Scope R_scope.

(** One SNP; the input table reports an insertion as its non-effect
    allele. *)
Definition df : frame :=
  mkFrame ["effect_size"]
    [ mkRow "rs1" "1" (AStr "A") (AStr "AT") [("effect_size", Fin 1)] ].

Definition target : frame :=
  mkFrame [] [ mkRow "rs1" "1" (AStr "A") (AStr "G") [] ].

End IndelExample.

(** ** Vocabulary of the further properties *)

(** A string that is none of the four bases. *)
Definition not_base (s : string) : Prop :=
  s <> "A" /\ s <> "T" /\ s <> "G" /\ s <> "C".

(** Accumulators for [n] IDPs: [D] is [n] x [n], the three vectors have
    [n] entries and the SNP counts are not negative. *)
Definition shaped (n : nat) (a : accum) : Prop :=
  square n (D a)
  /\ List.length (numer_b a) = n
  /\ List.length (numer_z a) = n
  /\ List.length (nsnp_used a) = n
  /\ Forall (fun k => (0 <= k)%Z) (nsnp_used a).

(** A table whose rows have one cell per column, as a [DataFrame] has. *)
Definition rectangular (df : frame) : Prop :=
  Forall (fun r => map fst (vals r) = columns df) (rows df).

Module PipelineExample.

Local Open Scope R_scope.

(** Every chromosome has the SNP list of [HarmonizeExample.target] and a
    unit covariance. *)
Definition geno : geno_cov :=
  mkGenoCov (fun _ => HarmonizeExample.target)
            (fun _ => [[Fin 1; Fin 0]; [Fin 0; Fin 1]]).

End PipelineExample.

(** ** Strings, paths and command-line pairs *)

(** [re.sub('chr', '', s)]: every occurrence of "chr" met from the left is
    removed, in one pass. *)
Fixpoint remove_chr (s : string) : string :=
  match s with
  | String "c" (String "h" (String "r" rest)) => remove_chr rest
  | String c rest => String c (remove_chr rest)
  | EmptyString => EmptyString
  end.

Definition clean_up_chr (ll : list string) : list string := map remove_chr ll.

(** A string without the letter c. *)
Fixpoint no_c (s : string) : Prop :=
  match s with
  | EmptyString => True
  | String a rest => a <> "c"%char /\ no_c rest
  end.

(** [s.split(sep)] for a separator of one character. *)
Fixpoint split (sep : ascii) (s : string) : list string :=
  match s with
  | EmptyString => [EmptyString]
  | String c s' =>
      if Ascii.eqb c sep then EmptyString :: split sep s'
      else match split sep s' with
           | p :: ps => String c p :: ps
           | [] => [String c EmptyString]
           end
  end.

(** [sep.join(parts)] *)
Fixpoint join (sep : string) (parts : list string) : string :=
  match parts with
  | [] => EmptyString
  | [p] => p
  | p :: ps => p ++ sep ++ join sep ps
  end.

(** A string without the character [sep]. *)
Fixpoint free_of (sep : ascii) (s : string) : Prop :=
  match s with
  | EmptyString => True
  | String a rest => a <> sep /\ free_of sep rest
  end.

(** The file that [load_cov_meta] reads for the covariance file [fn]. *)
Definition cov_meta_path (fn : string) : string :=
  join "." (removelast (split "." fn)) ++ ".snp_meta.parquet".

(** [pat in s] *)
Fixpoint contains (pat s : string) : bool :=
  if String.prefix pat s then true
  else match s with
       | EmptyString => false
       | String _ s' => contains pat s'
       end.

(** [d[k] = v] on an ordered dict: the value of a present key is replaced
    in place, a new key goes to the end. *)
Fixpoint dict_set (k v : string) (d : list (string * string)) : list (string * string) :=
  match d with
  | [] => [(k, v)]
  | (k', v') :: d' =>
      if String.eqb k' k then (k, v) :: d' else (k', v') :: dict_set k v d'
  end.

(** [d.get(k)] *)
Definition dict_find (k : string) (d : list (string * string)) : option string :=
  option_map snd (find (fun kv => String.eqb (fst kv) k) d).

(** [col, name = i.split(':')], with the check of the length. *)
Definition parse_pair (i : string) : res (string * string) :=
  match split ":" i with
  | [col; name] => Ok (col, name)
  | _ => Raise (ValueError "Wrong gwas args list. Need [col]:[name] pairs.")
  end.

(** The first loop of [_parse_args], over [args_list[1:]]. *)
Fixpoint read_pairs (desired_cols : option (list string)) (no_raise : bool)
    (args : list string) (dict : list (string * string)) (desired_cols_tmp : list string)
  : res (list (string * string) * list string) :=
  match args with
  | [] => Ok (dict, desired_cols_tmp)
  | i :: rest =>
      do cn <- parse_pair i;
      match desired_cols with
      | None =>
          read_pairs desired_cols no_raise rest (dict_set (fst cn) (snd cn) dict)
                     (desired_cols_tmp ++ [fst cn])
      | Some ds =>
          if mem (fst cn) ds
          then read_pairs desired_cols no_raise rest (dict_set (fst cn) (snd cn) dict)
                          desired_cols_tmp
          else if no_raise
               then read_pairs desired_cols no_raise rest dict desired_cols_tmp
               else Raise (ValueError ("Wrong col = " ++ fst cn ++ "."))
      end
  end.

(** The second loop of [_parse_args], over the desired columns. *)
Fixpoint build_rename (no_raise : bool) (desired_cols : list string)
    (dict rename_dict : list (string * string)) : res (list (string * string)) :=
  match desired_cols with
  | [] => Ok rename_dict
  | dd :: ds =>
      match dict_find dd dict with
      | None =>
          if no_raise then build_rename no_raise ds dict rename_dict
          else Raise (ValueError ("Need to have col = " ++ dd ++ "."))
      | Some name => build_rename no_raise ds dict (dict_set name dd rename_dict)
      end
  end.

(** [_parse_args]: [fn] is [args_list[0]], [pairs] is [args_list[1:]] and
    [is_file] tells which paths are files. *)
Definition _parse_args (is_file : string -> bool) (fn : string) (pairs : list string)
    (desired_cols : option (list string)) (no_raise : bool)
  : res (string * list (string * string)) :=
  if negb (is_file fn) then Raise (ValueError "Filename is wrong. Cannot find the file.")
  else
    do read <- read_pairs desired_cols no_raise pairs [] [];
    let desired_cols :=
      match desired_cols with Some ds => ds | None => snd read end in
    do rename_dict <- build_rename no_raise desired_cols (fst read) [];
    Ok (fn, rename_dict).

Definition _parse_idp_args (is_file : string -> bool) (fn : string) (pairs : list string)
  : res (string * list (string * string)) :=
  _parse_args is_file fn pairs
    (Some ["snpid"; "non_effect_allele"; "effect_allele"; "chr"]) false.

(** What a call can end in when an unbound local variable is read. *)
Inductive outcome (X : Type) : Type :=
| Returns (x : X)
| Raises (e : exn)
| UnboundLocalError (name : string).

Arguments Returns {X} x.
Arguments Raises {X} e.
Arguments UnboundLocalError {X} name.

Definition gwas_cols (have_effect_size : bool) : list string :=
  if have_effect_size
  then ["snpid"; "non_effect_allele"; "effect_allele"; "effect_size"; "effect_size_se";
        "chr"]
  else ["snpid"; "non_effect_allele"; "effect_allele"; "zscore"; "allele_frequency";
        "sample_size"; "chr"].

Definition _parse_gwas_args (is_file : string -> bool) (fn : string)
    (pairs : list string) (mode : string)
  : outcome (string * list (string * string) * string) :=
  let have_effect_size :=
    if String.eqb mode "effect_size" then Some true
    else if String.eqb mode "zscore" then Some false else None in
  match have_effect_size with
  | None => Raises (ValueError ("Wrong loading mode for GWAS file: mode = " ++ mode))
  | Some have =>
      match _parse_args is_file fn pairs (Some (gwas_cols have)) true with
      | Raise e => Raises e
      | Ok (fn, rename_dict) =>
          match find (fun kv => String.eqb (snd kv) "snpid") rename_dict with
          | Some kv => Returns (fn, rename_dict, fst kv)
          | None => UnboundLocalError "snpid_name"
          end
      end
  end.

Definition get_key_by_val (val : string) (dict_ : list (string * string))
  : option string :=
  option_map fst (find (fun kv => String.eqb (snd kv) val) dict_).

(** [get_snpid_col]: [None] when the loop ends without a [return]. *)
Fixpoint get_snpid_col (gwas_args_list : list string) : res (option string) :=
  match gwas_args_list with
  | [] => Ok None
  | i :: rest =>
      if contains "snpid:" i
      then match split ":" i with
           | [_; tmp] => Ok (Some tmp)
           | _ => Raise (ValueError "too many values to unpack (expected 2)")
           end
      else get_snpid_col rest
  end.

(** The name that the pairs give for column [c]: the last one counts. *)
Definition given_name (cns : list (string * string)) (c : string) : option string :=
  option_map snd (find (fun cn => String.eqb (fst cn) c) (rev cns)).

(** The dict after the pairs [cns] are stored in it one after the other. *)
Definition store (cns d : list (string * string)) : list (string * string) :=
  fold_left (fun d cn => dict_set (fst cn) (snd cn) d) cns d.

(** The file name of each desired column that has one. *)
Definition renames (dict : list (string * string)) (ds : list string)
  : list (string * string) :=
  flat_map (fun dd => match dict_find dd dict with
                      | Some n => [(n, dd)]
                      | None => []
                      end) ds.


(** ** Loading the GWAS, once the columns are renamed *)

(** [df.drop_duplicates('snpid')]: of the rows with one [snpid] the first
    is kept; [seen] holds the ids met so far. *)
Fixpoint drop_duplicates_snpid (seen : list string) (rs : list row) : list row :=
  match rs with
  | [] => []
  | r :: rs' =>
      if mem (snpid r) seen then drop_duplicates_snpid seen rs'
      else r :: drop_duplicates_snpid (snpid r :: seen) rs'
  end.

(** The cell of column [c] set to [v]: replaced where the row has it,
    added at the end where it has not. *)
Fixpoint set_cell (c : string) (v : float) (vs : list (string * float))
  : list (string * float) :=
  match vs with
  | [] => [(c, v)]
  | (c', v') :: vs' =>
      if String.eqb c' c then (c, v) :: vs' else (c', v') :: set_cell c v vs'
  end.

(** [df[c] = values] for a vector of values: the lengths must agree. *)
Definition set_column (c : string) (values : vec) (df : frame) : res frame :=
  if negb (Nat.eqb (List.length values) (List.length (rows df)))
  then Raise (ValueError "Length of values does not match length of index")
  else
    Ok (mkFrame (if mem c (columns df) then columns df else (columns df ++ [c])%list)
          (map (fun rv => with_vals (fst rv) (set_cell c (snd rv) (vals (fst rv))))
               (combine (rows df) values))).

(** [x in [0, np.inf, -np.inf]] gives NaN. *)
Definition replace_se (x : float) : float :=
  if F64.eq x zero || F64.eq x F64.PInf || F64.eq x F64.NInf then NaN else x.

(** [df.c.replace(...)] in place, for the function [f] on the cells. *)
Definition map_column (c : string) (f : float -> float) (df : frame) : frame :=
  mkFrame (columns df)
          (map (fun r => with_vals r
                           (map (fun cv => if String.eqb (fst cv) c
                                           then (fst cv, f (snd cv)) else cv)
                                (vals r)))
               (rows df)).

Definition clean_chr_of (r : row) : row :=
  mkRow (snpid r) (remove_chr (chr r)) (effect_allele r) (non_effect_allele r) (vals r).

(** [load_gwas] from line 217 on: [df] is the table read from the file with
    its columns renamed, and [have_effect_size] tells whether
    ['effect_size'] is among the values of [rename_dict].  [impute] stands
    for [impute_b_from_z] on the three columns, a function from three
    vectors to two or to an exception: the statements on [load_gwas_rows]
    hold whatever it computes. *)
Definition load_gwas_rows (impute : vec -> vec -> vec -> res (vec * vec))
    (have_effect_size : bool) (df : frame) : res frame :=
  let df := mkFrame (columns df) (drop_duplicates_snpid [] (rows df)) in
  let df := mkFrame (columns df) (map clean_chr_of (rows df)) in
  do df <-
     (if have_effect_size then Ok df
      else
        do zscore <- column "zscore" df;
        do af <- column "allele_frequency" df;
        do n <- column "sample_size" df;
        do imputed <- impute zscore af n;
        do df <- set_column "effect_size" (fst imputed) df;
        set_column "effect_size_se" (snd imputed) df);
  (* some qc on gwas *)
  do _ <- column "effect_size_se" df;
  let df := map_column "effect_size_se" replace_se df in
  do _ <- column "effect_size" df;
  let df :=
    mkFrame (columns df)
      (filter (fun r => F64.notna (cell "effect_size" r)
                        && F64.notna (cell "effect_size_se" r)) (rows df)) in
  select_columns df ["effect_size"; "effect_size_se"].

Module GwasExample.

Local Open Scope R_scope.

(** Three rows with an effect size: the second repeats the snpid of the
    first, the third has the standard error 0. *)
Definition df : frame :=
  mkFrame ["effect_size"; "effect_size_se"]
    [ mkRow "rs1" "chr1" (AStr "A") (AStr "G")
            [("effect_size", Fin 2); ("effect_size_se", Fin 1)];
      mkRow "rs1" "chr1" (AStr "A") (AStr "G")
            [("effect_size", Fin 3); ("effect_size_se", Fin 1)];
      mkRow "rs2" "chr2" (AStr "C") (AStr "T")
            [("effect_size", Fin 1); ("effect_size_se", Fin 0)] ].

(** The same rows in z-score form. *)
Definition df_z : frame :=
  mkFrame ["zscore"; "allele_frequency"; "sample_size"]
    [ mkRow "rs1" "chr1" (AStr "A") (AStr "G")
            [("zscore", Fin 2); ("allele_frequency", Fin (1 / 2)); ("sample_size", Fin 2)];
      mkRow "rs1" "chr1" (AStr "A") (AStr "G")
            [("zscore", Fin 3); ("allele_frequency", Fin (1 / 2)); ("sample_size", Fin 2)];
      mkRow "rs2" "chr2" (AStr "C") (AStr "T")
            [("zscore", Fin 1); ("allele_frequency", Fin (1 / 2)); ("sample_size", Fin 0)] ].

(** An imputation that returns the z-scores as effect sizes and the
    sample sizes as standard errors. *)
Definition impute (zscore af n : vec) : res (vec * vec) := Ok (zscore, n).

End GwasExample.

Module ArgsExample.

Definition pairs : list string := ["snpid:rsid"; "chr:chrom"].

Definition cns : list (string * string) := [("snpid", "rsid"); ("chr", "chrom")].

Definition is_file (fn : string) : bool := String.eqb fn "gwas.tsv".

End ArgsExample.

(** The three steps after the imputation. *)
Definition replaced (r : row) : row :=
  with_vals r (map (fun cv => if String.eqb (fst cv) "effect_size_se"
                              then (fst cv, replace_se (snd cv)) else cv) (vals r)).

Definition usable (r : row) : bool :=
  F64.notna (cell "effect_size" r) && F64.notna (cell "effect_size_se" r).

Definition selected (r : row) : row :=
  with_vals r [("effect_size", cell "effect_size" r);
               ("effect_size_se", cell "effect_size_se" r)].


(** * Properties *)

(** C1.  On alleles that are bases (A, C, G, T) or missing, [_check_flip]
    raises nothing and returns what the ordered cascade of the
    specification returns: NaN when a value is missing, NaN when either
    pair is palindromic, then +1 on an exact match, -1 on a swapped match,
    +1 on a complement match, -1 on a complement-swap match, NaN otherwise;
    the result is one of +1, -1 and NaN. *)
Theorem check_flip_cascade :
  forall a0 a1 b0 b1 : option base,
    _check_flip (cell_of a0) (cell_of a1) (cell_of b0) (cell_of b1)
      = Ok (harmonize_spec a0 a1 b0 b1)
    /\ (harmonize_spec a0 a1 b0 b1 = Fin 1
        \/ harmonize_spec a0 a1 b0 b1 = Fin (-1)
        \/ harmonize_spec a0 a1 b0 b1 = NaN).
Proof.
  intros [[]|] [[]|] [[]|] [[]|]; split; cbv; auto.
Qed.


(** ** Arithmetic on the cells *)

Module F64Facts.

Local Open Scope R_scope.

(** Decides the comparisons of reals that a goal or a hypothesis tests. *)
Ltac rcases :=
  repeat match goal with
    | |- context [Rlt_dec ?a ?b] => destruct (Rlt_dec a b); try lra
    | |- context [Req_dec_T ?a ?b] => destruct (Req_dec_T a b); try lra
    | H : context [Rlt_dec ?a ?b] |- _ => destruct (Rlt_dec a b); try lra
    | H : context [Req_dec_T ?a ?b] |- _ => destruct (Req_dec_T a b); try lra
    end.

Lemma add_zero_zero : F64.add zero zero = zero.
Proof. unfold zero; simpl; f_equal; lra. Qed.

Lemma mul_one_r (x : float) : F64.mul x (Fin 1) = x.
Proof.
  destruct x; simpl; try reflexivity.
  - unfold F64.inf_times; rcases; reflexivity.
  - unfold F64.inf_times; rcases; reflexivity.
  - f_equal; lra.
Qed.

Lemma mul_nan_r (x : float) : F64.mul x NaN = NaN.
Proof. destruct x; reflexivity. Qed.

Lemma lt_fin (a b : R) : F64.lt (Fin a) (Fin b) = true <-> a < b.
Proof. simpl; destruct (Rlt_dec a b); split; intros; try lra; congruence. Qed.

Lemma eq_fin (a b : R) : F64.eq (Fin a) (Fin b) = true <-> a = b.
Proof. simpl; destruct (Req_dec_T a b); split; intros; try lra; congruence. Qed.

Lemma le_fin (a b : R) : F64.le (Fin a) (Fin b) = true <-> a <= b.
Proof.
  unfold F64.le; rewrite orb_true_iff, lt_fin, eq_fin; lra.
Qed.

(** The square root of a value that is not zero is not zero, and neither
    is its square. *)
Lemma sqrt_nonzero (d : float) :
  F64.eq d zero = false -> F64.eq (F64.sqrt d) zero = false.
Proof.
  unfold zero; destruct d; simpl; try reflexivity.
  intros H; rcases; simpl; try reflexivity; try discriminate.
  rcases.
  assert (0 < sqrt r) by (apply sqrt_lt_R0; lra). lra.
Qed.

Lemma pow2_sqrt_nonzero (d : float) :
  F64.eq d zero = false -> F64.eq (pow2 (F64.sqrt d)) zero = false.
Proof.
  unfold zero, pow2; destruct d; simpl; try reflexivity.
  intros H; rcases; simpl; try reflexivity; try discriminate.
  rcases.
  assert (0 < sqrt r) by (apply sqrt_lt_R0; lra). nra.
Qed.

End F64Facts.

(** ** Lists *)

Section ListFacts.

Context {X Y Z : Type}.

Lemma map2_nth_error (f : X -> Y -> Z) (x : list X) (y : list Y) (i : nat) a b :
  nth_error x i = Some a -> nth_error y i = Some b ->
  nth_error (map2 f x y) i = Some (f a b).
Proof.
  revert y i; induction x as [|x0 x IH]; intros [|y0 y] [|i]; simpl;
    try discriminate.
  - intros [= ->] [= ->]; reflexivity.
  - intros Hx Hy. apply (IH y i Hx Hy).
Qed.


Lemma count_true_zero (p : X -> bool) (l : list X) :
  count_true (map p l) = 0%nat <-> forall a, In a l -> p a = false.
Proof.
  unfold count_true. induction l as [|a l IH]; simpl.
  - split; [intros _ ? []|reflexivity].
  - destruct (p a) eqn:E; simpl.
    + split; [discriminate|]. intros H. specialize (H a (or_introl eq_refl)). congruence.
    + rewrite IH. split.
      * intros H b [<-|Hb]; auto.
      * intros H b Hb. apply H. now right.
Qed.

Lemma count_true_pos (p : X -> bool) (l : list X) :
  Nat.ltb 0 (count_true (map p l)) = true <-> exists a, In a l /\ p a = true.
Proof.
  unfold count_true. induction l as [|a l IH]; simpl.
  - split; [discriminate|]. intros (a & [] & _).
  - destruct (p a) eqn:E; simpl.
    + split; [|reflexivity]. intros _. exists a. auto.
    + rewrite IH. split.
      * intros (b & Hb & Hp). exists b. auto.
      * intros (b & [<-|Hb] & Hp); [congruence|]. exists b. auto.
Qed.

End ListFacts.

Lemma map2_length {X Y Z : Type} (f : X -> Y -> Z) (x : list X) (y : list Y) (n : nat) :
  List.length x = n -> List.length y = n -> List.length (map2 f x y) = n.
Proof.
  intros Hx Hy. unfold map2. rewrite length_map, length_combine. lia.
Qed.

Lemma map2_nth {X Y Z : Type} (f : X -> Y -> Z) (x : list X) (y : list Y)
    (j : nat) (dx : X) (dy : Y) (d : Z) :
  (j < List.length x)%nat -> (j < List.length y)%nat ->
  nth j (map2 f x y) d = f (nth j x dx) (nth j y dy).
Proof.
  intros Hx Hy. apply nth_error_nth.
  apply map2_nth_error; now apply nth_error_nth'.
Qed.


(** ** Imputation of the effect size from the z-score *)

Lemma impute_raises_iff (zscore af n : list B64.float) :
  (exists e, impute_b_from_z zscore af n = Raise e) <-> bad_input af n.
Proof.
  unfold impute_b_from_z, bad_input.
  destruct (Nat.ltb 0 (count_true (map (fun x => B64.lt x B64.zero) n))) eqn:En.
  - split; [|eauto]. intros _. left. now apply count_true_pos in En.
  - destruct (Nat.eqb (count_true (map (fun a => B64.ge a B64.one) af)) 0) eqn:E1;
      destruct (Nat.eqb (count_true (map (fun a => B64.le a B64.zero) af)) 0) eqn:E2;
      cbn [negb orb].
    + split; [intros [e He]; discriminate|].
      apply Nat.eqb_eq in E1, E2.
      rewrite count_true_zero in E1, E2.
      intros [(x & Hx & Hlt)|(a & Ha & [Hge|Hle])].
      * assert (Nat.ltb 0 (count_true (map (fun x => B64.lt x B64.zero) n)) = true)
          by (apply count_true_pos; eauto).
        congruence.
      * rewrite (E1 a Ha) in Hge. discriminate.
      * rewrite (E2 a Ha) in Hle. discriminate.
    + split; [|eauto]. intros _. right.
      apply Nat.eqb_neq in E2.
      assert (H : Nat.ltb 0 (count_true (map (fun a => B64.le a B64.zero) af)) = true)
        by (apply Nat.ltb_lt; lia).
      apply count_true_pos in H. destruct H as (a & Ha & Hp). eauto.
    + split; [|eauto]. intros _. right.
      apply Nat.eqb_neq in E1.
      assert (H : Nat.ltb 0 (count_true (map (fun a => B64.ge a B64.one) af)) = true)
        by (apply Nat.ltb_lt; lia).
      apply count_true_pos in H. destruct H as (a & Ha & Hp). eauto.
    + split; [|eauto]. intros _. right.
      apply Nat.eqb_neq in E1.
      assert (H : Nat.ltb 0 (count_true (map (fun a => B64.ge a B64.one) af)) = true)
        by (apply Nat.ltb_lt; lia).
      apply count_true_pos in H. destruct H as (a & Ha & Hp). eauto.
Qed.

Lemma impute_returns (zscore af n : list B64.float) :
  ~ bad_input af n ->
  impute_b_from_z zscore af n
  = Ok (map2 B64.mul zscore (map2 se_of n af), map2 se_of n af).
Proof.
  intros Hok.
  destruct (impute_b_from_z zscore af n) as [[b s]|e] eqn:E.
  - unfold impute_b_from_z in E.
    destruct (Nat.ltb 0 _); [discriminate|].
    destruct (_ || _); [discriminate|].
    inversion E; reflexivity.
  - exfalso. apply Hok. apply (impute_raises_iff zscore). eauto.
Qed.

(** C8, as amended.  On three columns of one length [impute_b_from_z]
    raises exactly when a sample size is below zero or an allele frequency
    is at most 0 or at least 1; otherwise it returns, for every SNP,
    [se = 1 / sqrt(2 * n * af * (1 - af))] and [bhat = zscore * se], computed
    in binary64; and in the example of the specification (z = 2.0,
    af = 0.3, n = 10000) the quotient [bhat / se] is the double 2.0. *)
Theorem impute_b_from_z_values :
  forall zscore af n : list B64.float,
    List.length zscore = List.length n ->
    List.length af = List.length n ->
    ((exists e, impute_b_from_z zscore af n = Raise e) <-> bad_input af n)
    /\ (~ bad_input af n ->
        exists bhat se,
          impute_b_from_z zscore af n = Ok (bhat, se)
          /\ List.length bhat = List.length n
          /\ List.length se = List.length n
          /\ forall i zi ai ni,
               nth_error zscore i = Some zi ->
               nth_error af i = Some ai ->
               nth_error n i = Some ni ->
               let sei :=
                 B64.div B64.one
                   (B64.sqrt (B64.mul (B64.mul (B64.mul B64.two ni) ai)
                                      (B64.sub B64.one ai))) in
               nth_error se i = Some sei
               /\ nth_error bhat i = Some (B64.mul zi sei))
    /\ exists b s,
         impute_b_from_z ImputeExample.zscore ImputeExample.af ImputeExample.n
         = Ok ([b], [s])
         /\ B64.div b s = B64.two.
Proof.
  intros zscore af n Hz Ha. split; [apply impute_raises_iff|]. split.
  - intros Hok. rewrite (impute_returns zscore af n Hok).
    eexists. eexists. split; [reflexivity|].
    assert (Hse : List.length (map2 se_of n af) = List.length n)
      by (apply map2_length; [reflexivity|assumption]).
    split; [now apply map2_length|]. split; [exact Hse|].
    intros i zi ai ni Hzi Hai Hni sei.
    change sei with (se_of ni ai).
    assert (Hsei : nth_error (map2 se_of n af) i = Some (se_of ni ai))
      by now apply map2_nth_error.
    split; [exact Hsei|]. now apply map2_nth_error.
  - eexists. eexists. split; vm_compute; reflexivity.
Qed.

(** The example of the specification: nothing is raised. *)
Lemma impute_b_from_z_values_example :
  exists bhat se,
    impute_b_from_z ImputeExample.zscore ImputeExample.af ImputeExample.n = Ok (bhat, se)
    /\ List.length se = 1%nat.
Proof.
  assert (Hok : ~ bad_input ImputeExample.af ImputeExample.n).
  { intros [(x & [<-|[]] & H)|(a & [<-|[]] & [H|H])]; vm_compute in H; discriminate. }
  destruct (impute_b_from_z_values ImputeExample.zscore ImputeExample.af ImputeExample.n)
    as (_ & Hret & _); [reflexivity|reflexivity|].
  destruct (Hret Hok) as (bhat & se & Hr & _ & Hs & _).
  exists bhat, se. split; assumption.
Defined.

(** C8, as stated, fails.  With the sample size 0 nothing is raised, the
    standard error and the effect size are infinite and [bhat / se] is
    NaN; and with a positive sample size the quotient need not be the
    z-score either: for z = 3.0, af = 0.3 and n = 10000 it is not 3.0. *)
Lemma impute_b_from_z_roundtrip_fails :
  impute_b_from_z ImputeExample.zscore ImputeExample.af ImputeExample.n0
  = Ok ([B64.inf], [B64.inf])
  /\ B64.isnan (B64.div B64.inf B64.inf) = true
  /\ exists b s,
       impute_b_from_z ImputeExample.zscore3 ImputeExample.af ImputeExample.n
       = Ok ([b], [s])
       /\ B64.eq (B64.div b s) ImputeExample.three = false.
Proof.
  split; [vm_compute; reflexivity|]. split; [vm_compute; reflexivity|].
  eexists. eexists. split; vm_compute; reflexivity.
Qed.

(** ** Genomic control *)




(** ** Accumulation over the chromosomes *)

Lemma loop_from (contribs : nat -> option accum) (order : list nat) (a : accum) :
  fold_left (chr_step (fun i => Ok (contribs i))) order (Ok a)
  = Ok (fold_left accumulate (parts_of contribs order) a).
Proof.
  revert a; induction order as [|i order IH]; intros a; simpl; [reflexivity|].
  destruct (contribs i); simpl; apply IH.
Qed.

Lemma chromosome_loop_sum (nidp : nat) (contribs : nat -> option accum) (order : list nat) :
  chromosome_loop nidp (fun i => Ok (contribs i)) order
  = Ok (fold_left accumulate (parts_of contribs order) (accum_zeros nidp)).
Proof. apply loop_from. Qed.

(** *** Folds of elementwise sums *)

Lemma fold_map2_length {X : Type} (f : X -> X -> X) (n : nat) (vs : list (list X)) :
  Forall (fun v => List.length v = n) vs ->
  forall v0, List.length v0 = n -> List.length (fold_left (map2 f) vs v0) = n.
Proof.
  induction 1 as [|v vs Hv Hvs IH]; intros v0 H0; simpl; [assumption|].
  apply IH. now apply map2_length.
Qed.

(** Entry [j] of a fold of elementwise sums is the fold of the entries. *)
Lemma fold_map2_nth {X : Type} (f : X -> X -> X) (d : X) (n j : nat)
    (vs : list (list X)) :
  (j < n)%nat ->
  Forall (fun v => List.length v = n) vs ->
  forall v0, List.length v0 = n ->
             nth j (fold_left (map2 f) vs v0) d
             = fold_left f (map (fun v => nth j v d) vs) (nth j v0 d).
Proof.
  intros Hj. induction 1 as [|v vs Hv Hvs IH]; intros v0 H0; simpl; [reflexivity|].
  rewrite IH by now apply map2_length.
  f_equal. apply map2_nth; lia.
Qed.

Lemma nth_repeat_lt {X : Type} (a d : X) (n j : nat) :
  (j < n)%nat -> nth j (repeat a n) d = a.
Proof.
  revert j; induction n as [|n IH]; intros [|j] Hj; simpl; try lia; [reflexivity|].
  apply IH. lia.
Qed.

Lemma fold_add_start (l : list Z) (a : Z) :
  fold_left Z.add l a = (a + fold_left Z.add l 0)%Z.
Proof.
  revert a; induction l as [|x l IH]; intros a; simpl; [lia|].
  rewrite (IH (a + x)%Z), (IH x). lia.
Qed.

Lemma count_sum_perm (l l' : list Z) :
  Permutation l l' -> Binary64.count_sum l = Binary64.count_sum l'.
Proof.
  unfold Binary64.count_sum. intros H. generalize 0%Z.
  induction H as [|x l l' H IH|x y l|l l' l'' H1 IH1 H2 IH2]; intros a; simpl.
  - reflexivity.
  - apply IH.
  - f_equal. lia.
  - now rewrite IH1.
Qed.

Lemma count_sum_app (l l' : list Z) :
  Binary64.count_sum (l ++ l') = (Binary64.count_sum l + Binary64.count_sum l')%Z.
Proof.
  unfold Binary64.count_sum. rewrite fold_left_app. apply fold_add_start.
Qed.

Lemma count_sum_concat {X : Type} (h : X -> Z) (ls : list (list X)) :
  Binary64.count_sum (map (fun l => Binary64.count_sum (map h l)) ls)
  = Binary64.count_sum (map h (List.concat ls)).
Proof.
  induction ls as [|l ls IH]; [reflexivity|].
  cbn [map List.concat]. rewrite map_app, count_sum_app, <- IH.
  unfold Binary64.count_sum. cbn [fold_left].
  rewrite (fold_add_start _ (0 + _)%Z). lia.
Qed.

(** *** The loop in binary64 *)

Lemma rounded_loop_from (contribs : nat -> option Binary64.accum) (order : list nat)
    (a : Binary64.accum) :
  fold_left (Binary64.chr_step (fun i => Ok (contribs i))) order (Ok a)
  = Ok (fold_left Binary64.accumulate (Binary64.parts_of contribs order) a).
Proof.
  revert a; induction order as [|i order IH]; intros a; simpl; [reflexivity|].
  destruct (contribs i); simpl; apply IH.
Qed.

Lemma rounded_parts_perm (contribs : nat -> option Binary64.accum) (o1 o2 : list nat) :
  Permutation o1 o2 ->
  Permutation (Binary64.parts_of contribs o1) (Binary64.parts_of contribs o2).
Proof.
  induction 1; simpl.
  - constructor.
  - destruct (contribs x); [now constructor|assumption].
  - destruct (contribs x), (contribs y); try apply Permutation_refl.
    apply perm_swap.
  - eapply Permutation_trans; eauto.
Qed.

Lemma rounded_parts_concat (contribs : nat -> option Binary64.accum)
    (blocks : list (list nat)) :
  Binary64.parts_of contribs (List.concat blocks)
  = List.concat (map (Binary64.parts_of contribs) blocks).
Proof.
  induction blocks as [|b blocks IH]; [reflexivity|].
  cbn [List.concat map]. rewrite <- IH. clear IH.
  induction b as [|i b IHb]; [reflexivity|]. cbn [app Binary64.parts_of].
  destruct (contribs i); cbn [app]; now rewrite IHb.
Qed.

Lemma rounded_parts_shaped (n : nat) (contribs : nat -> option Binary64.accum)
    (order : list nat) :
  (forall i c, contribs i = Some c -> Binary64.shaped n c) ->
  Forall (Binary64.shaped n) (Binary64.parts_of contribs order).
Proof.
  intros H. induction order as [|i order IH]; simpl; [constructor|].
  destruct (contribs i) eqn:E; [constructor; eauto|assumption].
Qed.

(** The fields of a fold of [accumulate] are folds of elementwise sums. *)
Lemma rounded_fold_fields (ps : list Binary64.accum) :
  forall a,
    Binary64.D (fold_left Binary64.accumulate ps a)
    = fold_left (map2 (map2 B64.add)) (map Binary64.D ps) (Binary64.D a)
    /\ Binary64.numer_b (fold_left Binary64.accumulate ps a)
       = fold_left (map2 B64.add) (map Binary64.numer_b ps) (Binary64.numer_b a)
    /\ Binary64.numer_z (fold_left Binary64.accumulate ps a)
       = fold_left (map2 B64.add) (map Binary64.numer_z ps) (Binary64.numer_z a)
    /\ Binary64.nsnp_used (fold_left Binary64.accumulate ps a)
       = fold_left (map2 Z.add) (map Binary64.nsnp_used ps) (Binary64.nsnp_used a).
Proof.
  induction ps as [|p ps IH]; intros a; simpl; [repeat split|].
  apply (IH (Binary64.accumulate a p)).
Qed.

Lemma shaped_parts_fields (n : nat) (ps : list Binary64.accum) :
  Forall (Binary64.shaped n) ps ->
  Forall (fun m => List.length m = n) (map Binary64.D ps)
  /\ Forall (fun v => List.length v = n) (map Binary64.numer_b ps)
  /\ Forall (fun v => List.length v = n) (map Binary64.numer_z ps)
  /\ Forall (fun v => List.length v = n) (map Binary64.nsnp_used ps)
  /\ forall j, (j < n)%nat ->
               Forall (fun r => List.length r = n)
                      (map (fun m => nth j m []) (map Binary64.D ps)).
Proof.
  intros H. rewrite Forall_forall in H.
  split; [|split; [|split; [|split]]].
  - apply Forall_forall. intros m Hm. apply in_map_iff in Hm as (p & <- & Hp).
    apply (H p Hp).
  - apply Forall_forall. intros m Hm. apply in_map_iff in Hm as (p & <- & Hp).
    apply (H p Hp).
  - apply Forall_forall. intros m Hm. apply in_map_iff in Hm as (p & <- & Hp).
    apply (H p Hp).
  - apply Forall_forall. intros m Hm. apply in_map_iff in Hm as (p & <- & Hp).
    apply (H p Hp).
  - intros j Hj. apply Forall_forall. intros r Hr.
    apply in_map_iff in Hr as (m & <- & Hm).
    apply in_map_iff in Hm as (p & <- & Hp).
    destruct (H p Hp) as (Hlen & Hrows & _).
    rewrite Forall_forall in Hrows. apply Hrows. apply nth_In. lia.
Qed.

(** The accumulators after the parts [ps], from zero: their shape, and
    every entry as the sum of the entries of the parts, from the left. *)
Lemma rounded_fold_entries (n : nat) (ps : list Binary64.accum) :
  Forall (Binary64.shaped n) ps ->
  let a := fold_left Binary64.accumulate ps (Binary64.accum_zeros n) in
  Binary64.shaped n a
  /\ (forall j k, (j < n)%nat -> (k < n)%nat ->
        Binary64.entry j k (Binary64.D a)
        = Binary64.sum_left (map (fun p => Binary64.entry j k (Binary64.D p)) ps))
  /\ (forall j, (j < n)%nat ->
        nth j (Binary64.numer_b a) B64.nan
        = Binary64.sum_left (map (fun p => nth j (Binary64.numer_b p) B64.nan) ps)
        /\ nth j (Binary64.numer_z a) B64.nan
           = Binary64.sum_left (map (fun p => nth j (Binary64.numer_z p) B64.nan) ps)
        /\ nth j (Binary64.nsnp_used a) 0%Z
           = Binary64.count_sum (map (fun p => nth j (Binary64.nsnp_used p) 0%Z) ps)).
Proof.
  intros Hps a.
  destruct (rounded_fold_fields ps (Binary64.accum_zeros n)) as (HD & Hb & Hz & Hn).
  fold a in HD, Hb, Hz, Hn.
  destruct (shaped_parts_fields n ps Hps) as (FD & Fb & Fz & Fn & Frows).
  cbn [Binary64.accum_zeros Binary64.D Binary64.numer_b Binary64.numer_z
       Binary64.nsnp_used] in HD, Hb, Hz, Hn.
  assert (Hrow : forall j, (j < n)%nat ->
            nth j (Binary64.D a) []
            = fold_left (map2 B64.add) (map (fun m => nth j m []) (map Binary64.D ps))
                        (repeat B64.zero n)).
  { intros j Hj. rewrite HD.
    rewrite (fold_map2_nth (map2 B64.add) [] n j) by
      (try assumption; apply repeat_length).
    now rewrite nth_repeat_lt. }
  split; [|split].
  - unfold Binary64.shaped. rewrite HD, Hb, Hz, Hn.
    split; [apply fold_map2_length; [assumption|apply repeat_length]|].
    split.
    + apply Forall_forall. intros r Hr.
      apply In_nth with (d := []) in Hr as (j & Hj & <-).
      rewrite (fold_map2_length (map2 B64.add) n) in Hj
        by (try assumption; apply repeat_length).
      rewrite <- HD, (Hrow j Hj).
      apply fold_map2_length; [now apply Frows|apply repeat_length].
    + repeat split; apply fold_map2_length; try assumption; apply repeat_length.
  - intros j k Hj Hk. unfold Binary64.entry, Binary64.sum_left.
    rewrite (Hrow j Hj).
    rewrite (fold_map2_nth B64.add B64.nan n k)
      by (first [assumption|now apply Frows|apply repeat_length]).
    rewrite nth_repeat_lt by assumption. now rewrite !map_map.
  - intros j Hj. unfold Binary64.sum_left, Binary64.count_sum.
    rewrite Hb, Hz, Hn.
    rewrite (fold_map2_nth B64.add B64.nan n j)
      by (try assumption; apply repeat_length).
    rewrite (fold_map2_nth B64.add B64.nan n j (map Binary64.numer_z ps))
      by (try assumption; apply repeat_length).
    rewrite (fold_map2_nth Z.add 0%Z n j)
      by (try assumption; apply repeat_length).
    rewrite !nth_repeat_lt by assumption. now rewrite !map_map.
Qed.

(** The counts of two runs whose parts are the same up to their order. *)
Lemma rounded_counts_perm (n : nat) (ps qs : list Binary64.accum) :
  Forall (Binary64.shaped n) ps -> Permutation ps qs ->
  Binary64.nsnp_used (fold_left Binary64.accumulate qs (Binary64.accum_zeros n))
  = Binary64.nsnp_used (fold_left Binary64.accumulate ps (Binary64.accum_zeros n)).
Proof.
  intros Hps Hperm.
  assert (Hqs : Forall (Binary64.shaped n) qs).
  { rewrite Forall_forall in *. intros q Hq. apply Hps.
    eapply Permutation_in; [apply Permutation_sym; eassumption|assumption]. }
  destruct (rounded_fold_entries n ps Hps) as ((_ & _ & _ & _ & Lp) & _ & Ep).
  destruct (rounded_fold_entries n qs Hqs) as ((_ & _ & _ & _ & Lq) & _ & Eq).
  apply (nth_ext _ _ 0%Z 0%Z); [now rewrite Lp, Lq|].
  intros j Hj. rewrite Lq in Hj.
  destruct (Ep j Hj) as (_ & _ & ->). destruct (Eq j Hj) as (_ & _ & ->).
  apply count_sum_perm, Permutation_map, Permutation_sym, Hperm.
Qed.

(** C4, as amended.  For parts of the shape of [nidp] IDPs, whatever
    their numbers: the loop over the chromosomes 1..22 returns
    accumulators of that shape, in which every entry of [D], [numer_b] and
    [numer_z] is the binary64 sum, from zero and from the left in the
    order 1..22, of the entries of the parts, and every count of
    [nsnp_used] the integer sum; the counts are those of the run in any
    other order of the chromosomes, and of the reduction of the partial
    results of any split of the chromosomes into blocks. *)
Theorem chromosome_accumulation_left_to_right :
  forall (nidp : nat) (contribs : nat -> option Binary64.accum) (order : list nat)
         (blocks : list (list nat)),
    (forall i c, contribs i = Some c -> Binary64.shaped nidp c) ->
    Permutation order chromosomes ->
    Permutation (List.concat blocks) chromosomes ->
    let body := fun i => Ok (contribs i) in
    let parts := Binary64.parts_of contribs chromosomes in
    exists a,
      Binary64.chromosome_loop nidp body chromosomes = Ok a
      /\ Binary64.shaped nidp a
      /\ (forall j k, (j < nidp)%nat -> (k < nidp)%nat ->
            Binary64.entry j k (Binary64.D a)
            = Binary64.sum_left (map (fun p => Binary64.entry j k (Binary64.D p)) parts))
      /\ (forall j, (j < nidp)%nat ->
            nth j (Binary64.numer_b a) B64.nan
            = Binary64.sum_left (map (fun p => nth j (Binary64.numer_b p) B64.nan) parts)
            /\ nth j (Binary64.numer_z a) B64.nan
               = Binary64.sum_left
                   (map (fun p => nth j (Binary64.numer_z p) B64.nan) parts)
            /\ nth j (Binary64.nsnp_used a) 0%Z
               = Binary64.count_sum
                   (map (fun p => nth j (Binary64.nsnp_used p) 0%Z) parts))
      /\ (exists a',
            Binary64.chromosome_loop nidp body order = Ok a'
            /\ Binary64.nsnp_used a' = Binary64.nsnp_used a)
      /\ exists partial : list Binary64.accum,
           Forall2 (fun b p => Binary64.chromosome_loop nidp body b = Ok p) blocks partial
           /\ Binary64.nsnp_used (Binary64.reduce_blocks nidp partial)
              = Binary64.nsnp_used a.
Proof.
  intros nidp contribs order blocks Hshape Horder Hblocks body parts.
  assert (Hparts : Forall (Binary64.shaped nidp) parts)
    by now apply rounded_parts_shaped.
  exists (fold_left Binary64.accumulate parts (Binary64.accum_zeros nidp)).
  destruct (rounded_fold_entries nidp parts Hparts) as (Hs & HD & Hv).
  split; [apply rounded_loop_from|]. split; [exact Hs|]. split; [exact HD|].
  split; [exact Hv|]. split.
  - exists (fold_left Binary64.accumulate (Binary64.parts_of contribs order)
              (Binary64.accum_zeros nidp)).
    split; [apply rounded_loop_from|].
    apply rounded_counts_perm; [assumption|].
    apply Permutation_sym, rounded_parts_perm, Horder.
  - set (part_of := fun b => fold_left Binary64.accumulate (Binary64.parts_of contribs b)
                              (Binary64.accum_zeros nidp)).
    exists (map part_of blocks). split.
    + clear Hblocks. induction blocks as [|b blocks IH]; simpl; constructor.
      * apply rounded_loop_from.
      * exact IH.
    + assert (Hpartial : Forall (Binary64.shaped nidp) (map part_of blocks)).
      { apply Forall_forall. intros p Hp. apply in_map_iff in Hp as (b & <- & _).
        exact (proj1 (rounded_fold_entries nidp (Binary64.parts_of contribs b)
                        (rounded_parts_shaped nidp contribs b Hshape))). }
      unfold Binary64.reduce_blocks.
      destruct (rounded_fold_entries nidp _ Hpartial) as ((_ & _ & _ & _ & Lr) & _ & Er).
      destruct Hs as (_ & _ & _ & _ & La).
      apply (nth_ext _ _ 0%Z 0%Z); [now rewrite Lr, La|].
      intros j Hj. rewrite Lr in Hj.
      destruct (Er j Hj) as (_ & _ & ->). destruct (Hv j Hj) as (_ & _ & ->).
      rewrite map_map.
      transitivity (Binary64.count_sum
                      (map (fun b => Binary64.count_sum
                                       (map (fun p => nth j (Binary64.nsnp_used p) 0%Z)
                                            (Binary64.parts_of contribs b))) blocks)).
      * f_equal. apply map_ext_in. intros b _. unfold part_of.
        destruct (rounded_fold_entries nidp (Binary64.parts_of contribs b)
                    (rounded_parts_shaped nidp contribs b Hshape)) as (_ & _ & Eb).
        now destruct (Eb j Hj) as (_ & _ & ->).
      * rewrite <- (map_map (Binary64.parts_of contribs)
                            (fun ps => Binary64.count_sum
                                         (map (fun p => nth j (Binary64.nsnp_used p) 0%Z)
                                              ps))).
        rewrite count_sum_concat, <- rounded_parts_concat.
        apply count_sum_perm, Permutation_map, rounded_parts_perm, Hblocks.
Qed.

(** Chromosomes 1, 2 and 3 contribute 0.1, 0.2 and 0.3: the counts of the
    run that takes them in reverse are those of the run in order. *)
Lemma chromosome_accumulation_left_to_right_example :
  exists a a',
    Binary64.chromosome_loop 1 (fun i => Ok (OrderExample.contribs i)) chromosomes = Ok a
    /\ Binary64.chromosome_loop 1 (fun i => Ok (OrderExample.contribs i))
         OrderExample.order = Ok a'
    /\ Binary64.nsnp_used a' = Binary64.nsnp_used a.
Proof.
  destruct (chromosome_accumulation_left_to_right 1 OrderExample.contribs
              OrderExample.order [[1; 2]; seq 3 20]%nat)
    as (a & Ha & _ & _ & _ & (a' & Ha' & Hn) & _).
  - intros i c Hc.
    destruct i as [|[|[|[|i]]]]; simpl in Hc; try discriminate;
      inversion Hc; repeat split; repeat constructor.
  - exact (Permutation_app_tail (seq 4 19)
             (Permutation_sym (Permutation_rev [1; 2; 3]%nat))).
  - apply Permutation_refl.
  - exists a, a'. repeat split; assumption.
Defined.

(** C4, as stated, fails: with the parts 0.1, 0.2 and 0.3 of chromosomes
    1, 2 and 3 the run in the order 1..22 accumulates 0.6000000000000001,
    and the run that takes the three in reverse accumulates 0.6. *)
Lemma chromosome_order_changes_float_sums :
  Permutation OrderExample.order chromosomes
  /\ Binary64.chromosome_loop 1 (fun i => Ok (OrderExample.contribs i)) chromosomes
     = Ok (Binary64.mkAccum [[OrderExample.forward]] [OrderExample.forward]
             [OrderExample.forward] [3%Z])
  /\ Binary64.chromosome_loop 1 (fun i => Ok (OrderExample.contribs i)) OrderExample.order
     = Ok (Binary64.mkAccum [[OrderExample.backward]] [OrderExample.backward]
             [OrderExample.backward] [3%Z])
  /\ B64.eq OrderExample.forward OrderExample.backward = false.
Proof.
  split.
  - exact (Permutation_app_tail (seq 4 19)
             (Permutation_sym (Permutation_rev [1; 2; 3]%nat))).
  - repeat split; vm_compute; reflexivity.
Qed.

(** ** Boolean masks *)

Section MaskFacts.

Context {X : Type}.

Lemma filter_map_S (f : nat -> bool) (l : list nat) :
  filter f (map S l) = map S (filter (fun i => f (S i)) l).
Proof.
  induction l as [|i l IH]; simpl; [reflexivity|].
  destruct (f (S i)); simpl; now rewrite IH.
Qed.

Lemma true_indices_cons (b : bool) (ks : list bool) :
  true_indices (b :: ks)
  = ((if b then [0%nat] else []) ++ map S (true_indices ks))%list.
Proof.
  unfold true_indices. simpl List.length. rewrite <- cons_seq, <- seq_shift.
  simpl filter. rewrite filter_map_S. simpl. now destruct b.
Qed.

Lemma true_indices_spec (keep : list bool) (i : nat) :
  In i (true_indices keep) <-> nth i keep false = true.
Proof.
  unfold true_indices. rewrite filter_In, in_seq. split; [tauto|].
  intros H. split; [|assumption]. split; [lia|]. simpl.
  destruct (Nat.lt_ge_cases i (List.length keep)) as [|Hge]; [assumption|].
  rewrite nth_overflow in H by assumption. discriminate.
Qed.

Lemma mask_indices (d : X) (keep : list bool) :
  forall x : list X,
    List.length x = List.length keep ->
    mask x keep = map (fun i => nth i x d) (true_indices keep).
Proof.
  induction keep as [|b ks IH]; intros [|a x] Hlen; simpl in Hlen; try discriminate.
  - reflexivity.
  - rewrite true_indices_cons, map_app, map_map. simpl.
    rewrite (IH x) by lia. now destruct b.
Qed.

Lemma mask_filter (p : X -> bool) (x : list X) : mask x (map p x) = filter p x.
Proof.
  induction x as [|a x IH]; simpl; [reflexivity|].
  now rewrite IH.
Qed.

Lemma nth_map_lt {Y : Type} (f : X -> Y) (l : list X) (t : nat) (d : Y) (d0 : X) :
  (t < List.length l)%nat -> nth t (map f l) d = f (nth t l d0).
Proof.
  intros Ht. rewrite (nth_indep _ d (f d0)) by (rewrite length_map; lia).
  apply map_nth.
Qed.

End MaskFacts.

Lemma nth_map_seq {Y : Type} (h : nat -> Y) (k t : nat) (d : Y) :
  (t < k)%nat -> nth t (map h (seq 0 k)) d = h t.
Proof.
  intros Ht. rewrite (nth_map_lt h (seq 0 k) t d 0%nat) by (rewrite length_seq; lia).
  now rewrite seq_nth.
Qed.

(** ** Shapes *)

Lemma map2_Forall {X Y Z : Type} (f : X -> Y -> Z) (P : X -> Prop) (Q : Y -> Prop)
    (R : Z -> Prop) (x : list X) (y : list Y) :
  (forall a b, P a -> Q b -> R (f a b)) ->
  Forall P x -> Forall Q y -> Forall R (map2 f x y).
Proof.
  intros Hf Hx. revert y. unfold map2.
  induction Hx as [|a x Ha Hx IH]; intros [|b y] Hy; simpl; try constructor.
  - inversion Hy; subst. auto.
  - inversion Hy; subst. auto.
Qed.

Lemma square_zeros (n : nat) : square n (D (accum_zeros n)).
Proof.
  split; simpl.
  - apply repeat_length.
  - apply Forall_forall. intros r Hr. apply repeat_spec in Hr. subst.
    apply repeat_length.
Qed.

Lemma square_add (n : nat) (a b : matrix) :
  square n a -> square n b -> square n (map2 (map2 F64.add) a b).
Proof.
  intros [La Fa] [Lb Fb]. split.
  - now apply map2_length.
  - eapply map2_Forall; [|exact Fa|exact Fb].
    intros r s Hr Hs. simpl in *. now apply map2_length.
Qed.

Lemma square_matmul (n : nat) (a b : matrix) :
  List.length a = n -> square n (matmul n a b).
Proof.
  intros La. split.
  - unfold matmul. now rewrite length_map.
  - unfold matmul. apply Forall_forall. intros r Hr.
    apply in_map_iff in Hr as (r0 & <- & _). now rewrite length_map, length_seq.
Qed.

Lemma square_numbers (nidp : nat) (c : chr_input) : square nidp (D (numbers_of nidp c)).
Proof.
  unfold numbers_of, chr_numbers, eval_matmul_on_left. simpl.
  apply square_matmul. unfold transpose. now rewrite length_map, length_seq.
Qed.

(** The diagonal of a matrix masked on both axes is the masked diagonal. *)
Lemma diagonal_mask (n : nat) (m : matrix) (keep : list bool) :
  square n m -> List.length keep = n ->
  diagonal (mask (map (fun r => mask r keep) m) keep) = mask (diagonal m) keep.
Proof.
  intros [Lm Fm] Lk.
  assert (Hidx : forall i, In i (true_indices keep) -> (i < n)%nat).
  { intros i Hi. unfold true_indices in Hi. apply filter_In in Hi as [Hi _].
    apply in_seq in Hi. lia. }
  rewrite (mask_indices [] keep) by (rewrite length_map; lia).
  rewrite (mask_indices NaN keep (diagonal m))
    by (unfold diagonal; rewrite length_map, length_seq; lia).
  set (idx := true_indices keep) in *.
  assert (Hrows : map (fun i => nth i (map (fun r => mask r keep) m) []) idx
                  = map (fun i => map (fun j => nth j (nth i m []) NaN) idx) idx).
  { apply map_ext_in. intros i Hi.
    rewrite (nth_map_lt (fun r => mask r keep) m i [] []) by (specialize (Hidx i Hi); lia).
    apply mask_indices.
    rewrite Forall_forall in Fm. rewrite (Fm (nth i m [])); [lia|].
    apply nth_In. specialize (Hidx i Hi). lia. }
  rewrite Hrows. clear Hrows.
  unfold diagonal at 1. rewrite length_map.
  apply nth_ext with (d := NaN) (d' := NaN).
  - now rewrite !length_map, length_seq.
  - intros t Ht. rewrite length_map, length_seq in Ht.
    rewrite nth_map_seq by assumption.
    rewrite (nth_map_lt _ idx t [] 0%nat) by assumption.
    rewrite (nth_map_lt _ idx t NaN 0%nat) by assumption.
    rewrite (nth_map_lt _ idx t NaN 0%nat) by assumption.
    unfold diagonal. rewrite nth_map_seq; [reflexivity|].
    rewrite Lm. apply Hidx. now apply nth_In.
Qed.

(** ** An IDP without weights *)

Lemma sum_zeros (v : vec) : Forall (fun x => x = zero) v -> sum v = zero.
Proof.
  unfold sum. intros H. induction H as [|x v -> _ IH]; cbn [fold_left];
    [reflexivity|].
  now rewrite F64Facts.add_zero_zero.
Qed.

Lemma dot_zero_r (u v : vec) :
  Forall is_finite u -> Forall (fun x => x = zero) v -> dot u v = zero.
Proof.
  intros Hu Hv. apply sum_zeros.
  eapply map2_Forall; [|exact Hu|exact Hv].
  intros a b [r ->] ->. unfold zero. simpl. f_equal. lra.
Qed.

Lemma zeros_finite (v : vec) : Forall (fun x => x = zero) v -> Forall is_finite v.
Proof.
  apply Forall_impl. intros x ->. now exists 0%R.
Qed.

Lemma diag_entry_accumulate (n j : nat) (a b : accum) :
  (j < n)%nat -> square n (D a) -> square n (D b) ->
  diag_entry j (accumulate a b) = F64.add (diag_entry j a) (diag_entry j b).
Proof.
  intros Hj [La Fa] [Lb Fb]. unfold diag_entry, accumulate. simpl.
  rewrite (map2_nth _ (D a) (D b) j [] [] []) by lia.
  rewrite Forall_forall in Fa, Fb.
  apply map2_nth.
  - rewrite (Fa (nth j (D a) [])); [lia|]. apply nth_In. lia.
  - rewrite (Fb (nth j (D b) [])); [lia|]. apply nth_In. lia.
Qed.

Lemma fold_diag_entry_zero (n j : nat) (ps : list accum) :
  (j < n)%nat ->
  Forall (fun p => square n (D p)) ps ->
  forall a,
    square n (D a) ->
    Forall (fun p => diag_entry j p = zero) ps -> diag_entry j a = zero ->
    diag_entry j (fold_left accumulate ps a) = zero.
Proof.
  intros Hj Hsq. induction Hsq as [|p ps Hp Hps IH]; intros a Ha Hz Haz; simpl.
  - assumption.
  - inversion Hz; subst. apply IH; [|assumption|].
    + unfold accumulate. simpl. now apply square_add.
    + rewrite (diag_entry_accumulate n) by assumption.
      rewrite Haz. replace (diag_entry j p) with zero by (symmetry; assumption).
      apply F64Facts.add_zero_zero.
Qed.

Lemma fold_square (n : nat) (ps : list accum) :
  Forall (fun p => square n (D p)) ps ->
  forall a, square n (D a) -> square n (D (fold_left accumulate ps a)).
Proof.
  induction 1 as [|p ps Hp Hps IH]; intros a Ha; simpl; [assumption|].
  apply IH. unfold accumulate. simpl. now apply square_add.
Qed.

Lemma parts_of_In (contribs : nat -> option accum) (order : list nat) (p : accum) :
  In p (parts_of contribs order) -> exists i, In i order /\ contribs i = Some p.
Proof.
  induction order as [|i order IH]; simpl; [intros []|].
  destruct (contribs i) as [q|] eqn:E.
  - intros [<-|Hp]; [eauto|]. destruct (IH Hp) as (k & Hk & Hc). eauto.
  - intros Hp. destruct (IH Hp) as (k & Hk & Hc). eauto.
Qed.

Lemma diag_entry_zeros (n j : nat) : (j < n)%nat -> diag_entry j (accum_zeros n) = zero.
Proof.
  intros Hj. unfold diag_entry, accum_zeros. simpl.
  rewrite (nth_indep _ [] (repeat zero n)) by (rewrite repeat_length; lia).
  rewrite nth_repeat.
  rewrite (nth_indep _ NaN zero) by (rewrite repeat_length; lia).
  apply nth_repeat.
Qed.

Lemma diag_entry_numbers (nidp j : nat) (c : chr_input) :
  (j < nidp)%nat -> no_weight_on nidp j c -> diag_entry j (numbers_of nidp c) = zero.
Proof.
  intros Hj [Hw Hcov].
  unfold diag_entry, numbers_of, chr_numbers, eval_matmul_on_left. simpl.
  set (W := map (map (fillna zero)) (in_weight c)).
  assert (Hcol : Forall (fun x => x = zero) (col j W)).
  { unfold col, W. rewrite map_map. apply Forall_forall. intros x Hx.
    apply in_map_iff in Hx as (r & <- & Hr).
    rewrite Forall_forall in Hw. destruct (Hw r Hr) as [Hlen Hz].
    rewrite (nth_map_lt (fillna zero) r j NaN NaN) by lia. exact Hz. }
  unfold matmul at 1.
  rewrite (nth_map_lt _ (transpose nidp W) j [] [])
    by (unfold transpose; rewrite length_map, length_seq; lia).
  rewrite nth_map_seq by assumption.
  unfold transpose. rewrite nth_map_seq by assumption.
  apply dot_zero_r; [now apply zeros_finite|].
  unfold col at 1, matmul. rewrite map_map.
  apply Forall_forall. intros x Hx. apply in_map_iff in Hx as (r & <- & Hr).
  rewrite nth_map_seq by assumption.
  apply dot_zero_r; [|assumption].
  rewrite Forall_forall in Hcov. now apply Hcov.
Qed.

(** ** The checker for [D == 0] *)

Lemma filter_all_true {X : Type} (p : X -> bool) (l : list X) :
  (forall x, In x l -> p x = true) -> filter p l = l.
Proof.
  induction l as [|a l IH]; simpl; intros H; [reflexivity|].
  rewrite (H a (or_introl eq_refl)). f_equal. apply IH. intros x Hx. apply H. now right.
Qed.

Lemma drop_bad_pheno_cases (s : pheno_state) :
  let diag := diagonal (D (acc s)) in
  ((exists d, In d diag /\ F64.eq d zero = true) ->
   drop_bad_pheno s = masked_by (map (fun d => F64.ne d zero) diag) s)
  /\ ((forall d, In d diag -> F64.eq d zero = false) -> drop_bad_pheno s = s).
Proof.
  intros diag. unfold drop_bad_pheno. fold diag.
  destruct (Nat.ltb 0 (count_true (map (fun d => F64.eq d zero) diag))) eqn:E.
  - split; [reflexivity|].
    apply count_true_pos in E as (d & Hd & Hz). intros H.
    rewrite (H d Hd) in Hz. discriminate.
  - split; [|reflexivity].
    intros H. apply count_true_pos in H. congruence.
Qed.

Lemma drop_bad_pheno_diagonal (n : nat) (s : pheno_state) :
  square n (D (acc s)) ->
  diagonal (D (acc (drop_bad_pheno s)))
  = filter (fun d => F64.ne d zero) (diagonal (D (acc s))).
Proof.
  intros Hsq. unfold drop_bad_pheno.
  destruct (Nat.ltb 0 (count_true (map (fun d => F64.eq d zero) (diagonal (D (acc s))))))
    eqn:E.
  - simpl. rewrite (diagonal_mask n) by
      (try assumption; unfold diagonal; rewrite !length_map, length_seq; apply Hsq).
    apply mask_filter.
  - symmetry. apply filter_all_true. intros d Hd.
    apply Nat.ltb_ge in E.
    assert (E0 : count_true (map (fun d => F64.eq d zero) (diagonal (D (acc s)))) = 0%nat)
      by lia.
    rewrite count_true_zero in E0. unfold F64.ne. now rewrite (E0 d Hd).
Qed.

(** C5.  After the loop, [drop_bad_pheno] removes exactly the IDPs whose
    accumulated [D[i,i]] is zero, filtering [D] (on both axes), [numer_b],
    [numer_z], the names, [nsnp_used] and [nsnp_total] by one mask; the
    diagonal that is left has no zero, so [S_D] and [S_D^2], by which the
    marginal test divides, have none either; and an IDP without weight on
    every chromosome has [D[j,j] = 0] and is removed. *)
Theorem degenerate_idps_dropped :
  forall (nidp : nat) (data : nat -> option chr_input)
         (names : list string) (total : list Z),
    let body := fun i => Ok (option_map (numbers_of nidp) (data i)) in
    exists a,
      chromosome_loop nidp body chromosomes = Ok a
      /\ let s := mkPheno a names total in
         let diag := diagonal (D a) in
         let good := map (fun d => F64.ne d zero) diag in
         let s' := drop_bad_pheno s in
         ((exists d, In d diag /\ F64.eq d zero = true) -> s' = masked_by good s)
         /\ ((forall d, In d diag -> F64.eq d zero = false) -> s' = s)
         /\ diagonal (D (acc s')) = filter (fun d => F64.ne d zero) diag
         /\ Forall nonzero (diagonal (D (acc s')))
         /\ marginal_test s'
            = (map2 F64.div (numer_b (acc s')) (beta_divisors s'),
               map2 F64.div (numer_z (acc s')) (S_D_of s'))
         /\ Forall nonzero (S_D_of s')
         /\ Forall nonzero (beta_divisors s')
         /\ (forall j,
               (j < nidp)%nat ->
               (forall i c, In i chromosomes -> data i = Some c -> no_weight_on nidp j c) ->
               nth j diag NaN = zero
               /\ s' = masked_by good s
               /\ ~ In j (true_indices good)).
Proof.
  intros nidp data names total body.
  set (contribs := fun i => option_map (numbers_of nidp) (data i)).
  pose proof (chromosome_loop_sum nidp contribs chromosomes) as Hloop.
  assert (Hparts : Forall (fun p => square nidp (D p)) (parts_of contribs chromosomes)).
  { apply Forall_forall. intros p Hp.
    apply parts_of_In in Hp as (i & _ & Hc). unfold contribs in Hc.
    destruct (data i); [|discriminate]. inversion Hc. apply square_numbers. }
  assert (Hsq : square nidp
                  (D (fold_left accumulate (parts_of contribs chromosomes)
                        (accum_zeros nidp))))
    by (apply fold_square; [assumption|apply square_zeros]).
  assert (Hzero : forall j,
             (j < nidp)%nat ->
             (forall i c, In i chromosomes -> data i = Some c -> no_weight_on nidp j c) ->
             diag_entry j (fold_left accumulate (parts_of contribs chromosomes)
                             (accum_zeros nidp)) = zero).
  { intros j Hj Hno. apply (fold_diag_entry_zero nidp); try assumption.
    - apply square_zeros.
    - apply Forall_forall. intros p Hp.
      apply parts_of_In in Hp as (i & Hi & Hc). unfold contribs in Hc.
      destruct (data i) as [c|] eqn:Ec; [|discriminate]. inversion Hc.
      apply diag_entry_numbers; [assumption|]. now apply (Hno i).
    - now apply diag_entry_zeros. }
  clear Hparts. revert Hloop Hsq Hzero.
  generalize (fold_left accumulate (parts_of contribs chromosomes) (accum_zeros nidp)).
  intros a Hloop Hsq Hzero.
  exists a. split; [exact Hloop|].
  intros s diag good s'.
  assert (Hdiag : diagonal (D (acc s')) = filter (fun d => F64.ne d zero) diag)
    by (apply (drop_bad_pheno_diagonal nidp s); exact Hsq).
  assert (Hnz : Forall nonzero (diagonal (D (acc s')))).
  { rewrite Hdiag. apply Forall_forall. intros d Hd.
    apply filter_In in Hd as [_ Hd]. unfold nonzero, F64.ne in *.
    now apply negb_true_iff in Hd. }
  destruct (drop_bad_pheno_cases s) as [Hbad Hgood].
  split; [exact Hbad|]. split; [exact Hgood|]. split; [exact Hdiag|].
  split; [exact Hnz|]. split; [reflexivity|]. split; [|split].
  - unfold S_D_of. apply Forall_forall. intros x Hx.
    apply in_map_iff in Hx as (d & <- & Hd).
    rewrite Forall_forall in Hnz. apply F64Facts.sqrt_nonzero, Hnz, Hd.
  - unfold beta_divisors, S_D_of. rewrite map_map. apply Forall_forall. intros x Hx.
    apply in_map_iff in Hx as (d & <- & Hd).
    rewrite Forall_forall in Hnz. apply F64Facts.pow2_sqrt_nonzero, Hnz, Hd.
  - intros j Hj Hno.
    assert (Hlen : List.length diag = nidp)
      by (unfold diag, diagonal; rewrite length_map, length_seq; apply Hsq).
    assert (Hent : nth j diag NaN = zero).
    { unfold diag, diagonal. rewrite nth_map_seq by (destruct Hsq; lia).
      now apply Hzero. }
    split; [exact Hent|]. split.
    + apply Hbad. exists zero. split.
      * change (In zero diag). rewrite <- Hent. apply nth_In. lia.
      * unfold zero. simpl. destruct (Req_dec_T 0 0); [reflexivity|lra].
    + rewrite true_indices_spec. unfold good.
      rewrite (nth_map_lt _ diag j false NaN) by lia. rewrite Hent.
      unfold F64.ne, zero. simpl. destruct (Req_dec_T 0 0); [discriminate|lra].
Qed.

Lemma degenerate_idps_dropped_example :
  exists a,
    chromosome_loop 2 (fun i => Ok (option_map (numbers_of 2) (Examples.one_snp i)))
      chromosomes = Ok a
    /\ nth 0 (diagonal (D a)) NaN = zero
    /\ ~ In 0%nat (true_indices (map (fun d => F64.ne d zero) (diagonal (D a)))).
Proof.
  destruct (degenerate_idps_dropped 2 Examples.one_snp ["idp1"; "idp2"] [0%Z; 1%Z])
    as (a & Hloop & _ & _ & _ & _ & _ & _ & _ & Hzero).
  exists a. split; [exact Hloop|].
  destruct (Hzero 0%nat) as (Hd & _ & Hout).
  - lia.
  - intros i c _ Hc.
    destruct i as [|[|i]]; simpl in Hc; try discriminate.
    inversion Hc. split; simpl.
    + constructor; [|constructor]. split; reflexivity.
    + constructor; [|constructor]. constructor; [|constructor]. now exists 1%R.
  - split; assumption.
Defined.

(** ** Empirical null *)

(** C6.  What the code does where the claim has the empirical null
    appended and split off: with [--empirical_null] the number of repeats
    is read from [args.args], an attribute that the parser never sets, so
    the run stops with an [AttributeError] before any null weight is drawn;
    and the split after the marginal test cuts at index [nrepeat_null]
    from the front, so that with three real IDPs and two null columns the
    null sample holds the third real z-score and the real ones lose it,
    where the specification takes the trailing two as the null sample. *)
Theorem empirical_null_split_misplaced :
  (forall gc gwas idp cutoff nrepeat seed out,
      nrepeat_null_of (parse_args gc gwas idp cutoff true nrepeat seed out)
      = Raise (AttributeError "args"))
  /\ (forall z R,
        fst (fst (empirical_null_split z R)) = skipn R z
        /\ snd (fst (empirical_null_split z R)) = firstn R z)
  /\ fst (fst (empirical_null_split NullExample.z_all 2)) = [Fin 3; Fin 4; Fin 5]%R
  /\ snd (fst (empirical_null_split NullExample.z_all 2)) = [Fin 1; Fin 2]%R
  /\ fst (fst (empirical_null_split_as_specified NullExample.z_all 2))
     = [Fin 4; Fin 5]%R
  /\ snd (fst (empirical_null_split_as_specified NullExample.z_all 2))
     = [Fin 1; Fin 2; Fin 3]%R
  /\ fst (fst (empirical_null_split NullExample.z_all 2))
     <> fst (fst (empirical_null_split_as_specified NullExample.z_all 2)).
Proof.
  split; [reflexivity|]. split; [intros z R; split; reflexivity|].
  repeat (split; [reflexivity|]).
  cbn. discriminate.
Qed.

(** ** Loading the IDP weights *)


Lemma find_none_all {X : Type} (p : X -> bool) (l : list X) :
  (forall x, In x l -> p x = false) -> find p l = None.
Proof.
  induction l as [|a l IH]; simpl; intros H; [reflexivity|].
  rewrite (H a (or_introl eq_refl)). apply IH. intros x Hx. apply H. now right.
Qed.





(** ** Joins on unique keys *)

Lemma same_key_iff (r s : row) : same_key r s = true <-> key r = key s.
Proof.
  unfold same_key, key. rewrite andb_true_iff, !String.eqb_eq. split.
  - intros [-> ->]. reflexivity.
  - intros [= -> ->]. split; reflexivity.
Qed.

Lemma filter_nil_iff {X : Type} (p : X -> bool) (l : list X) :
  (forall x, In x l -> p x = false) -> filter p l = [].
Proof.
  induction l as [|a l IH]; simpl; intros H; [reflexivity|].
  rewrite (H a (or_introl eq_refl)). apply IH. intros x Hx. apply H. now right.
Qed.

(** On a table with unique keys a key selects at most one row. *)
Lemma filter_key_unique (l : row) (rs : list row) :
  NoDup (map key rs) ->
  filter (same_key l) rs
  = match find (same_key l) rs with Some r => [r] | None => [] end.
Proof.
  induction rs as [|a rs IH]; simpl; intros Hnd; [reflexivity|].
  inversion Hnd as [|k ks Hnotin Hnd']; subst.
  destruct (same_key l a) eqn:E.
  - f_equal. apply filter_nil_iff. intros x Hx.
    destruct (same_key l x) eqn:Ex; [|reflexivity].
    exfalso. apply Hnotin. apply same_key_iff in E, Ex.
    rewrite <- E, Ex. now apply in_map.
  - now apply IH.
Qed.

Lemma find_key_In (l : row) (rs : list row) (r : row) :
  find (same_key l) rs = Some r -> In r rs /\ key l = key r.
Proof.
  intros H. apply find_some in H as [Hin Hk]. split; [assumption|].
  now apply same_key_iff.
Qed.

Lemma find_key_self (rs : list row) (l r : row) :
  NoDup (map key rs) -> In r rs -> key l = key r -> find (same_key l) rs = Some r.
Proof.
  induction rs as [|a rs IH]; simpl; intros Hnd Hin Hk; [contradiction|].
  inversion Hnd as [|k ks Hnotin Hnd']; subst.
  destruct Hin as [->|Hin].
  - assert (E : same_key l r = true) by now apply same_key_iff.
    now rewrite E.
  - destruct (same_key l a) eqn:E.
    + exfalso. apply Hnotin. apply same_key_iff in E. rewrite <- E, Hk.
      now apply in_map.
    + now apply IH.
Qed.


Lemma flat_map_singleton {X Y : Type} (f : X -> list Y) (g : X -> Y) (l : list X) :
  (forall x, In x l -> f x = [g x]) -> flat_map f l = map g l.
Proof.
  induction l as [|a l IH]; simpl; intros H; [reflexivity|].
  rewrite (H a (or_introl eq_refl)). simpl. f_equal. apply IH.
  intros x Hx. apply H. now right.
Qed.

Lemma merge_left_unique (left right : list row) :
  NoDup (map key right) ->
  merge_left left right = map (fun l => (l, find (same_key l) right)) left.
Proof.
  intros Hnd. unfold merge_left. apply flat_map_singleton. intros l _.
  rewrite (filter_key_unique l right Hnd).
  destruct (find (same_key l) right); reflexivity.
Qed.

Lemma merge_inner_In (left right : list row) (l r : row) :
  In (l, r) (merge_inner left right) <-> In l left /\ In r right /\ key l = key r.
Proof.
  unfold merge_inner. rewrite in_flat_map. split.
  - intros (x & Hx & Hin). apply in_map_iff in Hin as (y & [= <- <-] & Hy).
    apply filter_In in Hy as [Hy Hk]. apply same_key_iff in Hk. auto.
  - intros (Hl & Hr & Hk). exists l. split; [assumption|].
    apply in_map. apply filter_In. split; [assumption|]. now apply same_key_iff.
Qed.

(** ** The sign of a pair of rows *)

Lemma check_flip_on_bases (a0 a1 b0 b1 : option base) :
  _check_flip (cell_of a0) (cell_of a1) (cell_of b0) (cell_of b1)
  = Ok (harmonize_spec a0 a1 b0 b1).
Proof.
  destruct a0 as [[]|], a1 as [[]|], b0 as [[]|], b1 as [[]|]; reflexivity.
Qed.

Lemma check_flip_sign_of (a b : row) :
  wf_row a -> wf_row b ->
  _check_flip (effect_allele a) (non_effect_allele a)
              (effect_allele b) (non_effect_allele b) = Ok (sign_of a b).
Proof.
  intros [[a0 Ha0] [a1 Ha1]] [[b0 Hb0] [b1 Hb1]]. unfold sign_of.
  rewrite Ha0, Ha1, Hb0, Hb1, check_flip_on_bases. reflexivity.
Qed.

Lemma check_flip_missing (a0 a1 : allele) :
  _check_flip a0 a1 ANaN ANaN = Ok NaN.
Proof.
  unfold _check_flip. simpl. now rewrite !orb_true_r.
Qed.

Lemma check_flip_map {X : Type} (f1 f2 f3 f4 : X -> allele) (l : list X) :
  check_flip (map f1 l) (map f2 l) (map f3 l) (map f4 l)
  = mapM (fun x => _check_flip (f1 x) (f2 x) (f3 x) (f4 x)) l.
Proof.
  induction l as [|x l IH]; simpl; [reflexivity|].
  now rewrite IH.
Qed.

Lemma mapM_ok {X Y : Type} (f : X -> res Y) (g : X -> Y) (l : list X) :
  (forall x, In x l -> f x = Ok (g x)) -> mapM f l = Ok (map g l).
Proof.
  induction l as [|x l IH]; simpl; intros H; [reflexivity|].
  rewrite (H x (or_introl eq_refl)). simpl.
  rewrite IH by (intros y Hy; apply H; now right). reflexivity.
Qed.

Lemma combine_map_map {X Y Z : Type} (f : X -> Y) (g : X -> Z) (l : list X) :
  combine (map f l) (map g l) = map (fun x => (f x, g x)) l.
Proof.
  induction l as [|x l IH]; simpl; [reflexivity|]. now rewrite IH.
Qed.

(** ** Rearranging a table by a target *)

Lemma mem_In (c : string) (l : list string) : mem c l = true <-> In c l.
Proof.
  unfold mem. rewrite existsb_exists. split.
  - intros (x & Hx & E). apply String.eqb_eq in E. now subst.
  - intros H. exists c. split; [assumption|apply String.eqb_refl].
Qed.



Lemma scale_cols_all_nan (sel cols : list string) (f : float) :
  scale_cols sel f (map (fun c => (c, NaN)) cols) = map (fun c => (c, NaN)) cols.
Proof.
  unfold scale_cols. rewrite map_map. apply map_ext. intros c. simpl.
  now destruct (mem c sel).
Qed.

Lemma combine_self_map {X Y : Type} (g : X -> Y) (l : list X) :
  combine l (map g l) = map (fun x => (x, g x)) l.
Proof.
  induction l as [|x l IH]; simpl; [reflexivity|]. now rewrite IH.
Qed.

Lemma rearrange_unique (df target : frame) (value_cols : list string) :
  unique_keys df -> wf_frame df -> wf_frame target ->
  (forall c, In c value_cols -> In c (columns df)) ->
  rearrage_df_by_target df target value_cols
  = Ok (mkFrame (columns df)
          (map (fun t => rearranged (columns df) value_cols t
                           (find (same_key t) (rows df)))
               (rows target))).
Proof.
  intros Hu Hdf Ht Hcols. unfold rearrage_df_by_target.
  rewrite (merge_left_unique _ _ Hu).
  set (df_res := map (fun l => (l, find (same_key l) (rows df))) (rows target)).
  rewrite check_flip_map.
  rewrite (mapM_ok _ (fun p => sign_opt (fst p) (snd p))).
  - simpl. rewrite find_none_all.
    + f_equal. f_equal. rewrite combine_self_map, map_map.
      unfold df_res. rewrite map_map. apply map_ext. intros t. simpl.
      destruct (find (same_key t) (rows df)) as [d|]; simpl; [reflexivity|].
      now rewrite scale_cols_all_nan.
    + intros c Hc. apply Hcols, mem_In in Hc. now rewrite Hc.
  - intros [t d] Hp. unfold df_res in Hp.
    apply in_map_iff in Hp as (t' & [= <- <-] & Ht'). simpl.
    destruct (find (same_key t') (rows df)) as [d|] eqn:E; simpl.
    + apply check_flip_sign_of.
      * unfold wf_frame in Ht. rewrite Forall_forall in Ht. now apply Ht.
      * unfold wf_frame in Hdf. rewrite Forall_forall in Hdf. apply Hdf.
        now apply find_key_In in E.
    + apply check_flip_missing.
Qed.


Lemma wf_base (b : base) : wf_allele (AStr (base_str b)).
Proof. now exists (Some b). Qed.



(** ** Harmonising the GWAS with the weights *)

Lemma filter_map_comm {X Y : Type} (p : Y -> bool) (f : X -> Y) (l : list X) :
  filter p (map f l) = map f (filter (fun x => p (f x)) l).
Proof.
  induction l as [|x l IH]; simpl; [reflexivity|].
  destruct (p (f x)); simpl; now rewrite IH.
Qed.

(** Joining rows built from [ps] with a table of unique keys in which each
    of them has its partner [sel p]. *)
Lemma merge_inner_partner {X : Type} (h : X -> row) (sel : X -> row)
    (ps : list X) (right : list row) :
  NoDup (map key right) ->
  (forall p, In p ps -> In (sel p) right /\ key (h p) = key (sel p)) ->
  merge_inner (map h ps) right = map (fun p => (h p, sel p)) ps.
Proof.
  intros Hnd Hsel. unfold merge_inner.
  rewrite flat_map_concat_map, map_map, <- flat_map_concat_map.
  apply flat_map_singleton. intros p Hp.
  destruct (Hsel p Hp) as [Hin Hk].
  rewrite (filter_key_unique _ _ Hnd), (find_key_self right (h p) (sel p) Hnd Hin Hk).
  reflexivity.
Qed.

Lemma kept_pairs_In (gwas weight : frame) (g w : row) :
  In (g, w) (kept_pairs gwas weight)
  <-> In g (rows gwas) /\ In w (rows weight) /\ key g = key w
      /\ F64.isnan (sign_of g w) = false.
Proof.
  unfold kept_pairs. rewrite filter_In, merge_inner_In. simpl.
  unfold F64.notna. rewrite negb_true_iff. tauto.
Qed.

Lemma harmonize_unique (gwas weight : frame) :
  unique_keys gwas -> unique_keys weight ->
  wf_frame gwas -> wf_frame weight ->
  In "effect_size" (columns gwas) ->
  harmonize_gwas_and_weight gwas weight
  = Ok (mkFrame (columns gwas)
          (map (fun p => gwas_out (fst p) (snd p)) (kept_pairs gwas weight)),
        mkFrame (columns weight)
          (map (fun p => weight_out (fst p) (snd p)) (kept_pairs gwas weight))).
Proof.
  intros Hug Huw Hwg Hww Hes. unfold harmonize_gwas_and_weight.
  set (J := merge_inner (rows gwas) (rows weight)).
  set (s := fun p : row * row => sign_of (fst p) (snd p)).
  assert (HJ : forall p, In p J -> In (fst p) (rows gwas) /\ In (snd p) (rows weight)
                                   /\ key (fst p) = key (snd p)).
  { intros [g w] Hp. now apply merge_inner_In in Hp. }
  rewrite check_flip_map.
  rewrite (mapM_ok _ s).
  2:{ intros p Hp. destruct (HJ p Hp) as (Hg & Hw & _). apply check_flip_sign_of.
      - unfold wf_frame in Hwg. rewrite Forall_forall in Hwg. now apply Hwg.
      - unfold wf_frame in Hww. rewrite Forall_forall in Hww. now apply Hww. }
  cbn [bind].
  rewrite (map_map s F64.notna), (mask_filter (fun p => F64.notna (s p)) J).
  rewrite <- (map_map s F64.notna), (mask_filter F64.notna (map s J)), filter_map_comm.
  change (kept_pairs gwas weight) with (filter (fun p => F64.notna (s p)) J).
  set (K := filter (fun p => F64.notna (s p)) J).
  assert (HK : forall p, In p K -> In p J).
  { intros p Hp. unfold K in Hp. now apply filter_In in Hp. }
  set (mk := fun p : row * row =>
               mkRow (snpid (fst p)) (chr (fst p)) (effect_allele (snd p))
                     (non_effect_allele (snd p)) []).
  rewrite (merge_inner_partner mk fst K (rows gwas) Hug).
  2:{ intros p Hp. destruct (HJ p (HK p Hp)) as (Hg & _ & _). now split. }
  rewrite (merge_inner_partner mk snd K (rows weight) Huw).
  2:{ intros p Hp. destruct (HJ p (HK p Hp)) as (_ & Hw & Hk). split; [assumption|].
      exact Hk. }
  unfold mul_column. cbn [columns rows].
  apply mem_In in Hes. rewrite Hes. cbn [negb].
  rewrite !length_map, Nat.eqb_refl. cbn [negb bind].
  rewrite !map_map, combine_map_map, map_map.
  reflexivity.
Qed.

Lemma harmonize_spec_range (a0 a1 b0 b1 : option base) :
  harmonize_spec a0 a1 b0 b1 = Fin 1
  \/ harmonize_spec a0 a1 b0 b1 = Fin (-1)
  \/ harmonize_spec a0 a1 b0 b1 = NaN.
Proof.
  destruct a0 as [[]|], a1 as [[]|], b0 as [[]|], b1 as [[]|]; cbv; auto.
Qed.

Lemma sign_of_range (a b : row) :
  wf_row a -> wf_row b ->
  sign_of a b = Fin 1 \/ sign_of a b = Fin (-1) \/ sign_of a b = NaN.
Proof.
  intros [[a0 Ha0] [a1 Ha1]] [[b0 Hb0] [b1 Hb1]]. unfold sign_of.
  rewrite Ha0, Ha1, Hb0, Hb1, check_flip_on_bases. apply harmonize_spec_range.
Qed.

(** C2, as amended.  On tables with unique keys, [harmonize_gwas_and_weight]
    keeps the SNPs that both tables have (joined on [snpid] and [chr]) and
    whose sign is determined, in the order of the GWAS; it multiplies the
    GWAS [effect_size] by the sign, which is +1 or -1, returns the IDP
    weight columns as they are, and gives both tables the alleles of the
    weight table. *)
Theorem harmonize_signs_gwas_only :
  forall gwas weight : frame,
    unique_keys gwas -> unique_keys weight ->
    wf_frame gwas -> wf_frame weight ->
    In "effect_size" (columns gwas) ->
    exists kept : list (row * row),
      harmonize_gwas_and_weight gwas weight
      = Ok (mkFrame (columns gwas) (map (fun p => gwas_out (fst p) (snd p)) kept),
            mkFrame (columns weight) (map (fun p => weight_out (fst p) (snd p)) kept))
      /\ (forall g w,
             In (g, w) kept
             <-> In g (rows gwas) /\ In w (rows weight) /\ key g = key w
                 /\ F64.isnan (sign_of g w) = false)
      /\ (forall g w,
             In (g, w) kept ->
             _check_flip (effect_allele g) (non_effect_allele g)
                         (effect_allele w) (non_effect_allele w) = Ok (sign_of g w)
             /\ (sign_of g w = Fin 1 \/ sign_of g w = Fin (-1))
             /\ vals (gwas_out g w) = scale_cols ["effect_size"] (sign_of g w) (vals g)
             /\ vals (weight_out g w) = vals w
             /\ effect_allele (gwas_out g w) = effect_allele w
             /\ non_effect_allele (gwas_out g w) = non_effect_allele w
             /\ effect_allele (weight_out g w) = effect_allele w
             /\ non_effect_allele (weight_out g w) = non_effect_allele w).
Proof.
  intros gwas weight Hug Huw Hwg Hww Hes.
  exists (kept_pairs gwas weight).
  split; [now apply harmonize_unique|]. split; [apply kept_pairs_In|].
  intros g w Hin. apply kept_pairs_In in Hin as (Hg & Hw & _ & Hnan).
  assert (Wg : wf_row g)
    by (unfold wf_frame in Hwg; rewrite Forall_forall in Hwg; now apply Hwg).
  assert (Ww : wf_row w)
    by (unfold wf_frame in Hww; rewrite Forall_forall in Hww; now apply Hww).
  split; [now apply check_flip_sign_of|]. split.
  - destruct (sign_of_range g w Wg Ww) as [H|[H|H]]; auto.
    rewrite H in Hnan. discriminate.
  - repeat split.
Qed.

(** C10.  On tables with unique keys the two tables that
    [harmonize_gwas_and_weight] returns have the same number of rows and,
    row by row, the same [snpid], [chr], [effect_allele] and
    [non_effect_allele]. *)
Theorem harmonize_rows_aligned :
  forall gwas weight : frame,
    unique_keys gwas -> unique_keys weight ->
    wf_frame gwas -> wf_frame weight ->
    In "effect_size" (columns gwas) ->
    exists df_gwas df_weight,
      harmonize_gwas_and_weight gwas weight = Ok (df_gwas, df_weight)
      /\ List.length (rows df_gwas) = List.length (rows df_weight)
      /\ map snp_of (rows df_gwas) = map snp_of (rows df_weight)
      /\ forall j g w,
           nth_error (rows df_gwas) j = Some g ->
           nth_error (rows df_weight) j = Some w ->
           snpid g = snpid w /\ chr g = chr w
           /\ effect_allele g = effect_allele w
           /\ non_effect_allele g = non_effect_allele w.
Proof.
  intros gwas weight Hug Huw Hwg Hww Hes.
  eexists. eexists. split; [now apply harmonize_unique|]. cbn [rows].
  assert (Hsnp : map snp_of (map (fun p => gwas_out (fst p) (snd p))
                                 (kept_pairs gwas weight))
                 = map snp_of (map (fun p => weight_out (fst p) (snd p))
                                   (kept_pairs gwas weight)))
    by (rewrite !map_map; reflexivity).
  split; [now rewrite !length_map|]. split; [exact Hsnp|].
  intros j g w Hg Hw.
  apply (map_nth_error snp_of) in Hg, Hw. rewrite Hsnp in Hg. rewrite Hg in Hw.
  inversion Hw as [E]. auto.
Qed.

Lemma example_gwas_wf : wf_frame HarmonizeExample.gwas.
Proof. repeat constructor; [apply (wf_base A)|apply (wf_base G)]. Qed.

Lemma example_weight_wf : wf_frame HarmonizeExample.weight.
Proof. repeat constructor; [apply (wf_base G)|apply (wf_base A)]. Qed.

Lemma example_unique (r : row) : NoDup (map key [r]).
Proof. repeat constructor. intros []. Qed.

Lemma harmonize_signs_gwas_only_example :
  exists kept : list (row * row),
    harmonize_gwas_and_weight HarmonizeExample.gwas HarmonizeExample.weight
    = Ok (mkFrame ["effect_size"; "effect_size_se"]
            (map (fun p => gwas_out (fst p) (snd p)) kept),
          mkFrame ["idp1"] (map (fun p => weight_out (fst p) (snd p)) kept)).
Proof.
  destruct (harmonize_signs_gwas_only HarmonizeExample.gwas HarmonizeExample.weight)
    as (kept & Hout & _).
  - apply example_unique.
  - apply example_unique.
  - apply example_gwas_wf.
  - apply example_weight_wf.
  - now left.
  - exists kept. exact Hout.
Defined.

Lemma harmonize_rows_aligned_example :
  exists df_gwas df_weight,
    harmonize_gwas_and_weight HarmonizeExample.gwas HarmonizeExample.weight
    = Ok (df_gwas, df_weight)
    /\ map snp_of (rows df_gwas) = map snp_of (rows df_weight).
Proof.
  destruct (harmonize_rows_aligned HarmonizeExample.gwas HarmonizeExample.weight)
    as (g & w & Hout & _ & Hsnp & _).
  - apply example_unique.
  - apply example_unique.
  - apply example_gwas_wf.
  - apply example_weight_wf.
  - now left.
  - exists g, w. split; assumption.
Defined.

(** C2, as stated, fails: for a SNP that the two tables report with swapped
    alleles the sign is -1 and the GWAS effect size changes sign, but the
    IDP weight is returned as it was, not multiplied by the sign. *)
Lemma harmonize_leaves_weights_unsigned :
  exists df_gwas df_weight df_weight',
    harmonize_gwas_and_weight HarmonizeExample.gwas HarmonizeExample.weight
    = Ok (df_gwas, df_weight)
    /\ harmonize_as_specified HarmonizeExample.gwas HarmonizeExample.weight
       = Ok (df_gwas, df_weight')
    /\ map vals (rows df_gwas)
       = [[("effect_size", F64.mul (Fin 2) (Fin (-1))); ("effect_size_se", Fin 1)]]
    /\ map vals (rows df_weight) = [[("idp1", Fin 3)]]
    /\ map vals (rows df_weight') = [[("idp1", F64.mul (Fin 3) (Fin (-1)))]]
    /\ df_weight <> df_weight'.
Proof.
  do 3 eexists.
  split; [reflexivity|]. split; [reflexivity|].
  split; [reflexivity|]. split; [reflexivity|]. split; [reflexivity|].
  intros H. apply (f_equal (fun f => map vals (rows f))) in H.
  cbn in H. inversion H as [E]. lra.
Qed.

(** * Further properties *)

(** ** The flip test beyond the cascade *)

(** The flip test does not depend on which pair is the query and which the
    reference. *)
Theorem check_flip_roles_symmetric :
  forall a0 a1 b0 b1 : option base,
    _check_flip (cell_of a0) (cell_of a1) (cell_of b0) (cell_of b1)
    = _check_flip (cell_of b0) (cell_of b1) (cell_of a0) (cell_of a1).
Proof.
  intros [[]|] [[]|] [[]|] [[]|]; reflexivity.
Qed.

Lemma neg_one : F64.neg (Fin 1) = Fin (-1).
Proof. reflexivity. Qed.

Lemma neg_minus_one : F64.neg (Fin (-1)) = Fin 1.
Proof. simpl. f_equal. lra. Qed.

(** For a query with two different alleles: exchanging the effect and the
    non-effect allele of the query, or of the reference, negates the sign
    (NaN stays NaN).  Reading the query, or the reference, on the other
    strand leaves the sign as it is, for every query. *)
Theorem check_flip_swap_and_strand :
  forall a0 a1 b0 b1 : option base,
    exists s,
      _check_flip (cell_of a0) (cell_of a1) (cell_of b0) (cell_of b1) = Ok s
      /\ (a0 <> a1 ->
          _check_flip (cell_of a1) (cell_of a0) (cell_of b0) (cell_of b1)
          = Ok (F64.neg s)
          /\ _check_flip (cell_of a0) (cell_of a1) (cell_of b1) (cell_of b0)
             = Ok (F64.neg s))
      /\ _check_flip (cell_of (option_map complement a0))
                     (cell_of (option_map complement a1))
                     (cell_of b0) (cell_of b1) = Ok s
      /\ _check_flip (cell_of a0) (cell_of a1)
                     (cell_of (option_map complement b0))
                     (cell_of (option_map complement b1)) = Ok s.
Proof.
  intros a0 a1 b0 b1. exists (harmonize_spec a0 a1 b0 b1).
  rewrite !check_flip_on_bases.
  destruct a0 as [[]|], a1 as [[]|], b0 as [[]|], b1 as [[]|];
    cbn [harmonize_spec base_eqb complement option_map orb andb];
    (split; [reflexivity|]);
    (split; [intros Hne; try congruence; split; first [reflexivity|apply f_equal, eq_sym, neg_minus_one]|]);
    split; reflexivity.
Qed.

Lemma check_flip_swap_and_strand_example :
  _check_flip (AStr "A") (AStr "G") (AStr "A") (AStr "G") = Ok (Fin 1)
  /\ _check_flip (AStr "G") (AStr "A") (AStr "A") (AStr "G") = Ok (Fin (-1)).
Proof.
  destruct (check_flip_swap_and_strand (Some A) (Some G) (Some A) (Some G))
    as (s & Hs & Hswap & _).
  assert (Hne : Some A <> Some G) by discriminate.
  destruct (Hswap Hne) as [Hq _].
  simpl cell_of in *. split; [reflexivity|].
  rewrite Hq. change (_check_flip (AStr "A") (AStr "G") (AStr "A") (AStr "G"))
    with (@Ok float (Fin 1)) in Hs.
  inversion Hs. reflexivity.
Defined.

(** A string that is no key of [BASE_PAIR]. *)
Lemma dict_get_no_base (s : string) :
  not_base s -> dict_get BASE_PAIR s = Raise (KeyError s).
Proof.
  intros (HA & HT & HG & HC). unfold BASE_PAIR. cbn [dict_get].
  assert (EA : String.eqb "A" s = false) by (apply String.eqb_neq; congruence).
  assert (ET : String.eqb "T" s = false) by (apply String.eqb_neq; congruence).
  assert (EG : String.eqb "G" s = false) by (apply String.eqb_neq; congruence).
  assert (EC : String.eqb "C" s = false) by (apply String.eqb_neq; congruence).
  now rewrite EA, ET, EG, EC.
Qed.

Lemma not_base_neq (s : string) (b : base) : not_base s -> String.eqb s (base_str b) = false.
Proof.
  intros (HA & HT & HG & HC). apply String.eqb_neq.
  destruct b; simpl; congruence.
Qed.

(** Alleles that are no bases (an indel such as "AT", a lower-case letter):
    with nothing missing, a query non-effect allele that is no base makes
    the test raise [KeyError]; a query effect allele that is no base is
    never looked up and, the other three being bases, gives NaN. *)
Theorem check_flip_on_other_strings :
  (forall a0 a1 b0 b1 : string,
      not_base a1 ->
      _check_flip (AStr a0) (AStr a1) (AStr b0) (AStr b1) = Raise (KeyError a1))
  /\ (forall (a0 : string) (a1 b0 b1 : base),
         not_base a0 ->
         _check_flip (AStr a0) (AStr (base_str a1)) (AStr (base_str b0))
                     (AStr (base_str b1)) = Ok NaN).
Proof.
  split.
  - intros a0 a1 b0 b1 Ha1. unfold _check_flip.
    cbn [is_nan_cell orb dict_get_cell].
    now rewrite (dict_get_no_base a1 Ha1).
  - intros a0 a1 b0 b1 Ha0.
    pose proof (not_base_neq a0 A Ha0) as EA. pose proof (not_base_neq a0 C Ha0) as EC.
    pose proof (not_base_neq a0 G Ha0) as EG. pose proof (not_base_neq a0 T Ha0) as ET.
    simpl in EA, EC, EG, ET.
    destruct a1, b0, b1; unfold _check_flip; simpl;
      rewrite ?EA, ?EC, ?EG, ?ET; reflexivity.
Qed.

Lemma check_flip_on_other_strings_example :
  _check_flip (AStr "A") (AStr "AT") (AStr "A") (AStr "G") = Raise (KeyError "AT")
  /\ _check_flip (AStr "AT") (AStr "A") (AStr "A") (AStr "G") = Ok NaN.
Proof.
  assert (H : not_base "AT") by (repeat split; discriminate).
  destruct check_flip_on_other_strings as [H1 H2]. split.
  - exact (H1 "A" "AT" "A" "G" H).
  - exact (H2 "AT" A A G H).
Defined.

(** ** What the harmonised tables keep *)

Lemma NoDup_map_filter {X Y : Type} (f : X -> Y) (p : X -> bool) (l : list X) :
  NoDup (map f l) -> NoDup (map f (filter p l)).
Proof.
  induction l as [|a l IH]; simpl; intros H; [constructor|].
  inversion H as [|y ys Hnotin Hnd]; subst.
  destruct (p a); simpl; [|now apply IH].
  constructor; [|now apply IH].
  intros Hin. apply Hnotin. apply in_map_iff in Hin as (x & Hx & Hin).
  apply filter_In in Hin as [Hin _]. rewrite <- Hx. now apply in_map.
Qed.

Lemma merge_inner_keys_NoDup (left right : list row) :
  NoDup (map key left) -> NoDup (map key right) ->
  NoDup (map (fun p => key (fst p)) (merge_inner left right)).
Proof.
  intros Hl Hr. induction left as [|l left IH]; simpl; [constructor|].
  inversion Hl as [|k ks Hnotin Hnd]; subst.
  fold (merge_inner left right). rewrite map_app, map_map. simpl.
  assert (Hrest : ~ In (key l) (map (fun p => key (fst p)) (merge_inner left right))).
  { intros Hin. apply in_map_iff in Hin as ([g w] & Hk & Hin). simpl in Hk.
    apply merge_inner_In in Hin as (Hg & _ & _).
    apply Hnotin. rewrite <- Hk. now apply in_map. }
  rewrite (filter_key_unique l right Hr).
  destruct (find (same_key l) right); simpl.
  - constructor; [assumption|now apply IH].
  - now apply IH.
Qed.

Lemma kept_pairs_keys_NoDup (gwas weight : frame) :
  unique_keys gwas -> unique_keys weight ->
  NoDup (map (fun p => key (fst p)) (kept_pairs gwas weight)).
Proof.
  intros Hg Hw. unfold kept_pairs. apply NoDup_map_filter.
  now apply merge_inner_keys_NoDup.
Qed.

(** A determined sign needs four bases and no palindromic pair. *)
Lemma harmonize_spec_determined (a0 a1 b0 b1 : option base) :
  F64.isnan (harmonize_spec a0 a1 b0 b1) = false ->
  (exists x0 x1, a0 = Some x0 /\ a1 = Some x1 /\ x0 <> complement x1)
  /\ (exists y0 y1, b0 = Some y0 /\ b1 = Some y1 /\ y0 <> complement y1)
  /\ harmonize_spec b0 b1 b0 b1 = Fin 1
  /\ harmonize_spec a0 a1 a0 a1 = Fin 1.
Proof.
  destruct a0 as [[]|], a1 as [[]|], b0 as [[]|], b1 as [[]|];
    cbn [harmonize_spec base_eqb complement orb andb F64.isnan];
    intros H; try discriminate H;
    (split; [eexists; eexists; repeat split; discriminate|]);
    (split; [eexists; eexists; repeat split; discriminate|]);
    split; reflexivity.
Qed.

Lemma sign_of_determined (g w : row) :
  wf_row g -> wf_row w -> F64.isnan (sign_of g w) = false ->
  (exists y0 y1 : base,
      effect_allele w = AStr (base_str y0) /\ non_effect_allele w = AStr (base_str y1)
      /\ y0 <> complement y1)
  /\ (exists x0 x1 : base,
         effect_allele g = AStr (base_str x0) /\ non_effect_allele g = AStr (base_str x1)
         /\ x0 <> complement x1)
  /\ sign_of w w = Fin 1.
Proof.
  intros [[a0 Ha0] [a1 Ha1]] [[b0 Hb0] [b1 Hb1]]. unfold sign_of.
  rewrite Ha0, Ha1, Hb0, Hb1, !check_flip_on_bases. intros H.
  destruct (harmonize_spec_determined a0 a1 b0 b1 H)
    as ((x0 & x1 & -> & -> & Hx) & (y0 & y1 & -> & -> & Hy) & Hself & _).
  split; [exists y0, y1; auto|]. split; [exists x0, x1; auto|]. exact Hself.
Qed.

Lemma harmonize_invariants (gwas weight : frame) :
  unique_keys gwas -> unique_keys weight ->
  wf_frame gwas -> wf_frame weight ->
  let K := kept_pairs gwas weight in
  let df_gwas := mkFrame (columns gwas) (map (fun p => gwas_out (fst p) (snd p)) K) in
  let df_weight := mkFrame (columns weight) (map (fun p => weight_out (fst p) (snd p)) K) in
  unique_keys df_gwas /\ unique_keys df_weight
  /\ wf_frame df_gwas /\ wf_frame df_weight.
Proof.
  intros Hug Huw Hwg Hww K df_gwas df_weight.
  pose proof (kept_pairs_keys_NoDup gwas weight Hug Huw) as Hnd.
  assert (Hwf : forall p, In p K -> wf_row (snd p)).
  { intros [g w] Hp. apply kept_pairs_In in Hp as (_ & Hw & _).
    unfold wf_frame in Hww. rewrite Forall_forall in Hww. now apply Hww. }
  unfold unique_keys, wf_frame, df_gwas, df_weight. cbn [rows].
  rewrite !map_map. split; [exact Hnd|]. split; [exact Hnd|].
  split; apply Forall_forall; intros r Hr;
    apply in_map_iff in Hr as (p & <- & Hp); exact (Hwf p Hp).
Qed.

(** The tables that [harmonize_gwas_and_weight] returns are again tables
    with unique keys and alleles of the data model, with the columns of the
    inputs; their SNPs are SNPs of both inputs, and every row has two
    bases that are not complementary (no missing allele, no palindromic
    SNP). *)
Theorem harmonize_output_well_formed :
  forall gwas weight : frame,
    unique_keys gwas -> unique_keys weight ->
    wf_frame gwas -> wf_frame weight ->
    In "effect_size" (columns gwas) ->
    exists df_gwas df_weight,
      harmonize_gwas_and_weight gwas weight = Ok (df_gwas, df_weight)
      /\ unique_keys df_gwas /\ unique_keys df_weight
      /\ wf_frame df_gwas /\ wf_frame df_weight
      /\ columns df_gwas = columns gwas /\ columns df_weight = columns weight
      /\ (forall k, In k (map key (rows df_gwas)) ->
                    In k (map key (rows gwas)) /\ In k (map key (rows weight)))
      /\ (forall r, In r (rows df_gwas) \/ In r (rows df_weight) ->
                    exists y0 y1 : base,
                      effect_allele r = AStr (base_str y0)
                      /\ non_effect_allele r = AStr (base_str y1)
                      /\ y0 <> complement y1).
Proof.
  intros gwas weight Hug Huw Hwg Hww Hes.
  eexists. eexists. split; [now apply harmonize_unique|].
  destruct (harmonize_invariants gwas weight Hug Huw Hwg Hww) as (H1 & H2 & H3 & H4).
  split; [exact H1|]. split; [exact H2|]. split; [exact H3|]. split; [exact H4|].
  split; [reflexivity|]. split; [reflexivity|]. cbn [rows]. split.
  - intros k Hk. rewrite map_map in Hk. apply in_map_iff in Hk as ([g w] & <- & Hp).
    apply kept_pairs_In in Hp as (Hg & Hw & Hk & _). cbn [fst snd].
    change (key (gwas_out g w)) with (key g). split.
    + now apply in_map.
    + rewrite Hk. now apply in_map.
  - assert (Hrow : forall p, In p (kept_pairs gwas weight) ->
               exists y0 y1 : base,
                 effect_allele (snd p) = AStr (base_str y0)
                 /\ non_effect_allele (snd p) = AStr (base_str y1)
                 /\ y0 <> complement y1).
    { intros [g w] Hp. apply kept_pairs_In in Hp as (Hg & Hw & _ & Hnan).
      unfold wf_frame in Hwg, Hww. rewrite Forall_forall in Hwg, Hww.
      now destruct (sign_of_determined g w (Hwg g Hg) (Hww w Hw) Hnan) as (H & _). }
    intros r [Hr|Hr]; apply in_map_iff in Hr as (p & <- & Hp); exact (Hrow p Hp).
Qed.

Lemma harmonize_output_well_formed_example :
  exists df_gwas df_weight,
    harmonize_gwas_and_weight HarmonizeExample.gwas HarmonizeExample.weight
    = Ok (df_gwas, df_weight)
    /\ unique_keys df_gwas /\ unique_keys df_weight.
Proof.
  destruct (harmonize_output_well_formed HarmonizeExample.gwas HarmonizeExample.weight)
    as (g & w & Hout & Hg & Hw & _).
  - apply example_unique.
  - apply example_unique.
  - apply example_gwas_wf.
  - apply example_weight_wf.
  - now left.
  - exists g, w. repeat split; assumption.
Defined.

Lemma scale_cols_one (sel : list string) (vs : list (string * float)) :
  scale_cols sel (Fin 1) vs = vs.
Proof.
  unfold scale_cols. rewrite <- (map_id vs) at 2. apply map_ext. intros [c v]. simpl.
  destruct (mem c sel); [|reflexivity]. now rewrite F64Facts.mul_one_r.
Qed.

(** Harmonising the harmonised tables once more changes nothing. *)
Theorem harmonize_idempotent :
  forall (gwas weight df_gwas df_weight : frame),
    unique_keys gwas -> unique_keys weight ->
    wf_frame gwas -> wf_frame weight ->
    In "effect_size" (columns gwas) ->
    harmonize_gwas_and_weight gwas weight = Ok (df_gwas, df_weight) ->
    harmonize_gwas_and_weight df_gwas df_weight = Ok (df_gwas, df_weight).
Proof.
  intros gwas weight df_gwas df_weight Hug Huw Hwg Hww Hes Hout.
  rewrite (harmonize_unique gwas weight Hug Huw Hwg Hww Hes) in Hout.
  inversion Hout as [[Eg Ew]]. clear Hout.
  destruct (harmonize_invariants gwas weight Hug Huw Hwg Hww) as (H1 & H2 & H3 & H4).
  set (K := kept_pairs gwas weight) in *.
  set (go := fun p : row * row => gwas_out (fst p) (snd p)) in *.
  set (wo := fun p : row * row => weight_out (fst p) (snd p)) in *.
  rewrite harmonize_unique; try assumption.
  assert (HK : kept_pairs (mkFrame (columns gwas) (map go K))
                          (mkFrame (columns weight) (map wo K))
               = map (fun p => (go p, wo p)) K).
  { unfold kept_pairs at 1. cbn [rows].
    rewrite (merge_inner_partner go wo K (map wo K)).
    - rewrite filter_map_comm. f_equal. apply filter_all_true.
      intros [g w] Hp. cbn [fst snd].
      apply kept_pairs_In in Hp as (Hg & Hw & _ & Hnan).
      unfold wf_frame in Hwg, Hww. rewrite Forall_forall in Hwg, Hww.
      destruct (sign_of_determined g w (Hwg g Hg) (Hww w Hw) Hnan) as (_ & _ & Hself).
      change (sign_of (go (g, w)) (wo (g, w))) with (sign_of w w).
      now rewrite Hself.
    - exact H2.
    - intros p Hp. split; [now apply in_map|reflexivity]. }
  rewrite HK. cbn [columns]. rewrite !map_map. cbn [fst snd].
  f_equal. f_equal.
  - f_equal. apply map_ext_in. intros [g w] Hp.
    apply kept_pairs_In in Hp as (Hg & Hw & _ & Hnan).
    unfold wf_frame in Hwg, Hww. rewrite Forall_forall in Hwg, Hww.
    destruct (sign_of_determined g w (Hwg g Hg) (Hww w Hw) Hnan) as (_ & _ & Hself).
    unfold gwas_out at 1.
    change (sign_of (go (g, w)) (wo (g, w))) with (sign_of w w).
    rewrite Hself, scale_cols_one. reflexivity.
Qed.

Lemma harmonize_idempotent_example :
  exists df_gwas df_weight,
    harmonize_gwas_and_weight HarmonizeExample.gwas HarmonizeExample.weight
    = Ok (df_gwas, df_weight)
    /\ harmonize_gwas_and_weight df_gwas df_weight = Ok (df_gwas, df_weight).
Proof.
  pose proof (harmonize_unique HarmonizeExample.gwas HarmonizeExample.weight
                (example_unique _) (example_unique _) example_gwas_wf
                example_weight_wf (or_introl eq_refl)) as Hout.
  eexists. eexists. split; [exact Hout|].
  apply (harmonize_idempotent HarmonizeExample.gwas HarmonizeExample.weight).
  - apply example_unique.
  - apply example_unique.
  - apply example_gwas_wf.
  - apply example_weight_wf.
  - now left.
  - exact Hout.
Defined.

(** ** Rearranging twice *)

Lemma scale_cols_nan_absorbs (sel : list string) (f : float)
    (vs : list (string * float)) :
  scale_cols sel f (scale_cols sel NaN vs) = scale_cols sel NaN vs.
Proof.
  unfold scale_cols. rewrite map_map. apply map_ext. intros [c v]. simpl.
  destruct (mem c sel) eqn:E; simpl; rewrite E; [|reflexivity].
  now rewrite F64Facts.mul_nan_r.
Qed.

(** The sign of a row against its own alleles is +1 or NaN, and where it is
    NaN the sign against any other row is NaN as well. *)
Lemma harmonize_spec_self (a0 a1 : option base) :
  harmonize_spec a0 a1 a0 a1 = Fin 1
  \/ (harmonize_spec a0 a1 a0 a1 = NaN
      /\ forall b0 b1, harmonize_spec a0 a1 b0 b1 = NaN).
Proof.
  destruct a0 as [[]|], a1 as [[]|];
    try (left; reflexivity);
    right; (split; [reflexivity|]); intros [[]|] [[]|]; reflexivity.
Qed.

Lemma sign_of_self (t d : row) :
  wf_row t -> wf_row d ->
  sign_of t t = Fin 1 \/ (sign_of t t = NaN /\ sign_of t d = NaN).
Proof.
  intros [[a0 Ha0] [a1 Ha1]] [[b0 Hb0] [b1 Hb1]]. unfold sign_of.
  rewrite Ha0, Ha1, Hb0, Hb1, !check_flip_on_bases.
  destruct (harmonize_spec_self a0 a1) as [H|[H1 H2]]; [now left|].
  right. split; [exact H1|apply H2].
Qed.

Lemma sign_of_self_missing (t : row) :
  wf_row t -> sign_of t t = Fin 1 \/ sign_of t t = NaN.
Proof.
  intros Ht. destruct (sign_of_self t t Ht Ht) as [H|[H _]]; auto.
Qed.

(** Rearranging by the same target once more changes nothing. *)
Theorem rearrange_idempotent :
  forall (df target out : frame) (value_cols : list string),
    unique_keys df -> unique_keys target ->
    wf_frame df -> wf_frame target ->
    (forall c, In c value_cols -> In c (columns df)) ->
    rearrage_df_by_target df target value_cols = Ok out ->
    rearrage_df_by_target out target value_cols = Ok out.
Proof.
  intros df target out value_cols Hu Hut Hdf Ht Hcols Hout.
  rewrite (rearrange_unique df target value_cols Hu Hdf Ht Hcols) in Hout.
  inversion Hout as [Eout]. clear Hout.
  set (F := fun t => rearranged (columns df) value_cols t (find (same_key t) (rows df))).
  assert (Hkey : forall t, key (F t) = key t)
    by (intros t; unfold F; destruct (find (same_key t) (rows df)); reflexivity).
  assert (Hall : forall t, effect_allele (F t) = effect_allele t
                           /\ non_effect_allele (F t) = non_effect_allele t)
    by (intros t; unfold F; destruct (find (same_key t) (rows df)); split; reflexivity).
  assert (Hu' : unique_keys (mkFrame (columns df) (map F (rows target)))).
  { unfold unique_keys. cbn [rows]. rewrite map_map.
    rewrite (map_ext _ key Hkey). exact Hut. }
  assert (Hwf' : wf_frame (mkFrame (columns df) (map F (rows target)))).
  { unfold wf_frame in *. cbn [rows]. rewrite Forall_forall in *. intros r Hr.
    apply in_map_iff in Hr as (t & <- & Hin). destruct (Hall t) as [E1 E2].
    unfold wf_row. rewrite E1, E2. now apply Ht. }
  rewrite rearrange_unique; try assumption. cbn [columns rows].
  f_equal. f_equal. apply map_ext_in. intros t Hin.
  rewrite (find_key_self (map F (rows target)) t (F t)).
  - unfold rearranged at 1.
    assert (Es : sign_of t (F t) = sign_of t t).
    { unfold sign_of. destruct (Hall t) as [-> ->]. reflexivity. }
    rewrite Es. unfold wf_frame in Ht, Hdf. rewrite Forall_forall in Ht, Hdf.
    unfold F, rearranged.
    destruct (find (same_key t) (rows df)) as [d|] eqn:Ef; cbn [vals with_vals].
    + apply find_key_In in Ef as [Hd _].
      destruct (sign_of_self t d (Ht t Hin) (Hdf d Hd)) as [H1|[H1 H2]].
      * now rewrite H1, scale_cols_one.
      * now rewrite H2, scale_cols_nan_absorbs.
    + now rewrite scale_cols_all_nan.
  - exact Hu'.
  - now apply in_map.
  - symmetry. apply Hkey.
Qed.

Lemma example_target_wf : wf_frame HarmonizeExample.target.
Proof.
  repeat constructor;
    [apply (wf_base G)|apply (wf_base A)|apply (wf_base C)|apply (wf_base T)].
Qed.

Lemma example_target_unique : unique_keys HarmonizeExample.target.
Proof. repeat constructor; simpl; intuition discriminate. Qed.

Lemma rearrange_idempotent_example :
  exists out,
    rearrage_df_by_target HarmonizeExample.gwas HarmonizeExample.target ["effect_size"]
    = Ok out
    /\ rearrage_df_by_target out HarmonizeExample.target ["effect_size"] = Ok out.
Proof.
  assert (Hcols : forall c, In c ["effect_size"] -> In c (columns HarmonizeExample.gwas))
    by (intros c [<-|[]]; now left).
  pose proof (rearrange_unique HarmonizeExample.gwas HarmonizeExample.target
                ["effect_size"] (example_unique _) example_gwas_wf example_target_wf
                Hcols) as Hout.
  eexists. split; [exact Hout|].
  apply (rearrange_idempotent HarmonizeExample.gwas HarmonizeExample.target).
  - apply example_unique.
  - apply example_target_unique.
  - apply example_gwas_wf.
  - apply example_target_wf.
  - exact Hcols.
  - exact Hout.
Defined.

(** ** The loop on harmonised tables *)

Lemma subset_chr_unique (i : nat) (df : frame) :
  unique_keys df -> unique_keys (subset_chr i df).
Proof. unfold unique_keys, subset_chr. cbn [rows]. apply NoDup_map_filter. Qed.

Lemma subset_chr_wf (i : nat) (df : frame) : wf_frame df -> wf_frame (subset_chr i df).
Proof.
  unfold wf_frame, subset_chr. cbn [rows]. rewrite !Forall_forall.
  intros H r Hr. apply filter_In in Hr as [Hr _]. now apply H.
Qed.

Lemma shaped_zeros (n : nat) : shaped n (accum_zeros n).
Proof.
  unfold shaped. split; [apply square_zeros|]. simpl. rewrite !repeat_length.
  repeat split. apply Forall_forall. intros k Hk. apply repeat_spec in Hk. lia.
Qed.

Lemma shaped_accumulate (n : nat) (a b : accum) :
  shaped n a -> shaped n b -> shaped n (accumulate a b).
Proof.
  intros (Da & Ba & Za & Na & Pa) (Db & Bb & Zb & Nb & Pb).
  unfold shaped, accumulate. cbn [D numer_b numer_z nsnp_used].
  split; [now apply square_add|].
  split; [now apply map2_length|]. split; [now apply map2_length|].
  split; [now apply map2_length|].
  eapply map2_Forall; [|exact Pa|exact Pb]. intros x y Hx Hy. simpl in *. lia.
Qed.

Lemma shaped_numbers (n : nat) (cov weight : matrix) (b se : vec) :
  shaped n (chr_numbers n cov weight b se).
Proof.
  unfold shaped. split; [apply (square_numbers n (mkChrInput cov weight b se))|].
  unfold chr_numbers, eval_matmul_on_left, matvec, transpose.
  cbn [numer_b numer_z nsnp_used].
  rewrite !length_map, !length_seq. repeat split.
  apply Forall_forall. intros k Hk. apply in_map_iff in Hk as (w & <- & _). lia.
Qed.

Lemma has_shape_true (a b : nat) (m : matrix) :
  List.length m = a -> Forall (fun r => List.length r = b) m -> has_shape a b m = true.
Proof.
  intros H1 H2. unfold has_shape. apply andb_true_iff.
  split; [now apply Nat.eqb_eq|]. apply forallb_forall. intros r Hr.
  apply Nat.eqb_eq. rewrite Forall_forall in H2. now apply H2.
Qed.

(** A rearranged row has one cell per column of a rectangular input. *)
Lemma rearranged_width (cols value_cols : list string) (t : row) (d : option row) :
  (forall d0, d = Some d0 -> map fst (vals d0) = cols) ->
  List.length (vals (rearranged cols value_cols t d)) = List.length cols.
Proof.
  destruct d as [d0|]; intros H; cbn [rearranged vals with_vals].
  - unfold scale_cols. rewrite length_map, <- (H d0 eq_refl). now rewrite length_map.
  - now rewrite length_map.
Qed.

Lemma chr_contribution_runs (gc : geno_cov) (df_gwas df_weight : frame) (i : nat) :
  unique_keys df_gwas -> unique_keys df_weight ->
  wf_frame df_gwas -> wf_frame df_weight ->
  rectangular df_weight ->
  In "effect_size" (columns df_gwas) -> In "effect_size_se" (columns df_gwas) ->
  wf_frame (cov_meta gc i) ->
  square (List.length (rows (cov_meta gc i))) (cov_matrix gc i) ->
  exists part,
    chr_contribution gc df_gwas df_weight i = Ok part
    /\ (part = None <-> forall r, In r (rows df_gwas) -> chr r <> str i)
    /\ forall c, part = Some c -> shaped (List.length (columns df_weight)) c.
Proof.
  intros Hug Huw Hwg Hww Hrect Hes Hse Hmeta [Hclen Hcrows]. unfold chr_contribution.
  destruct (rows (subset_chr i df_gwas)) as [|r0 rs] eqn:Esub.
  - exists None. split; [reflexivity|]. split; [|discriminate].
    split; [|reflexivity]. intros _ r Hr Hc.
    assert (Hin : In r (rows (subset_chr i df_gwas))).
    { unfold subset_chr. cbn [rows]. apply filter_In. split; [assumption|].
      now apply String.eqb_eq. }
    rewrite Esub in Hin. destruct Hin.
  - rewrite (rearrange_unique (subset_chr i df_gwas) (cov_meta gc i) ["effect_size"]);
      [|now apply subset_chr_unique|now apply subset_chr_wf|assumption
       |intros c [<-|[]]; exact Hes].
    cbn [bind].
    rewrite (rearrange_unique (subset_chr i df_weight) (cov_meta gc i) (columns df_weight));
      [|now apply subset_chr_unique|now apply subset_chr_wf|assumption
       |intros c Hc; exact Hc].
    cbn [bind]. unfold column. cbn [columns subset_chr].
    apply mem_In in Hes, Hse. rewrite Hes, Hse. cbn [bind rows].
    match goal with
    | |- context [if ?b then _ else _] => assert (Hshapes : b = true)
    end.
    { rewrite !length_map. apply andb_true_iff.
      split; apply has_shape_true; try assumption.
      - now rewrite !length_map.
      - apply Forall_forall. intros w Hw.
        apply in_map_iff in Hw as (r & <- & Hr).
        apply in_map_iff in Hr as (t & <- & Ht).
        rewrite length_map. apply rearranged_width. intros d0 Hd0.
        apply find_some in Hd0 as [Hd0 _].
        unfold subset_chr in Hd0. cbn [rows] in Hd0. apply filter_In in Hd0 as [Hd0 _].
        unfold rectangular in Hrect. rewrite Forall_forall in Hrect. now apply Hrect. }
    rewrite Hshapes.
    eexists. split; [reflexivity|]. split.
    + split; [discriminate|]. intros Hnone. exfalso.
      assert (Hin : In r0 (rows (subset_chr i df_gwas))) by (rewrite Esub; now left).
      unfold subset_chr in Hin. cbn [rows] in Hin. apply filter_In in Hin as [Hin Hc].
      apply String.eqb_eq in Hc. exact (Hnone r0 Hin Hc).
    + intros c [= <-]. apply shaped_numbers.
Qed.

Lemma loop_runs (n : nat) (body : nat -> res (option accum)) (order : list nat) :
  (forall i, In i order ->
             exists part, body i = Ok part /\ forall c, part = Some c -> shaped n c) ->
  forall a0, shaped n a0 ->
             exists a, fold_left (chr_step body) order (Ok a0) = Ok a /\ shaped n a.
Proof.
  induction order as [|i order IH]; intros Hbody a0 Ha0; simpl.
  - exists a0. split; [reflexivity|assumption].
  - destruct (Hbody i (or_introl eq_refl)) as (part & Hpart & Hshape).
    rewrite Hpart. simpl. destruct part as [c|].
    + apply IH; [intros k Hk; apply Hbody; now right|].
      apply shaped_accumulate; [assumption|now apply Hshape].
    + apply IH; [intros k Hk; apply Hbody; now right|assumption].
Qed.

(** On harmonised tables (unique keys, alleles of the data model, the two
    GWAS columns, one weight per SNP and IDP), with covariance files whose
    SNP lists have alleles of the data model and whose matrices have one
    row and column per SNP of the list, no iteration of the chromosome loop
    raises; the accumulators come out with one row and column, or one
    entry, per IDP, and the SNP counts are not negative. *)
Theorem chromosome_loop_runs :
  forall (gc : geno_cov) (df_gwas df_weight : frame),
    unique_keys df_gwas -> unique_keys df_weight ->
    wf_frame df_gwas -> wf_frame df_weight ->
    rectangular df_weight ->
    In "effect_size" (columns df_gwas) -> In "effect_size_se" (columns df_gwas) ->
    (forall i, wf_frame (cov_meta gc i)) ->
    (forall i, square (List.length (rows (cov_meta gc i))) (cov_matrix gc i)) ->
    let nidp := List.length (columns df_weight) in
    exists a,
      chromosome_loop nidp (chr_contribution gc df_gwas df_weight) chromosomes = Ok a
      /\ square nidp (D a)
      /\ List.length (numer_b a) = nidp
      /\ List.length (numer_z a) = nidp
      /\ List.length (nsnp_used a) = nidp
      /\ Forall (fun k => (0 <= k)%Z) (nsnp_used a).
Proof.
  intros gc df_gwas df_weight Hug Huw Hwg Hww Hrect Hes Hse Hmeta Hcov nidp.
  destruct (loop_runs nidp (chr_contribution gc df_gwas df_weight) chromosomes)
    with (a0 := accum_zeros nidp) as (a & Ha & Hshape).
  - intros i _.
    destruct (chr_contribution_runs gc df_gwas df_weight i Hug Huw Hwg Hww Hrect Hes Hse
                (Hmeta i) (Hcov i)) as (part & Hp & _ & Hs).
    exists part. split; assumption.
  - apply shaped_zeros.
  - exists a. split; [exact Ha|exact Hshape].
Qed.

Lemma chromosome_loop_runs_example :
  exists a,
    chromosome_loop 1
      (chr_contribution PipelineExample.geno HarmonizeExample.gwas HarmonizeExample.weight)
      chromosomes = Ok a
    /\ List.length (numer_b a) = 1%nat.
Proof.
  destruct (chromosome_loop_runs PipelineExample.geno HarmonizeExample.gwas
              HarmonizeExample.weight) as (a & Ha & _ & Hb & _).
  - apply example_unique.
  - apply example_unique.
  - apply example_gwas_wf.
  - apply example_weight_wf.
  - repeat constructor.
  - now left.
  - right. now left.
  - intros i. apply example_target_wf.
  - intros i. split; [reflexivity|repeat constructor].
  - exists a. split; assumption.
Defined.

(** ** The checker for [D == 0], once more *)

Lemma mask_length {X : Type} (x : list X) (keep : list bool) :
  List.length x = List.length keep -> List.length (mask x keep) = count_true keep.
Proof.
  unfold count_true. revert x; induction keep as [|b ks IH]; intros [|a x] H;
    simpl in *; try discriminate; [reflexivity|].
  destruct b; simpl; rewrite IH by lia; reflexivity.
Qed.

Lemma mask_Forall {X : Type} (P : X -> Prop) (x : list X) (keep : list bool) :
  Forall P x -> Forall P (mask x keep).
Proof.
  intros H; revert keep; induction H as [|a x Ha Hx IH]; intros [|b ks]; simpl;
    try constructor.
  destruct b; [constructor; auto|auto].
Qed.

Lemma count_true_filter {X : Type} (p : X -> bool) (l : list X) :
  count_true (map p l) = List.length (filter p l).
Proof.
  unfold count_true. induction l as [|a l IH]; simpl; [reflexivity|].
  destruct (p a); simpl; now rewrite IH.
Qed.

Lemma diagonal_length (m : matrix) : List.length (diagonal m) = List.length m.
Proof. unfold diagonal. now rewrite length_map, length_seq. Qed.

(** On a state with one entry per IDP everywhere, the checker returns a
    state with one entry per remaining IDP everywhere: [D] stays square and
    the five vectors keep the length of its diagonal, as many as there are
    diagonal entries other than zero; and running the checker on its own
    result changes nothing. *)
Theorem drop_bad_pheno_stays_aligned :
  forall (n : nat) (s : pheno_state),
    shaped n (acc s) ->
    List.length (idp_names s) = n ->
    List.length (nsnp_total s) = n ->
    let k := List.length (filter (fun d => F64.ne d zero) (diagonal (D (acc s)))) in
    let s' := drop_bad_pheno s in
    shaped k (acc s')
    /\ List.length (idp_names s') = k
    /\ List.length (nsnp_total s') = k
    /\ (k <= n)%nat
    /\ drop_bad_pheno s' = s'.
Proof.
  intros n s (Hsq & Hb & Hz & Hn & Hpos) Hnames Htotal k s'.
  assert (Hidem : drop_bad_pheno s' = s').
  { apply drop_bad_pheno_cases. intros d Hd.
    unfold s' in Hd. rewrite (drop_bad_pheno_diagonal n s Hsq) in Hd.
    apply filter_In in Hd as [_ Hd]. unfold F64.ne in Hd.
    now apply negb_true_iff in Hd. }
  assert (Hk : (k <= n)%nat).
  { unfold k. etransitivity; [apply filter_length_le|].
    rewrite diagonal_length. destruct Hsq as [-> _]. lia. }
  cut (shaped k (acc s') /\ List.length (idp_names s') = k
       /\ List.length (nsnp_total s') = k); [tauto|].
  clear Hidem.
  destruct (drop_bad_pheno_cases s) as [Hbad Hgood]. fold s' in Hbad, Hgood.
  destruct (Nat.ltb 0 (count_true (map (fun d => F64.eq d zero) (diagonal (D (acc s))))))
    eqn:E.
  - apply count_true_pos in E. rewrite (Hbad E).
    set (good := map (fun d => F64.ne d zero) (diagonal (D (acc s)))).
    assert (Hgl : List.length good = n)
      by (unfold good; rewrite length_map, diagonal_length; apply Hsq).
    assert (Hcount : count_true good = k)
      by (unfold good, k; apply count_true_filter).
    unfold masked_by, shaped, square. cbn [acc D numer_b numer_z nsnp_used idp_names
                                            nsnp_total].
    destruct Hsq as [Hlen Hrows].
    rewrite !mask_length by (rewrite ?length_map; lia).
    repeat split; try assumption.
    + apply mask_Forall. apply Forall_forall. intros r Hr.
      apply in_map_iff in Hr as (r0 & <- & Hr0).
      rewrite Forall_forall in Hrows. rewrite mask_length; [assumption|].
      rewrite (Hrows r0 Hr0). lia.
    + now apply mask_Forall.
  - assert (Hall : forall d, In d (diagonal (D (acc s))) -> F64.eq d zero = false).
    { apply Nat.ltb_ge in E. apply count_true_zero. lia. }
    rewrite (Hgood Hall).
    assert (Hkn : k = n).
    { unfold k. rewrite filter_all_true.
      - rewrite diagonal_length. apply Hsq.
      - intros d Hd. unfold F64.ne. now rewrite (Hall d Hd). }
    rewrite Hkn. unfold shaped. repeat split; try assumption; apply Hsq.
Qed.

Lemma drop_bad_pheno_stays_aligned_example :
  drop_bad_pheno (drop_bad_pheno (mkPheno (accum_zeros 2) ["idp1"; "idp2"] [0%Z; 0%Z]))
  = drop_bad_pheno (mkPheno (accum_zeros 2) ["idp1"; "idp2"] [0%Z; 0%Z]).
Proof.
  apply (drop_bad_pheno_stays_aligned 2
           (mkPheno (accum_zeros 2) ["idp1"; "idp2"] [0%Z; 0%Z])).
  - apply shaped_zeros.
  - reflexivity.
  - reflexivity.
Defined.

(** ** A negative diagonal *)

Lemma pow2_sqrt_negative (d : float) :
  F64.lt d zero = true -> F64.sqrt d = NaN /\ pow2 (F64.sqrt d) = NaN.
Proof.
  unfold zero, pow2. destruct d; simpl; try discriminate; [auto|].
  destruct (Rlt_dec r 0) as [|Hge]; [auto|discriminate].
Qed.

(** Where the accumulated [D[i,i]] is below zero, its square root is NaN,
    and the marginal test returns NaN both as the effect estimate and as
    the z-score of that IDP, whatever the numerators are. *)
Theorem marginal_test_negative_diagonal :
  forall (s : pheno_state) (i : nat) (b z d : float),
    nth_error (numer_b (acc s)) i = Some b ->
    nth_error (numer_z (acc s)) i = Some z ->
    nth_error (diagonal (D (acc s))) i = Some d ->
    F64.lt d zero = true ->
    nth_error (fst (marginal_test s)) i = Some NaN
    /\ nth_error (snd (marginal_test s)) i = Some NaN.
Proof.
  intros s i b z d Hb Hz Hd Hneg. destruct (pow2_sqrt_negative d Hneg) as [Hs Hp].
  unfold marginal_test, S_D_of. cbn [fst snd]. split.
  - rewrite (map2_nth_error F64.div _ _ i b NaN Hb).
    + f_equal. destruct b; reflexivity.
    + rewrite map_map, nth_error_map, Hd. cbn [option_map]. now rewrite Hp.
  - rewrite (map2_nth_error F64.div _ _ i z NaN Hz).
    + f_equal. destruct z; reflexivity.
    + rewrite nth_error_map, Hd. cbn [option_map]. now rewrite Hs.
Qed.

Lemma marginal_test_negative_diagonal_example :
  marginal_test (mkPheno (mkAccum [[Fin (-1)]] [Fin 2] [Fin 3] [1%Z]) ["idp1"] [1%Z])
  = ([NaN], [NaN]).
Proof.
  assert (Hneg : F64.lt (Fin (-1)) zero = true) by (apply F64Facts.lt_fin; lra).
  destruct (marginal_test_negative_diagonal
              (mkPheno (mkAccum [[Fin (-1)]] [Fin 2] [Fin 3] [1%Z]) ["idp1"] [1%Z])
              0 (Fin 2) (Fin 3) (Fin (-1)) eq_refl eq_refl eq_refl Hneg) as [Hb Hz].
  unfold marginal_test, S_D_of, map2, diagonal in *.
  cbn [fst snd map combine seq List.length nth nth_error acc D numer_b numer_z] in *.
  congruence.
Defined.

(** ** Loading the IDP weights: the missing column *)

Lemma find_some_first {X : Type} (p : X -> bool) (l : list X) :
  (exists x, In x l /\ p x = true) -> exists y, find p l = Some y.
Proof.
  induction l as [|a l IH]; simpl; intros (x & Hx & Hp); [contradiction|].
  destruct (p a) eqn:E; [eauto|].
  destruct Hx as [->|Hx]; [congruence|]. apply IH. eauto.
Qed.

(** [load_idp] raises (a [KeyError]) exactly when the performance table
    lists, at or above the cutoff, an IDP that is no column of the weight
    table. *)
Theorem load_idp_raises_iff :
  forall (df : frame) (df_perf : list perf_row) (spearman_cutoff : float),
    (exists e, load_idp df df_perf spearman_cutoff = Raise e)
    <-> exists p, In p df_perf
                  /\ F64.ge (CV_Spearman p) spearman_cutoff = true
                  /\ ~ In (IDP p) (columns df).
Proof.
  intros df df_perf cutoff. unfold load_idp, select_columns.
  set (kept := filter (fun p => F64.ge (CV_Spearman p) cutoff) df_perf).
  destruct (find (fun c => negb (mem c (columns df))) (map IDP kept)) as [c|] eqn:E.
  - simpl. split; [|eauto]. intros _.
    apply find_some in E as [Hc Hmem]. apply in_map_iff in Hc as (p & <- & Hp).
    apply filter_In in Hp as [Hp Hge]. exists p. split; [assumption|].
    split; [assumption|]. intros Hin. apply mem_In in Hin.
    rewrite Hin in Hmem. discriminate.
  - simpl. split; [intros [e He]; discriminate|].
    intros (p & Hp & Hge & Hnot). exfalso.
    assert (Hin : In (IDP p) (map IDP kept))
      by (apply in_map, filter_In; now split).
    pose proof (find_none _ _ E (IDP p) Hin) as Hf.
    apply negb_false_iff, mem_In in Hf. contradiction.
Qed.

(** ** Chromosome labels *)

Lemma remove_chr_other (a : ascii) (rest : string) :
  a <> "c"%char -> remove_chr (String a rest) = String a (remove_chr rest).
Proof.
  intros Ha.
  destruct a as [[] [] [] [] [] [] [] []]; try reflexivity.
  now contradiction Ha.
Qed.

Lemma remove_chr_no_c (s : string) : no_c s -> remove_chr s = s.
Proof.
  induction s as [|a s IH]; simpl no_c; intros H; [reflexivity|].
  destruct H as [Ha Hs]. rewrite remove_chr_other by assumption.
  now rewrite IH.
Qed.

Lemma no_c_digits (d : Decimal.uint) : no_c (NilEmpty.string_of_uint d).
Proof.
  induction d; simpl; try exact I; (split; [discriminate|assumption]).
Qed.

Lemma no_c_str (i : nat) : no_c (str i).
Proof.
  unfold str, NilZero.string_of_uint.
  destruct (Nat.to_uint i) eqn:E; try (rewrite <- E; apply no_c_digits).
  simpl. split; [discriminate|exact I].
Qed.

(** [clean_up_chr] turns a label "chr" + s into s and leaves s alone when
    s has no letter c; the labels of the chromosome loop, [str(i)], are of
    that kind, so "chr7" and "7" both become the "7" that iteration 7
    compares with. *)
Theorem clean_up_chr_labels :
  (forall s, no_c s -> clean_up_chr ["chr" ++ s; s] = [s; s])
  /\ (forall i, clean_up_chr ["chr" ++ str i; str i] = [str i; str i])
  /\ (forall ll, List.length (clean_up_chr ll) = List.length ll).
Proof.
  assert (H : forall s, no_c s -> clean_up_chr ["chr" ++ s; s] = [s; s]).
  { intros s Hs. unfold clean_up_chr. cbn [map].
    change (remove_chr ("chr" ++ s)) with (remove_chr s).
    now rewrite remove_chr_no_c. }
  split; [exact H|]. split.
  - intros i. apply H, no_c_str.
  - intros ll. apply length_map.
Qed.

Lemma clean_up_chr_labels_example : clean_up_chr ["chrX"; "X"] = ["X"; "X"].
Proof.
  apply (proj1 clean_up_chr_labels "X").
  simpl. split; [discriminate|exact I].
Defined.

Lemma to_uint_not_nil (n : nat) : Nat.to_uint n <> Decimal.Nil.
Proof.
  intros E. pose proof (DecimalNat.Unsigned.of_to n) as H. rewrite E in H.
  simpl in H. subst n. discriminate E.
Qed.

Lemma str_inj (i j : nat) : str i = str j -> i = j.
Proof.
  unfold str. intros E. apply DecimalNat.Unsigned.to_uint_inj.
  apply (f_equal NilZero.uint_of_string) in E.
  rewrite !NilZero.usu in E by apply to_uint_not_nil.
  now inversion E.
Qed.

(** The subsets that the iterations take are disjoint: a row belongs to the
    subset of iteration [i] exactly when its label is [str(i)], so to that
    of one iteration at most; a row with another label ("X", "chr1" left
    uncleaned, "01") belongs to none. *)
Theorem chromosome_subsets_disjoint :
  forall (df : frame) (r : row),
    (forall i, In r (rows (subset_chr i df)) <-> In r (rows df) /\ chr r = str i)
    /\ (forall i j, In r (rows (subset_chr i df)) -> In r (rows (subset_chr j df)) ->
                    i = j)
    /\ ((forall i, chr r <> str i) -> forall i, ~ In r (rows (subset_chr i df))).
Proof.
  intros df r.
  assert (H : forall i, In r (rows (subset_chr i df)) <-> In r (rows df) /\ chr r = str i).
  { intros i. unfold subset_chr. cbn [rows]. rewrite filter_In, String.eqb_eq.
    reflexivity. }
  split; [exact H|]. split.
  - intros i j Hi Hj. apply H in Hi as [_ Ei]. apply H in Hj as [_ Ej].
    apply str_inj. congruence.
  - intros Hno i Hi. apply H in Hi as [_ Ei]. exact (Hno i Ei).
Qed.

(** ** Paths *)

Lemma split_not_nil (sep : ascii) (s : string) : split sep s <> [].
Proof.
  destruct s as [|c s]; simpl; [discriminate|].
  destruct (Ascii.eqb c sep); [discriminate|].
  destruct (split sep s); discriminate.
Qed.

Lemma join_cons (sep : ascii) (c : ascii) (p : string) (ps : list string) :
  join (String sep "") (String c p :: ps) = String c (join (String sep "") (p :: ps)).
Proof. destruct ps; reflexivity. Qed.

Lemma join_split (sep : ascii) (s : string) : join (String sep "") (split sep s) = s.
Proof.
  induction s as [|c s IH]; [reflexivity|]. cbn [split].
  destruct (Ascii.eqb_spec c sep) as [->|Hne].
  - pose proof (split_not_nil sep s) as Hnil.
    destruct (split sep s) as [|p ps] eqn:E; [contradiction|].
    change (join (String sep "") (EmptyString :: p :: ps))
      with (String sep (join (String sep "") (p :: ps))).
    now rewrite IH.
  - pose proof (split_not_nil sep s) as Hnil.
    destruct (split sep s) as [|p ps] eqn:E; [contradiction|].
    rewrite join_cons. now rewrite IH.
Qed.

Lemma split_free (sep : ascii) (s : string) : free_of sep s -> split sep s = [s].
Proof.
  induction s as [|c s IH]; simpl; [reflexivity|]. intros [Hc Hs].
  destruct (Ascii.eqb_spec c sep) as [E|_]; [contradiction|].
  now rewrite IH.
Qed.

Lemma split_app (sep : ascii) (a b : string) :
  split sep (a ++ String sep b) = (split sep a ++ split sep b)%list.
Proof.
  induction a as [|c a IH]; cbn [append split].
  - now rewrite Ascii.eqb_refl.
  - rewrite IH. destruct (Ascii.eqb c sep); [reflexivity|].
    pose proof (split_not_nil sep a) as Hnil.
    destruct (split sep a) as [|p ps]; [contradiction|]. reflexivity.
Qed.

(** Splitting at a character and joining with it gives the string back;
    [load_cov_meta] replaces the last extension of the covariance file by
    ".snp_meta.parquet", and for a name without any dot it drops the whole
    name. *)
Theorem cov_meta_path_extension :
  (forall sep s, join (String sep "") (split sep s) = s)
  /\ (forall base ext,
         free_of "." ext ->
         cov_meta_path (base ++ "." ++ ext) = base ++ ".snp_meta.parquet")
  /\ (forall fn, free_of "." fn -> cov_meta_path fn = ".snp_meta.parquet").
Proof.
  split; [apply join_split|]. split.
  - intros base ext Hext. unfold cov_meta_path.
    change (base ++ "." ++ ext) with (base ++ String "." ext).
    rewrite split_app, (split_free "." ext Hext), removelast_last.
    now rewrite (join_split "." base).
  - intros fn Hfn. unfold cov_meta_path. now rewrite (split_free "." fn Hfn).
Qed.

Lemma cov_meta_path_extension_example :
  cov_meta_path "geno/chr1.cov.npz" = "geno/chr1.cov.snp_meta.parquet".
Proof.
  apply (proj1 (proj2 cov_meta_path_extension) "geno/chr1.cov" "npz").
  simpl. repeat split; discriminate.
Defined.

(** ** The column pairs of the command line *)

Lemma dict_find_set (k k' v : string) (d : list (string * string)) :
  dict_find k (dict_set k' v d) = if String.eqb k' k then Some v else dict_find k d.
Proof.
  unfold dict_find. induction d as [|[a b] d IH]; cbn [dict_set find fst].
  - destruct (String.eqb k' k); reflexivity.
  - destruct (String.eqb_spec a k') as [->|Hne]; cbn [find fst].
    + destruct (String.eqb k' k); reflexivity.
    + destruct (String.eqb_spec a k) as [->|Hak].
      * destruct (String.eqb_spec k' k) as [E|_]; [congruence|reflexivity].
      * exact IH.
Qed.

Lemma dict_set_new (k v : string) (d : list (string * string)) :
  ~ In k (map fst d) -> dict_set k v d = (d ++ [(k, v)])%list.
Proof.
  induction d as [|[a b] d IH]; cbn [dict_set map fst app In]; intros H; [reflexivity|].
  destruct (String.eqb_spec a k) as [E|_]; [tauto|].
  rewrite IH by tauto. reflexivity.
Qed.

Lemma find_app_first {X : Type} (p : X -> bool) (l1 l2 : list X) :
  find p (l1 ++ l2) = match find p l1 with Some x => Some x | None => find p l2 end.
Proof.
  induction l1 as [|a l1 IH]; cbn [app find]; [reflexivity|].
  destruct (p a); [reflexivity|exact IH].
Qed.

Lemma store_find (cns d : list (string * string)) (c : string) :
  dict_find c (store cns d)
  = match given_name cns c with Some n => Some n | None => dict_find c d end.
Proof.
  unfold given_name. revert d. induction cns as [|cn cns IH]; intros d; [reflexivity|].
  cbn [store fold_left]. fold (store cns (dict_set (fst cn) (snd cn) d)).
  rewrite IH. cbn [rev]. rewrite find_app_first.
  destruct (find (fun cn0 => String.eqb (fst cn0) c) (rev cns)) as [x|]; [reflexivity|].
  cbn [find option_map]. rewrite dict_find_set.
  destruct (String.eqb (fst cn) c); reflexivity.
Qed.

Lemma find_filter_implied {X : Type} (p q : X -> bool) (l : list X) :
  (forall x, p x = true -> q x = true) -> find p (filter q l) = find p l.
Proof.
  intros H. induction l as [|a l IH]; cbn [filter find]; [reflexivity|].
  destruct (q a) eqn:Eq; cbn [find].
  - now rewrite IH.
  - destruct (p a) eqn:Ep; [rewrite (H a Ep) in Eq; discriminate|exact IH].
Qed.

Lemma filter_rev {X : Type} (q : X -> bool) (l : list X) :
  filter q (rev l) = rev (filter q l).
Proof.
  induction l as [|a l IH]; [reflexivity|]. cbn [rev filter].
  rewrite filter_app, IH. cbn [filter]. destruct (q a); [reflexivity|].
  now rewrite app_nil_r.
Qed.

Lemma given_name_accepted (ds : list string) (cns : list (string * string)) (c : string) :
  In c ds ->
  given_name (filter (fun cn => mem (fst cn) ds) cns) c = given_name cns c.
Proof.
  intros Hc. unfold given_name. rewrite <- filter_rev. f_equal.
  apply find_filter_implied. intros x Hx. apply String.eqb_eq in Hx.
  apply mem_In. now rewrite Hx.
Qed.

Lemma given_name_In (cns : list (string * string)) (c : string) :
  given_name cns c <> None <-> In c (map fst cns).
Proof.
  unfold given_name. split.
  - destruct (find _ (rev cns)) as [x|] eqn:E; cbn [option_map]; [|congruence].
    intros _. apply find_some in E as [Hin Hk]. apply String.eqb_eq in Hk.
    rewrite <- Hk. apply in_map. now apply in_rev.
  - intros Hin. apply in_map_iff in Hin as (x & <- & Hx).
    destruct (find _ (rev cns)) eqn:E; cbn [option_map]; [discriminate|].
    exfalso. apply in_rev in Hx.
    pose proof (find_none _ _ E x Hx) as Hf. cbn beta in Hf.
    rewrite String.eqb_refl in Hf. discriminate.
Qed.

(** The first loop, when every argument is a pair. *)
Lemma read_pairs_given (ds : list string) (no_raise : bool) (pairs : list string)
    (cns : list (string * string)) :
  mapM parse_pair pairs = Ok cns ->
  (no_raise = true \/ forall c, In c (map fst cns) -> In c ds) ->
  forall d tmp,
    read_pairs (Some ds) no_raise pairs d tmp
    = Ok (store (filter (fun cn => mem (fst cn) ds) cns) d, tmp).
Proof.
  revert cns. induction pairs as [|i pairs IH]; intros cns Hm Hmode d tmp.
  - inversion Hm. reflexivity.
  - cbn [mapM] in Hm. cbn [read_pairs].
    destruct (parse_pair i) as [cn|e]; [|discriminate]. cbn [bind] in *.
    destruct (mapM parse_pair pairs) as [cns'|e]; [|discriminate]. cbn [bind] in Hm.
    inversion Hm; subst cns. cbn [filter].
    assert (Hmode' : no_raise = true \/ forall c, In c (map fst cns') -> In c ds).
    { destruct Hmode as [H|H]; [now left|right]. intros c Hc. apply H. now right. }
    destruct (mem (fst cn) ds) eqn:E.
    + cbn [store fold_left]. now apply IH.
    + destruct Hmode as [->|H]; [now apply IH|].
      exfalso. assert (Hin : In (fst cn) ds) by (apply H; now left).
      apply mem_In in Hin. congruence.
Qed.

Lemma read_pairs_infer (no_raise : bool) (pairs : list string)
    (cns : list (string * string)) :
  mapM parse_pair pairs = Ok cns ->
  forall d tmp,
    read_pairs None no_raise pairs d tmp = Ok (store cns d, (tmp ++ map fst cns)%list).
Proof.
  revert cns. induction pairs as [|i pairs IH]; intros cns Hm d tmp.
  - inversion Hm. cbn [read_pairs store fold_left map]. now rewrite app_nil_r.
  - cbn [mapM] in Hm. cbn [read_pairs].
    destruct (parse_pair i) as [cn|e]; [|discriminate]. cbn [bind] in *.
    destruct (mapM parse_pair pairs) as [cns'|e]; [|discriminate]. cbn [bind] in Hm.
    inversion Hm; subst cns. rewrite (IH cns' eq_refl).
    cbn [store fold_left map]. now rewrite <- app_assoc.
Qed.

Lemma renames_keys (dict : list (string * string)) (ds : list string) (n : string) :
  In n (map fst (renames dict ds)) -> exists dd, In dd ds /\ dict_find dd dict = Some n.
Proof.
  unfold renames. intros H. apply in_map_iff in H as ([n' dd] & <- & Hin).
  apply in_flat_map in Hin as (dd' & Hdd & Hin).
  destruct (dict_find dd' dict) as [m|] eqn:E; [|contradiction].
  destruct Hin as [[= <- <-]|[]]. eauto.
Qed.

(** The second loop, when no two desired columns share a file name. *)
Lemma build_rename_distinct (no_raise : bool) (dict : list (string * string))
    (ds : list string) :
  NoDup ds ->
  (forall a b n, In a ds -> In b ds ->
                 dict_find a dict = Some n -> dict_find b dict = Some n -> a = b) ->
  (no_raise = true \/ forall dd, In dd ds -> dict_find dd dict <> None) ->
  forall rd,
    (forall dd n, In dd ds -> dict_find dd dict = Some n -> ~ In n (map fst rd)) ->
    build_rename no_raise ds dict rd = Ok (rd ++ renames dict ds)%list.
Proof.
  induction ds as [|dd ds IH]; intros Hnd Hinj Hmode rd Hfresh.
  - cbn [build_rename renames flat_map]. now rewrite app_nil_r.
  - inversion Hnd as [|x xs Hnotin Hnd']; subst. cbn [build_rename].
    assert (Hinj' : forall a b n, In a ds -> In b ds ->
                     dict_find a dict = Some n -> dict_find b dict = Some n -> a = b)
      by (intros a b n Ha Hb; apply Hinj; now right).
    assert (Hmode' : no_raise = true \/ forall x, In x ds -> dict_find x dict <> None).
    { destruct Hmode as [H|H]; [now left|right]. intros x Hx. apply H. now right. }
    unfold renames. cbn [flat_map]. fold (renames dict ds).
    destruct (dict_find dd dict) as [n|] eqn:E.
    + rewrite dict_set_new by (apply (Hfresh dd n); [now left|assumption]).
      rewrite IH; try assumption.
      * now rewrite <- app_assoc.
      * intros dd' n' Hdd' E' Hin. rewrite map_app in Hin.
        apply in_app_or in Hin as [Hin|[Hin|[]]].
        -- apply (Hfresh dd' n'); [now right|assumption|assumption].
        -- cbn [fst] in Hin. subst n'.
           assert (dd = dd') by (apply (Hinj dd dd' n); auto; [now left|now right]).
           subst dd'. contradiction.
    + destruct Hmode as [->|H].
      * rewrite IH; try assumption. reflexivity.
        intros dd' n' Hdd'. apply Hfresh. now right.
      * exfalso. apply (H dd); [now left|assumption].
Qed.

Lemma renames_ext (f g : string -> option string) (ds : list string) :
  (forall dd, In dd ds -> f dd = g dd) ->
  flat_map (fun dd => match f dd with Some n => [(n, dd)] | None => [] end) ds
  = flat_map (fun dd => match g dd with Some n => [(n, dd)] | None => [] end) ds.
Proof.
  intros H. induction ds as [|dd ds IH]; [reflexivity|].
  cbn [flat_map]. rewrite (H dd (or_introl eq_refl)), IH; [reflexivity|].
  intros x Hx. apply H. now right.
Qed.

(** The rename dict of well-formed pairs whose file names differ: for each
    desired column that the pairs name, in the order of the desired
    columns, the entry "file name -> column". *)
Lemma parse_args_distinct (is_file : string -> bool) (fn : string) (pairs : list string)
    (ds : list string) (no_raise : bool) (cns : list (string * string)) :
  is_file fn = true ->
  mapM parse_pair pairs = Ok cns ->
  (no_raise = true \/ forall c, In c (map fst cns) <-> In c ds) ->
  NoDup ds ->
  (forall a b n, In a ds -> In b ds ->
                 given_name cns a = Some n -> given_name cns b = Some n -> a = b) ->
  _parse_args is_file fn pairs (Some ds) no_raise
  = Ok (fn, flat_map (fun dd => match given_name cns dd with
                                | Some n => [(n, dd)]
                                | None => []
                                end) ds).
Proof.
  intros Hfile Hm Hmode Hnd Hinj. unfold _parse_args. rewrite Hfile. cbn [negb].
  rewrite (read_pairs_given ds no_raise pairs cns Hm)
    by (destruct Hmode as [H|H]; [now left|right; intros c Hc; now apply H]).
  cbn [bind fst snd].
  set (dict := store (filter (fun cn => mem (fst cn) ds) cns) []).
  assert (Hfind : forall dd, In dd ds -> dict_find dd dict = given_name cns dd).
  { intros dd Hdd. unfold dict. rewrite store_find, (given_name_accepted ds cns dd Hdd).
    destruct (given_name cns dd); reflexivity. }
  rewrite (build_rename_distinct no_raise dict ds Hnd).
  - cbn [bind app]. f_equal. f_equal. unfold renames.
    now apply renames_ext.
  - intros a b n Ha Hb. rewrite (Hfind a Ha), (Hfind b Hb). now apply Hinj.
  - destruct Hmode as [H|H]; [now left|right].
    intros dd Hdd. rewrite (Hfind dd Hdd). apply given_name_In. now apply H.
  - intros dd n _ _ [].
Qed.

Lemma given_entries_In (given : string -> option string) (ds : list string)
    (n dd : string) :
  In (n, dd) (flat_map (fun dd => match given dd with
                                  | Some n => [(n, dd)]
                                  | None => []
                                  end) ds)
  <-> In dd ds /\ given dd = Some n.
Proof.
  rewrite in_flat_map. split.
  - intros (x & Hx & Hin). destruct (given x) as [m|] eqn:E; [|contradiction].
    destruct Hin as [[= <- <-]|[]]. auto.
  - intros [Hdd E]. exists dd. split; [assumption|]. rewrite E. now left.
Qed.

(** C.f. [rename_dict[dict[dd]] = dd]: with well-formed pairs whose file
    names differ, [_parse_args] returns, for each desired column that the
    pairs name and in the order of the desired columns, the entry "file
    name -> column"; looking a file name up gives its column, and
    [get_key_by_val] gives the file name of a column back. *)
Theorem parse_args_rename_dict :
  forall (is_file : string -> bool) (fn : string) (pairs ds : list string)
         (no_raise : bool) (cns : list (string * string)),
    is_file fn = true ->
    mapM parse_pair pairs = Ok cns ->
    (no_raise = true \/ forall c, In c (map fst cns) <-> In c ds) ->
    NoDup ds ->
    (forall a b n, In a ds -> In b ds ->
                   given_name cns a = Some n -> given_name cns b = Some n -> a = b) ->
    exists rename_dict,
      _parse_args is_file fn pairs (Some ds) no_raise = Ok (fn, rename_dict)
      /\ rename_dict
         = flat_map (fun dd => match given_name cns dd with
                               | Some n => [(n, dd)]
                               | None => []
                               end) ds
      /\ (forall dd n, In dd ds -> given_name cns dd = Some n ->
                       dict_find n rename_dict = Some dd
                       /\ get_key_by_val dd rename_dict = Some n)
      /\ (forall dd, In dd ds -> given_name cns dd = None ->
                     get_key_by_val dd rename_dict = None).
Proof.
  intros is_file fn pairs ds no_raise cns Hfile Hm Hmode Hnd Hinj.
  eexists.
  split; [apply (parse_args_distinct is_file fn pairs ds no_raise cns); assumption|].
  split; [reflexivity|].
  set (rd := flat_map _ ds). split.
  - intros dd n Hdd Hgiven.
    assert (Hin : In (n, dd) rd) by (apply given_entries_In; auto).
    split.
    + unfold dict_find.
      destruct (find (fun kv => String.eqb (fst kv) n) rd) as [[n' dd']|] eqn:E.
      * apply find_some in E as [Hin' Hk]. apply String.eqb_eq in Hk. cbn [fst] in Hk.
        subst n'. apply given_entries_In in Hin' as [Hdd' Hg'].
        cbn [option_map snd]. f_equal. now apply (Hinj dd' dd n).
      * pose proof (find_none _ _ E (n, dd) Hin) as Hf. cbn [fst] in Hf.
        now rewrite String.eqb_refl in Hf.
    + unfold get_key_by_val.
      destruct (find (fun kv => String.eqb (snd kv) dd) rd) as [[n' dd']|] eqn:E.
      * apply find_some in E as [Hin' Hk]. apply String.eqb_eq in Hk. cbn [snd] in Hk.
        subst dd'. apply given_entries_In in Hin' as [_ Hg'].
        cbn [option_map fst]. congruence.
      * pose proof (find_none _ _ E (n, dd) Hin) as Hf. cbn [snd] in Hf.
        now rewrite String.eqb_refl in Hf.
  - intros dd Hdd Hnone. unfold get_key_by_val.
    destruct (find (fun kv => String.eqb (snd kv) dd) rd) as [[n' dd']|] eqn:E;
      [|reflexivity].
    apply find_some in E as [Hin' Hk]. apply String.eqb_eq in Hk. cbn [snd] in Hk.
    subst dd'. apply given_entries_In in Hin' as [_ Hg']. congruence.
Qed.

Lemma read_pairs_strict_inv (ds : list string) (pairs : list string) :
  forall d tmp x,
    read_pairs (Some ds) false pairs d tmp = Ok x ->
    exists cns, mapM parse_pair pairs = Ok cns
                /\ forall c, In c (map fst cns) -> In c ds.
Proof.
  induction pairs as [|i pairs IH]; intros d tmp x H.
  - exists []. split; [reflexivity|intros c []].
  - cbn [read_pairs mapM] in *.
    destruct (parse_pair i) as [cn|e]; [|discriminate]. cbn [bind] in *.
    destruct (mem (fst cn) ds) eqn:E; [|discriminate].
    destruct (IH _ _ _ H) as (cns & Hm & Hc). rewrite Hm. cbn [bind].
    exists (cn :: cns). split; [reflexivity|].
    intros c [<-|Hin]; [now apply mem_In|now apply Hc].
Qed.

Lemma build_rename_strict_inv (ds : list string) (dict : list (string * string)) :
  forall rd x,
    build_rename false ds dict rd = Ok x ->
    forall dd, In dd ds -> dict_find dd dict <> None.
Proof.
  induction ds as [|d0 ds IH]; intros rd x H dd Hdd; [contradiction|].
  cbn [build_rename] in H.
  destruct (dict_find d0 dict) as [n|] eqn:E; [|discriminate].
  destruct Hdd as [<-|Hdd]; [congruence|]. now apply (IH _ _ H).
Qed.

Lemma build_rename_strict_ok (ds : list string) (dict : list (string * string)) :
  (forall dd, In dd ds -> dict_find dd dict <> None) ->
  forall rd, exists x, build_rename false ds dict rd = Ok x.
Proof.
  induction ds as [|d0 ds IH]; intros H rd; [now exists rd|].
  cbn [build_rename].
  destruct (dict_find d0 dict) as [n|] eqn:E.
  - apply IH. intros dd Hdd. apply H. now right.
  - exfalso. apply (H d0); [now left|assumption].
Qed.

Lemma parse_args_strict_iff (is_file : string -> bool) (fn : string)
    (pairs ds : list string) :
  (exists rename_dict, _parse_args is_file fn pairs (Some ds) false = Ok (fn, rename_dict))
  <-> is_file fn = true
      /\ exists cns,
          mapM parse_pair pairs = Ok cns /\ forall c, In c (map fst cns) <-> In c ds.
Proof.
  unfold _parse_args.
  destruct (is_file fn); cbn [negb];
    [|split; [intros [rd H]; discriminate|intros [H _]; discriminate]].
  split.
  - intros [rd H]. split; [reflexivity|].
    destruct (read_pairs (Some ds) false pairs [] []) as [read|e] eqn:Er;
      [|discriminate].
    destruct (read_pairs_strict_inv ds pairs _ _ _ Er) as (cns & Hm & Hc).
    exists cns. split; [assumption|]. intros c. split; [apply Hc|].
    intros Hin. rewrite (read_pairs_given ds false pairs cns Hm (or_intror Hc)) in Er.
    inversion Er; subst read. cbn [bind fst snd] in H.
    destruct (build_rename false ds
                (store (filter (fun cn => mem (fst cn) ds) cns) []) [])
      as [rd'|e] eqn:Eb; [|discriminate].
    pose proof (build_rename_strict_inv ds _ _ _ Eb c Hin) as Hf.
    rewrite store_find, (given_name_accepted ds cns c Hin) in Hf.
    apply given_name_In. destruct (given_name cns c); [discriminate|].
    exfalso. now apply Hf.
  - intros [_ (cns & Hm & Hc)].
    rewrite (read_pairs_given ds false pairs cns Hm)
      by (right; intros c Hin; now apply Hc).
    cbn [bind fst snd].
    destruct (build_rename_strict_ok ds
                (store (filter (fun cn => mem (fst cn) ds) cns) []))
      with (rd := @nil (string * string)) as [rd Hrd].
    + intros dd Hdd. rewrite store_find, (given_name_accepted ds cns dd Hdd).
      assert (Hg : given_name cns dd <> None) by (apply given_name_In; now apply Hc).
      destruct (given_name cns dd); [discriminate|contradiction].
    + exists rd. now rewrite Hrd.
Qed.

(** [_parse_idp_args] returns exactly when the file exists, every argument
    splits at ":" into two parts, and the columns named are the four SNP
    columns, each at least once and no other. *)
Theorem parse_idp_args_accepts :
  forall (is_file : string -> bool) (fn : string) (pairs : list string),
    (exists rename_dict, _parse_idp_args is_file fn pairs = Ok (fn, rename_dict))
    <-> is_file fn = true
        /\ exists cns,
            mapM parse_pair pairs = Ok cns
            /\ forall c, In c (map fst cns)
                         <-> In c ["snpid"; "non_effect_allele"; "effect_allele"; "chr"].
Proof.
  intros is_file fn pairs. apply parse_args_strict_iff.
Qed.

Lemma NoDup_gwas_cols (have : bool) : NoDup (gwas_cols have).
Proof.
  destruct have; unfold gwas_cols;
    repeat (constructor; [simpl; intuition discriminate|]); constructor.
Qed.

Lemma find_snpid_entries (given : string -> option string) (ds : list string) :
  ~ In "snpid" ds ->
  find (fun kv => String.eqb (snd kv) "snpid")
       (flat_map (fun dd => match given dd with
                            | Some n => [(n, dd)]
                            | None => []
                            end) ds) = None.
Proof.
  intros Hno. apply find_none_all. intros [n dd] Hin.
  apply given_entries_In in Hin as [Hdd _]. cbn [snd].
  apply String.eqb_neq. intros ->. contradiction.
Qed.

(** [_parse_gwas_args], on an existing file and well-formed pairs whose
    file names differ: a mode other than "effect_size" and "zscore" is a
    [ValueError]; when the pairs name the [snpid] column, its file name is
    returned as [snpid_name]; when they do not, the function ends in an
    [UnboundLocalError], since [snpid_name] is assigned in the loop only. *)
Theorem parse_gwas_args_snpid_name :
  forall (is_file : string -> bool) (fn : string) (pairs : list string)
         (cns : list (string * string)) (have : bool),
    is_file fn = true ->
    mapM parse_pair pairs = Ok cns ->
    (forall a b n, In a (gwas_cols have) -> In b (gwas_cols have) ->
                   given_name cns a = Some n -> given_name cns b = Some n -> a = b) ->
    let mode := if have then "effect_size" else "zscore" in
    (forall n, given_name cns "snpid" = Some n ->
               exists rename_dict,
                 _parse_gwas_args is_file fn pairs mode = Returns (fn, rename_dict, n)
                 /\ dict_find n rename_dict = Some "snpid")
    /\ (given_name cns "snpid" = None ->
        _parse_gwas_args is_file fn pairs mode = UnboundLocalError "snpid_name")
    /\ (forall other, other <> "effect_size" -> other <> "zscore" ->
                      exists e, _parse_gwas_args is_file fn pairs other = Raises e).
Proof.
  intros is_file fn pairs cns have Hfile Hm Hinj mode.
  assert (Hparse := parse_args_distinct is_file fn pairs (gwas_cols have) true cns
                      Hfile Hm (or_introl eq_refl) (NoDup_gwas_cols have) Hinj).
  assert (Hmode : _parse_gwas_args is_file fn pairs mode
                  = match _parse_args is_file fn pairs (Some (gwas_cols have)) true with
                    | Raise e => Raises e
                    | Ok (fn, rename_dict) =>
                        match find (fun kv => String.eqb (snd kv) "snpid") rename_dict with
                        | Some kv => Returns (fn, rename_dict, fst kv)
                        | None => UnboundLocalError "snpid_name"
                        end
                    end)
    by (unfold mode; destruct have; reflexivity).
  rewrite Hmode, Hparse. clear Hmode Hparse.
  assert (Hrest : exists rest, gwas_cols have = "snpid" :: rest /\ ~ In "snpid" rest).
  { destruct have; eexists; (split; [reflexivity|]); simpl; intuition discriminate. }
  destruct Hrest as (rest & Hcols & Hnotin). rewrite Hcols.
  cbn [flat_map]. split; [|split].
  - intros n Hn. rewrite Hn. cbn [app find snd fst].
    rewrite String.eqb_refl. eexists. split; [reflexivity|].
    unfold dict_find. cbn [find fst]. now rewrite String.eqb_refl.
  - intros Hnone. rewrite Hnone. cbn [app].
    now rewrite (find_snpid_entries _ rest Hnotin).
  - intros other H1 H2. unfold _parse_gwas_args.
    apply String.eqb_neq in H1, H2. rewrite H1, H2. eauto.
Qed.

Lemma NoDup_map_inj {X Y : Type} (f : X -> Y) (l : list X) (a b : X) :
  NoDup (map f l) -> In a l -> In b l -> f a = f b -> a = b.
Proof.
  induction l as [|x l IH]; cbn [map In]; intros Hnd Ha Hb E; [contradiction|].
  inversion Hnd as [|y ys Hnotin Hnd']; subst.
  destruct Ha as [->|Ha], Hb as [->|Hb]; try reflexivity.
  - exfalso. apply Hnotin. rewrite E. now apply in_map.
  - exfalso. apply Hnotin. rewrite <- E. now apply in_map.
  - now apply IH.
Qed.

Lemma given_name_nodup (cns : list (string * string)) (cn : string * string) :
  NoDup (map fst cns) -> In cn cns -> given_name cns (fst cn) = Some (snd cn).
Proof.
  intros Hnd Hin. unfold given_name.
  destruct (find (fun x => String.eqb (fst x) (fst cn)) (rev cns)) as [x|] eqn:E.
  - apply find_some in E as [Hx Hk]. apply String.eqb_eq in Hk.
    apply in_rev in Hx. rewrite (NoDup_map_inj fst cns x cn Hnd Hx Hin Hk).
    reflexivity.
  - apply in_rev in Hin. pose proof (find_none _ _ E cn Hin) as Hf. cbn beta in Hf.
    now rewrite String.eqb_refl in Hf.
Qed.

(** Without desired columns (the first call of [load_gwas]) and with
    well-formed pairs that name different columns under different file
    names, [_parse_args] returns the pairs turned around, "file name ->
    column", in the order of the command line; [get_key_by_val] then finds
    a file name exactly for the columns that the pairs name. *)
Theorem parse_args_inferred_columns :
  forall (is_file : string -> bool) (fn : string) (pairs : list string)
         (no_raise : bool) (cns : list (string * string)),
    is_file fn = true ->
    mapM parse_pair pairs = Ok cns ->
    NoDup (map fst cns) -> NoDup (map snd cns) ->
    _parse_args is_file fn pairs None no_raise
    = Ok (fn, map (fun cn => (snd cn, fst cn)) cns)
    /\ forall c, get_key_by_val c (map (fun cn => (snd cn, fst cn)) cns)
                 = given_name cns c.
Proof.
  intros is_file fn pairs no_raise cns Hfile Hm Hcols Hnames.
  assert (Hgiven : forall cn, In cn cns -> given_name cns (fst cn) = Some (snd cn))
    by (intros cn; now apply given_name_nodup).
  split.
  - unfold _parse_args. rewrite Hfile. cbn [negb].
    rewrite (read_pairs_infer no_raise pairs cns Hm). cbn [bind fst snd app].
    assert (Hfind : forall dd, dict_find dd (store cns []) = given_name cns dd)
      by (intros dd; rewrite store_find; destruct (given_name cns dd); reflexivity).
    rewrite (build_rename_distinct no_raise (store cns []) (map fst cns) Hcols).
    + cbn [bind app]. f_equal. f_equal. unfold renames.
      rewrite flat_map_concat_map, map_map.
      rewrite (map_ext_in _ (fun cn => [(snd cn, fst cn)])).
      * rewrite <- flat_map_concat_map. apply flat_map_singleton. reflexivity.
      * intros cn Hcn. now rewrite Hfind, (Hgiven cn Hcn).
    + intros a b n Ha Hb. rewrite !Hfind.
      apply in_map_iff in Ha as (x & <- & Hx). apply in_map_iff in Hb as (y & <- & Hy).
      rewrite (Hgiven x Hx), (Hgiven y Hy). intros [= <-] [= E].
      f_equal. symmetry. now apply (NoDup_map_inj snd cns y x).
    + right. intros dd Hdd. rewrite Hfind. now apply given_name_In.
    + intros dd n _ _ [].
  - intros c. unfold get_key_by_val.
    destruct (find (fun kv => String.eqb (snd kv) c) (map (fun cn => (snd cn, fst cn)) cns))
      as [[n c']|] eqn:E.
    + apply find_some in E as [Hin Hk]. apply String.eqb_eq in Hk. cbn [snd] in Hk.
      subst c'. apply in_map_iff in Hin as (cn & [= <- <-] & Hcn).
      cbn [option_map fst]. symmetry. now apply Hgiven.
    + cbn [option_map]. symmetry.
      destruct (given_name cns c) as [n|] eqn:Eg; [|reflexivity]. exfalso.
      assert (Hc : In c (map fst cns)) by (apply given_name_In; congruence).
      apply in_map_iff in Hc as (cn & <- & Hcn).
      assert (Hin : In (snd cn, fst cn) (map (fun cn => (snd cn, fst cn)) cns))
        by (apply in_map_iff; now exists cn).
      pose proof (find_none _ _ E _ Hin) as Hf. cbn [snd] in Hf.
      now rewrite String.eqb_refl in Hf.
Qed.

Lemma parse_pair_snpid (name : string) :
  free_of ":" name -> parse_pair ("snpid:" ++ name) = Ok ("snpid", name).
Proof.
  intros H. unfold parse_pair. cbn [append split Ascii.eqb Bool.eqb andb].
  now rewrite (split_free ":" name H).
Qed.

(** [get_snpid_col] returns [None] when no argument contains "snpid:", and
    the file name of the first argument "snpid:name" otherwise, the same
    name that [_parse_args] reads from that pair. *)
Theorem get_snpid_col_first :
  (forall l, (forall i, In i l -> contains "snpid:" i = false) ->
             get_snpid_col l = Ok None)
  /\ (forall pre name post,
         (forall i, In i pre -> contains "snpid:" i = false) ->
         free_of ":" name ->
         get_snpid_col (pre ++ ("snpid:" ++ name) :: post) = Ok (Some name)
         /\ parse_pair ("snpid:" ++ name) = Ok ("snpid", name)).
Proof.
  split.
  - induction l as [|i l IH]; intros H; [reflexivity|]. cbn [get_snpid_col].
    rewrite (H i (or_introl eq_refl)). apply IH. intros k Hk. apply H. now right.
  - intros pre name post Hpre Hname. split; [|now apply parse_pair_snpid].
    induction pre as [|i pre IH]; cbn [app get_snpid_col].
    + assert (Hc : contains "snpid:" ("snpid:" ++ name) = true).
      { unfold contains. cbn [append]. destruct name; reflexivity. }
      rewrite Hc. pose proof (parse_pair_snpid name Hname) as Hp.
      unfold parse_pair in Hp.
      destruct (split ":" ("snpid:" ++ name)) as [|a [|b [|c l]]]; try discriminate.
      now inversion Hp.
    + rewrite (Hpre i (or_introl eq_refl)). apply IH.
      intros k Hk. apply Hpre. now right.
Qed.

Lemma args_example_distinct (ds : list string) :
  forall a b n, In a ds -> In b ds ->
                given_name ArgsExample.cns a = Some n ->
                given_name ArgsExample.cns b = Some n -> a = b.
Proof.
  intros a b n _ _. unfold given_name, ArgsExample.cns.
  cbn [rev app find fst].
  destruct (String.eqb_spec "chr" a) as [Ca|Ca];
    destruct (String.eqb_spec "chr" b) as [Cb|Cb];
    destruct (String.eqb_spec "snpid" a) as [Sa|Sa];
    destruct (String.eqb_spec "snpid" b) as [Sb|Sb];
    cbn [option_map snd]; intros Ha Hb; congruence.
Qed.

Lemma parse_args_rename_dict_example :
  exists rename_dict,
    _parse_args ArgsExample.is_file "gwas.tsv" ArgsExample.pairs
                (Some ["snpid"; "chr"]) false = Ok ("gwas.tsv", rename_dict)
    /\ rename_dict = [("rsid", "snpid"); ("chrom", "chr")].
Proof.
  destruct (parse_args_rename_dict ArgsExample.is_file "gwas.tsv" ArgsExample.pairs
              ["snpid"; "chr"] false ArgsExample.cns)
    as (rd & Hrd & Hform & _).
  - reflexivity.
  - reflexivity.
  - right. intros c. reflexivity.
  - repeat constructor; simpl; intuition discriminate.
  - apply args_example_distinct.
  - exists rd. split; [exact Hrd|]. rewrite Hform. reflexivity.
Defined.

Lemma parse_gwas_args_snpid_name_example :
  exists rename_dict,
    _parse_gwas_args ArgsExample.is_file "gwas.tsv" ArgsExample.pairs "effect_size"
    = Returns ("gwas.tsv", rename_dict, "rsid")
  /\ _parse_gwas_args ArgsExample.is_file "gwas.tsv" ["chr:chrom"] "zscore"
     = UnboundLocalError "snpid_name".
Proof.
  destruct (parse_gwas_args_snpid_name ArgsExample.is_file "gwas.tsv" ArgsExample.pairs
              ArgsExample.cns true) as (Hsome & _).
  - reflexivity.
  - reflexivity.
  - apply args_example_distinct.
  - destruct (Hsome "rsid" eq_refl) as (rd & Hrd & _).
    exists rd. split; [exact Hrd|].
    destruct (parse_gwas_args_snpid_name ArgsExample.is_file "gwas.tsv" ["chr:chrom"]
                [("chr", "chrom")] false) as (_ & Hnone & _).
    + reflexivity.
    + reflexivity.
    + intros a b n _ _. unfold given_name. cbn [rev app find fst].
      destruct (String.eqb_spec "chr" a) as [Ca|Ca];
        destruct (String.eqb_spec "chr" b) as [Cb|Cb];
        cbn [option_map snd]; intros Ha Hb; congruence.
    + apply Hnone. reflexivity.
Defined.

Lemma parse_args_inferred_columns_example :
  _parse_args ArgsExample.is_file "gwas.tsv" ArgsExample.pairs None false
  = Ok ("gwas.tsv", [("rsid", "snpid"); ("chrom", "chr")]).
Proof.
  apply (parse_args_inferred_columns ArgsExample.is_file "gwas.tsv" ArgsExample.pairs
           false ArgsExample.cns).
  - reflexivity.
  - reflexivity.
  - repeat constructor; simpl; intuition discriminate.
  - repeat constructor; simpl; intuition discriminate.
Defined.

Lemma get_snpid_col_first_example :
  get_snpid_col ["chr:chrom"; "snpid:rsid"] = Ok (Some "rsid").
Proof.
  apply (proj2 get_snpid_col_first ["chr:chrom"] "rsid" []).
  - intros i [<-|[]]. reflexivity.
  - simpl. repeat split; discriminate.
Defined.

(** ** Loading the GWAS *)

Lemma drop_duplicates_spec (rs : list row) :
  forall seen,
    NoDup (map snpid (drop_duplicates_snpid seen rs))
    /\ forall r, In r (drop_duplicates_snpid seen rs) -> In r rs /\ ~ In (snpid r) seen.
Proof.
  induction rs as [|r rs IH]; intros seen; cbn [drop_duplicates_snpid].
  - split; [constructor|intros r []].
  - destruct (mem (snpid r) seen) eqn:E.
    + destruct (IH seen) as [Hnd Hin]. split; [exact Hnd|].
      intros x Hx. destruct (Hin x Hx). split; [now right|assumption].
    + destruct (IH (snpid r :: seen)) as [Hnd Hin]. split.
      * cbn [map]. constructor; [|exact Hnd].
        intros Hr. apply in_map_iff in Hr as (x & Hs & Hx).
        destruct (Hin x Hx) as [_ Hno]. apply Hno. left. now symmetry.
      * intros x [<-|Hx].
        -- split; [now left|]. intros Hs. apply mem_In in Hs. congruence.
        -- destruct (Hin x Hx) as [H1 H2]. split; [now right|].
           intros Hs. apply H2. now right.
Qed.

Lemma cell_map_cells (k c : string) (f : float -> float) (r : row)
    (vs : list (string * float)) :
  cell k (with_vals r (map (fun cv => if String.eqb (fst cv) c
                                      then (fst cv, f (snd cv)) else cv) vs))
  = match find (fun cv => String.eqb (fst cv) k) vs with
    | Some cv => if String.eqb k c then f (snd cv) else snd cv
    | None => NaN
    end.
Proof.
  unfold cell. cbn [vals with_vals].
  induction vs as [|[a b] vs IH]; cbn [map find fst snd]; [reflexivity|].
  destruct (String.eqb_spec a c) as [->|Hac]; cbn [find fst snd].
  - destruct (String.eqb_spec c k) as [->|Hck]; [|exact IH].
    now rewrite String.eqb_refl.
  - destruct (String.eqb_spec a k) as [->|Hak]; [|exact IH].
    destruct (String.eqb_spec k c) as [E|_]; [congruence|reflexivity].
Qed.

Lemma column_ok (c : string) (df : frame) (x : vec) :
  column c df = Ok x -> mem c (columns df) = true /\ x = map (cell c) (rows df).
Proof.
  unfold column. destruct (mem c (columns df)); [|discriminate].
  intros [= <-]. auto.
Qed.

Lemma replace_se_kept (x : float) :
  F64.notna (replace_se x) = true -> exists s, x = Fin s /\ s <> 0%R /\ replace_se x = Fin s.
Proof.
  unfold replace_se, zero. destruct x as [| | |s]; cbn; try discriminate.
  destruct (Req_dec_T s 0) as [->|Hs]; cbn; [discriminate|].
  intros _. exists s. auto.
Qed.

Lemma map_fst_combine {X Y : Type} (l : list X) (l' : list Y) :
  List.length l' = List.length l -> map fst (combine l l') = l.
Proof.
  revert l'; induction l as [|a l IH]; intros [|b l'] H; simpl in *;
    try discriminate; [reflexivity|].
  f_equal. apply IH. lia.
Qed.

(** An assignment to a column keeps the SNPs of the rows. *)
Lemma set_column_ok (c : string) (values : vec) (df out : frame) :
  set_column c values df = Ok out ->
  columns out = (if mem c (columns df) then columns df else (columns df ++ [c])%list)
  /\ map snp_of (rows out) = map snp_of (rows df).
Proof.
  unfold set_column.
  destruct (Nat.eqb (List.length values) (List.length (rows df))) eqn:E;
    cbn [negb]; [|discriminate].
  apply Nat.eqb_eq in E. intros [= <-]. cbn [columns rows]. split; [reflexivity|].
  rewrite map_map.
  rewrite <- (map_fst_combine (rows df) values E) at 2. rewrite map_map.
  reflexivity.
Qed.

Lemma load_gwas_rows_form (impute : vec -> vec -> vec -> res (vec * vec)) (have : bool)
    (df out : frame) :
  load_gwas_rows impute have df = Ok out ->
  exists rows2,
    out = mkFrame ["effect_size"; "effect_size_se"]
            (map selected (filter usable (map replaced rows2)))
    /\ map snp_of rows2
       = map snp_of (map clean_chr_of (drop_duplicates_snpid [] (rows df)))
    /\ (have = true -> rows2 = map clean_chr_of (drop_duplicates_snpid [] (rows df))).
Proof.
  unfold load_gwas_rows. cbv zeta. cbn [columns rows].
  set (rows1 := map clean_chr_of (drop_duplicates_snpid [] (rows df))).
  set (df1 := mkFrame (columns df) rows1).
  assert (Hend : forall df2,
             bind (column "effect_size_se" df2)
               (fun _ =>
                  bind (column "effect_size" (map_column "effect_size_se" replace_se df2))
                    (fun _ =>
                       select_columns
                         (mkFrame (columns (map_column "effect_size_se" replace_se df2))
                            (filter (fun r => F64.notna (cell "effect_size" r)
                                              && F64.notna (cell "effect_size_se" r))
                                    (rows (map_column "effect_size_se" replace_se df2))))
                         ["effect_size"; "effect_size_se"]))
             = Ok out ->
             out = mkFrame ["effect_size"; "effect_size_se"]
                     (map selected (filter usable (map replaced (rows df2))))).
  { intros df2.
    destruct (column "effect_size_se" df2) as [se|e] eqn:Ese; [|cbn [bind]; discriminate].
    cbn [bind]. apply column_ok in Ese as [Mse _].
    destruct (column "effect_size" (map_column "effect_size_se" replace_se df2))
      as [es|e] eqn:Ees; [|cbn [bind]; discriminate].
    cbn [bind]. apply column_ok in Ees as [Mes _]. cbn [map_column columns] in Mes.
    unfold select_columns. cbn [columns map_column find].
    rewrite Mes, Mse. cbn [negb rows map_column].
    intros [= <-]. reflexivity. }
  destruct have.
  - cbn [bind]. intros Hout. exists rows1.
    split; [exact (Hend df1 Hout)|]. split; reflexivity.
  - destruct (column "zscore" df1) as [z|e]; [|cbn [bind]; discriminate]. cbn [bind].
    destruct (column "allele_frequency" df1) as [af|e]; [|cbn [bind]; discriminate].
    cbn [bind].
    destruct (column "sample_size" df1) as [n|e]; [|cbn [bind]; discriminate]. cbn [bind].
    destruct (impute z af n) as [[bhat se]|e]; [|cbn [bind]; discriminate].
    cbn [bind fst snd].
    destruct (set_column "effect_size" bhat df1) as [dfa|e] eqn:Ea;
      [|cbn [bind]; discriminate].
    cbn [bind].
    destruct (set_column "effect_size_se" se dfa) as [dfb|e] eqn:Eb;
      [|cbn [bind]; discriminate].
    cbn [bind]. intros Hout. exists (rows dfb).
    split; [exact (Hend dfb Hout)|]. split; [|discriminate].
    apply set_column_ok in Ea as [_ Ha]. apply set_column_ok in Eb as [_ Hb].
    now rewrite Hb, Ha.
Qed.

Lemma NoDup_snpid_keys (rs : list row) : NoDup (map snpid rs) -> NoDup (map key rs).
Proof.
  induction rs as [|r rs IH]; cbn [map]; intros H; [constructor|].
  inversion H as [|x xs Hnotin Hnd]; subst. constructor; [|now apply IH].
  intros Hin. apply Hnotin. apply in_map_iff in Hin as (y & Hk & Hy).
  apply (f_equal fst) in Hk. change (snpid y = snpid r) in Hk.
  rewrite <- Hk. now apply in_map.
Qed.

(** What [load_gwas] returns, from the renamed table on, whether the
    effect size is given or imputed, and whatever the imputation computes:
    the two numeric columns [effect_size] and [effect_size_se]; one row per
    [snpid] at most, hence unique [(snpid, chr)] keys; every row is a row
    of the input with its alleles and with "chr" removed from its
    chromosome label; its effect size is not NaN and its standard error is
    a number other than zero and the infinities; a given effect size and
    standard error are those of the input row. *)
Theorem load_gwas_rows_clean :
  forall (impute : vec -> vec -> vec -> res (vec * vec)) (have_effect_size : bool)
         (df out : frame),
    load_gwas_rows impute have_effect_size df = Ok out ->
    columns out = ["effect_size"; "effect_size_se"]
    /\ NoDup (map snpid (rows out))
    /\ unique_keys out
    /\ forall r, In r (rows out) ->
         exists (r0 : row) (b : float) (s : R),
           In r0 (rows df)
           /\ snpid r = snpid r0 /\ chr r = remove_chr (chr r0)
           /\ effect_allele r = effect_allele r0
           /\ non_effect_allele r = non_effect_allele r0
           /\ vals r = [("effect_size", b); ("effect_size_se", Fin s)]
           /\ F64.isnan b = false /\ s <> 0%R
           /\ (have_effect_size = true ->
               b = cell "effect_size" r0 /\ Fin s = cell "effect_size_se" r0).
Proof.
  intros impute have df out Hout.
  apply load_gwas_rows_form in Hout as (rows2 & -> & Hsnp & Hhave).
  cbn [columns rows]. split; [reflexivity|].
  set (dd := drop_duplicates_snpid [] (rows df)) in *.
  destruct (drop_duplicates_spec (rows df) []) as [Hnd Hdd]. fold dd in Hnd, Hdd.
  assert (Hids : map snpid rows2 = map snpid dd).
  { apply (f_equal (map (fun q : string * string * allele * allele => fst (fst (fst q)))))
      in Hsnp.
    rewrite !map_map in Hsnp. exact Hsnp. }
  assert (Hsn : NoDup (map snpid (map selected (filter usable (map replaced rows2))))).
  { rewrite map_map. change (fun x => snpid (selected x)) with snpid.
    apply NoDup_map_filter. rewrite map_map.
    change (fun x => snpid (replaced x)) with snpid. now rewrite Hids. }
  split; [exact Hsn|]. split; [now apply NoDup_snpid_keys|].
  intros r Hr. apply in_map_iff in Hr as (r3 & <- & Hr3).
  apply filter_In in Hr3 as [Hr3 Hkeep].
  apply in_map_iff in Hr3 as (g & <- & Hg).
  assert (Hsrc : exists r0, In r0 dd /\ snp_of (clean_chr_of r0) = snp_of g
                            /\ (have = true -> g = clean_chr_of r0)).
  { destruct have.
    - rewrite (Hhave eq_refl) in Hg. apply in_map_iff in Hg as (r0 & <- & Hr0).
      exists r0. auto.
    - apply (in_map snp_of) in Hg. rewrite Hsnp in Hg.
      apply in_map_iff in Hg as (r1 & E1 & Hr1).
      apply in_map_iff in Hr1 as (r0 & <- & Hr0).
      exists r0. split; [assumption|]. split; [assumption|discriminate]. }
  destruct Hsrc as (r0 & Hr0 & Esnp & Esame).
  destruct (Hdd r0 Hr0) as [Hin _].
  unfold usable in Hkeep. apply andb_true_iff in Hkeep as [Kes Kse].
  assert (Hes : cell "effect_size" (replaced g) = cell "effect_size" g).
  { unfold replaced. rewrite cell_map_cells. unfold cell.
    destruct (find _ (vals g)); reflexivity. }
  assert (Hse : cell "effect_size_se" (replaced g)
                = match find (fun cv => String.eqb (fst cv) "effect_size_se") (vals g) with
                  | Some cv => replace_se (snd cv)
                  | None => NaN
                  end).
  { unfold replaced. rewrite cell_map_cells. reflexivity. }
  rewrite Hes in Kes. rewrite Hse in Kse.
  destruct (find (fun cv => String.eqb (fst cv) "effect_size_se") (vals g))
    as [cv|] eqn:Ef; [|discriminate].
  destruct (replace_se_kept _ Kse) as (s & Hs & Hs0 & Hrep).
  assert (Hcell : cell "effect_size_se" g = Fin s) by (unfold cell; now rewrite Ef).
  unfold snp_of in Esnp. cbn [clean_chr_of snpid chr effect_allele non_effect_allele]
    in Esnp. inversion Esnp as [[E1 E2 E3 E4]].
  exists r0, (cell "effect_size" g), s.
  split; [exact Hin|].
  split; [symmetry; exact E1|]. split; [symmetry; exact E2|].
  split; [symmetry; exact E3|]. split; [symmetry; exact E4|].
  split.
  { unfold selected. cbn [vals with_vals]. rewrite Hes, Hse, Hrep. reflexivity. }
  split; [unfold F64.notna in Kes; now apply negb_true_iff in Kes|].
  split; [exact Hs0|].
  intros Hh. rewrite (Esame Hh) in Hcell |- *. split; [reflexivity|].
  symmetry. exact Hcell.
Qed.

(** Rows in z-score form, the second a duplicate, and an imputation that
    returns the z-scores and the sample sizes. *)
Lemma load_gwas_rows_clean_example :
  exists out,
    load_gwas_rows GwasExample.impute false GwasExample.df_z = Ok out
    /\ NoDup (map snpid (rows out)).
Proof.
  assert (Hok : exists out,
             load_gwas_rows GwasExample.impute false GwasExample.df_z = Ok out).
  { unfold load_gwas_rows, GwasExample.df_z, GwasExample.impute.
    cbn [rows columns drop_duplicates_snpid mem existsb snpid String.eqb Ascii.eqb
         Bool.eqb andb orb map].
    unfold column. cbn [columns mem existsb String.eqb Ascii.eqb Bool.eqb andb orb bind
                        fst snd rows map].
    unfold set_column.
    cbn [rows columns map List.length Nat.eqb negb bind mem existsb String.eqb
         Ascii.eqb Bool.eqb andb orb app combine].
    unfold select_columns. cbn [columns map_column find mem existsb String.eqb
                                 Ascii.eqb Bool.eqb andb orb negb].
    eexists. reflexivity. }
  destruct Hok as [out Hout]. exists out. split; [exact Hout|].
  apply (load_gwas_rows_clean GwasExample.impute false GwasExample.df_z out Hout).
Defined.

(** ** The statements above at concrete inputs *)

Lemma chromosome_subsets_disjoint_example :
  In (mkRow "rs1" "1" (AStr "A") (AStr "G") [])
     (rows (subset_chr 1 (mkFrame [] [mkRow "rs1" "1" (AStr "A") (AStr "G") [];
                                      mkRow "rs2" "2" (AStr "C") (AStr "T") []]))).
Proof.
  apply (proj1 (chromosome_subsets_disjoint
                  (mkFrame [] [mkRow "rs1" "1" (AStr "A") (AStr "G") [];
                               mkRow "rs2" "2" (AStr "C") (AStr "T") []])
                  (mkRow "rs1" "1" (AStr "A") (AStr "G") []))).
  split; [left; reflexivity|reflexivity].
Defined.

Lemma load_idp_raises_iff_example :
  exists e,
    load_idp IdpExample.df
             [mkPerf "idp3" (Fin (1 / 2)) (Fin (1 / 2)) (Fin (1 / 2))] (Fin (1 / 10))
    = Raise e.
Proof.
  apply (proj2 (load_idp_raises_iff IdpExample.df
                  [mkPerf "idp3" (Fin (1 / 2)) (Fin (1 / 2)) (Fin (1 / 2))]
                  (Fin (1 / 10)))).
  exists (mkPerf "idp3" (Fin (1 / 2)) (Fin (1 / 2)) (Fin (1 / 2))).
  split; [left; reflexivity|]. split.
  - cbn [CV_Spearman]. unfold F64.ge. apply F64Facts.le_fin. lra.
  - cbn. intros [H|[H|[]]]; discriminate H.
Defined.

Lemma parse_idp_args_accepts_example :
  exists rename_dict,
    _parse_idp_args ArgsExample.is_file "gwas.tsv"
      ["snpid:rsid"; "non_effect_allele:ref"; "effect_allele:alt"; "chr:chrom"]
    = Ok ("gwas.tsv", rename_dict).
Proof.
  apply (proj2 (parse_idp_args_accepts ArgsExample.is_file "gwas.tsv"
                  ["snpid:rsid"; "non_effect_allele:ref"; "effect_allele:alt";
                   "chr:chrom"])).
  split; [reflexivity|].
  exists [("snpid", "rsid"); ("non_effect_allele", "ref"); ("effect_allele", "alt");
          ("chr", "chrom")].
  split; [reflexivity|]. intros c. cbn [map fst In]. tauto.
Defined.
